(** * Phrase / slang occurrence locator of voquab

    A shallow embedding of the locator that lives, twice, in
    [scripts/backfill_phrase_slang_occurrences.py] and in
    [scripts/import_lyrics.py]: [normalize_text], [normalize_for_search],
    [phrase_exists_in_line] and [find_phrase_positions], together with the
    properties of the locator.  The callers of the locator follow
    ([process_song] and the loop of [main] in the first script,
    [detect_occurrences_for_song], [detect_occurrences] and
    [get_learnable_lines_with_songs] in the second), and, of
    [scripts/import_lyrics.py], the functions on text that need no request:
    [guess_gender_by_ending], [is_vocalization_line] with
    [flag_skippable_lines], and [normalize_title] with [load_song_mappings]
    and [match_songs_to_database].

    Python strings are sequences of Unicode code points, so a string is a
    list of code points ([N]); word positions are Python integers ([Z]).
    The Unicode tables of the Python runtime (lower-casing, NFC, the
    white-space class, the [\w] class and case-insensitive comparison of the
    [re] module) are not part of the repository: they are the fields of the
    class [Unicode], and the facts about them that a concrete example needs
    are collected in [python_latin1]. *)

From Stdlib Require Import List ZArith NArith Lia Bool String Ascii.
Import ListNotations.

Local Open Scope bool_scope.
Local Open Scope list_scope.

(** ** Strings *)

Definition char := N.
Definition str := list char.

(** An ASCII literal as a list of code points. *)
Definition lit (s : string) : str := map N_of_ascii (list_ascii_of_string s).

Definition APOSTROPHE : char := 39%N.
Definition BACKSLASH : char := 92%N.
Definition QUESTION : char := 63%N.
Definition NEWLINE : char := 10%N.
Definition RSQUO : char := 8217%N.

Fixpoint str_eqb (a b : str) : bool :=
  match a, b with
  | [], [] => true
  | x :: a', y :: b' => N.eqb x y && str_eqb a' b'
  | _, _ => false
  end.

Definition mem (c : char) (cs : str) : bool := existsb (N.eqb c) cs.

(** ** Exceptions

    The locator signals absence with [None]; the error side of [result] is
    what a Python exception would be. *)

Inductive exn := IndexError | ValueError | ReError.

Inductive result (A : Type) :=
| Ok (a : A)
| Raise (e : exn).
Arguments Ok {A} a.
Arguments Raise {A} e.

Definition bind {A B : Type} (r : result A) (k : A -> result B) : result B :=
  match r with
  | Ok a => k a
  | Raise e => Raise e
  end.

Declare Scope py_scope.
Delimit Scope py_scope with py.
Notation "x <- r ;; k" := (bind r (fun x => k))
  (at level 61, r at next level, right associativity) : py_scope.
Local Open Scope py_scope.

(** ** The builtins of Python the locator calls *)

Module Py.

(** [s.startswith(p)] *)
Fixpoint startswith (p s : str) : bool :=
  match p, s with
  | [], _ => true
  | x :: p', y :: s' => N.eqb x y && startswith p' s'
  | _ :: _, [] => false
  end.

(** [s.replace(old, new)]: the occurrences of [old] are found from left to
    right and do not overlap.  [skip] counts the characters of an occurrence
    just replaced that are still to be passed over. *)
Fixpoint replace_from (old new : str) (skip : nat) (s : str) : str :=
  match s with
  | [] => []
  | c :: r =>
      match skip with
      | S k => replace_from old new k r
      | O =>
          if startswith old s
          then new ++ replace_from old new (List.length old - 1) r
          else c :: replace_from old new 0 r
      end
  end.

Definition replace (old new s : str) : str :=
  match old with
  | [] => new ++ flat_map (fun c => c :: new) s
  | _ :: _ => replace_from old new 0 s
  end.

(** [s.lstrip()], [s.rstrip()], [s.strip()] for a class of characters. *)
Fixpoint lstrip (p : char -> bool) (s : str) : str :=
  match s with
  | [] => []
  | c :: r => if p c then lstrip p r else s
  end.

Fixpoint rstrip (p : char -> bool) (s : str) : str :=
  match s with
  | [] => []
  | c :: r =>
      match rstrip p r with
      | [] => if p c then [] else [c]
      | r' => c :: r'
      end
  end.

Definition strip (p : char -> bool) (s : str) : str := rstrip p (lstrip p s).

(** [s.rstrip(chars)] *)
Definition rstrip_chars (chars s : str) : str := rstrip (fun c => mem c chars) s.

(** [s.split()]: the maximal runs of characters that are not white space.
    [split_run] returns the run that starts the string and the words after
    it. *)
Fixpoint split_run (sp : char -> bool) (s : str) : str * list str :=
  match s with
  | [] => ([], [])
  | c :: r =>
      let '(w, ws) := split_run sp r in
      if sp c
      then ([], match w with [] => ws | _ :: _ => w :: ws end)
      else (c :: w, ws)
  end.

Definition split (sp : char -> bool) (s : str) : list str :=
  let '(w, ws) := split_run sp s in
  match w with [] => ws | _ :: _ => w :: ws end.

(** [min(l)] and [max(l)] of a list of integers; [ValueError] on []. *)
Definition min (l : list Z) : result Z :=
  match l with
  | [] => Raise ValueError
  | x :: r => Ok (fold_left Z.min r x)
  end.

Definition max (l : list Z) : result Z :=
  match l with
  | [] => Raise ValueError
  | x :: r => Ok (fold_left Z.max r x)
  end.

(** [l[i]] for [i >= 0]; [IndexError] out of range. *)
Definition index {A : Type} (l : list A) (i : nat) : result A :=
  match nth_error l i with
  | Some a => Ok a
  | None => Raise IndexError
  end.

End Py.

(** ** The Unicode tables of the runtime *)

Class Unicode := {
  (** [str.lower] *)
  lower : str -> str;
  (** [unicodedata.normalize('NFC', _)] *)
  nfc : str -> str;
  (** [str.isspace] on one character: what [strip()] and [split()] remove *)
  isspace : char -> bool;
  (** the class [\w] of [re] on a [str] pattern *)
  isword : char -> bool;
  (** [icase_eq p c]: under [re.IGNORECASE] the pattern literal [p] matches
      the character [c] *)
  icase_eq : char -> char -> bool
}.

(** ** The fragment of [re] the locator uses *)

Module Re.

(** The characters [re.escape] puts a backslash before. *)
Definition special_chars : str :=
  [40; 41; 91; 93; 123; 125; 63; 42; 43; 45; 124; 94; 36; 92; 46; 38; 126;
   35; 32; 9; 10; 13; 11; 12]%N.

(** [re.escape(s)] *)
Definition escape (s : str) : str :=
  flat_map (fun c => if mem c special_chars then [BACKSLASH; c] else [c]) s.

Inductive node :=
| At_beginning                          (* ^ *)
| At_end                                (* $ *)
| Not_word                              (* [^\w] *)
| Literal (c : char)                    (* a character, IGNORECASE *)
| Branch (a b : node)                   (* (?:a|b) *)
| Optional (lazy : bool) (n : node).    (* n? and n?? *)

(** Characters that are not literals when they stand unescaped. *)
Definition metachars : str :=
  [46; 94; 36; 42; 43; 63; 123; 125; 91; 93; 92; 124; 40; 41]%N.

Definition ascii_alnum (c : char) : bool :=
  ((48 <=? c) && (c <=? 57) || (65 <=? c) && (c <=? 90)
   || (97 <=? c) && (c <=? 122))%N.

(** Parsing of a pattern made of literals, escaped characters and the
    quantifiers [?] and [??], which is all [phrase_exists_in_line] puts
    between its two groups.  [acc] holds the nodes read so far, last one
    first; [q] counts the [?] read after the last node; [esc] says that the
    previous character was an unconsumed backslash.  Anything else is
    answered with [ReError]. *)
Fixpoint parse_from (acc : list node) (q : nat) (esc : bool) (s : str)
  : result (list node) :=
  match s with
  | [] => if esc then Raise ReError else Ok (rev acc)
  | c :: r =>
      if esc then
        if ascii_alnum c then Raise ReError
        else parse_from (Literal c :: acc) 0 false r
      else if N.eqb c BACKSLASH then parse_from acc q true r
      else if N.eqb c QUESTION then
        match acc, q with
        | n :: acc', O => parse_from (Optional false n :: acc') 1 false r
        | Optional false n :: acc', 1%nat =>
            parse_from (Optional true n :: acc') 2 false r
        | _, _ => Raise ReError
        end
      else if mem c metachars then Raise ReError
      else parse_from (Literal c :: acc) 0 false r
  end.

Definition parse (s : str) : result (list node) := parse_from [] 0 false s.

Section Matching.
Context {U : Unicode}.

(** A matching state: are we at the start of the subject, and what is
    left of it. *)
Definition state := (bool * str)%type.

(** The states one node can lead to, in the order the backtracking
    matcher tries them. *)
Fixpoint step (n : node) (st : state) : list state :=
  let '(bol, rest) := st in
  match n with
  | At_beginning => if bol then [st] else []
  | At_end =>
      match rest with
      | [] => [st]
      | [c] => if N.eqb c NEWLINE then [st] else []
      | _ => []
      end
  | Not_word =>
      match rest with
      | c :: r => if negb (isword c) then [(false, r)] else []
      | [] => []
      end
  | Literal p =>
      match rest with
      | c :: r => if icase_eq p c then [(false, r)] else []
      | [] => []
      end
  | Branch a b => step a st ++ step b st
  | Optional lazy m => if lazy then st :: step m st else step m st ++ [st]
  end.

(** Does the sequence of nodes match at this state? *)
Fixpoint match_seq (ns : list node) (st : state) : bool :=
  match ns with
  | [] => true
  | n :: ns' => existsb (match_seq ns') (step n st)
  end.

Fixpoint search_from (ns : list node) (bol : bool) (rest : str) : bool :=
  match_seq ns (bol, rest)
  || match rest with
     | [] => false
     | _ :: r => search_from ns false r
     end.

(** [bool(re.search(pattern, s, re.IGNORECASE))] for a parsed pattern *)
Definition search (ns : list node) (s : str) : bool := search_from ns true s.
End Matching.

(** [re.sub('[' + cls + ']', repl, s)]: every character of the class is
    replaced. *)
Definition sub_class (cls repl s : str) : str :=
  flat_map (fun c => if mem c cls then repl else [c]) s.

End Re.

(** ** The data of the locator *)

(** A row of [song_line_words]: [{word_text, word_position}]. *)
Record word_record := {
  word_text : str;
  word_position : Z
}.

(** The class [[¿¡.,!?;:]] that [normalize_for_search] deletes. *)
Definition PUNCTUATION : str := [191; 161; 46; 44; 33; 63; 59; 58]%N.

(** ** [scripts/backfill_phrase_slang_occurrences.py] *)

Module Backfill.

Record normalized_word := {
  norm : str;
  original : str;
  position : Z
}.

Section Locator.
Context {U : Unicode}.

Definition normalize_text (text : str) : str :=
  let text := Py.strip isspace (lower text) in
  nfc text.

(** Both [replace] calls of the source have the ASCII apostrophe as their
    first argument. *)
Definition normalize_for_search (text : str) : str :=
  let text := normalize_text text in
  let text := Py.replace [APOSTROPHE] [] (Py.replace [APOSTROPHE] [] text) in
  Re.sub_class PUNCTUATION [] text.

(** The pattern is [(?:^|[^\w])] + escaped phrase + [(?:$|[^\w])]; the
    escaped phrase neither starts with a quantifier nor ends in a
    backslash, so the three pieces are parsed one by one. *)
Definition phrase_exists_in_line (line_text phrase_text : str) : result bool :=
  let line_lower := normalize_text line_text in
  let phrase_lower := normalize_text phrase_text in
  let escaped_phrase := Re.escape phrase_lower in
  let escaped_phrase :=
    Py.replace [BACKSLASH; APOSTROPHE] [APOSTROPHE; QUESTION] escaped_phrase in
  let escaped_phrase :=
    Py.replace [APOSTROPHE] [APOSTROPHE; QUESTION] escaped_phrase in
  body <- Re.parse escaped_phrase ;;
  let pattern :=
    Re.Branch Re.At_beginning Re.Not_word
      :: body ++ [Re.Branch Re.At_end Re.Not_word] in
  Ok (Re.search pattern line_lower).

(** [for w in normalized_words: if w['norm'] == target: return ...] *)
Fixpoint first_exact (target : str) (ws : list normalized_word)
  : option (Z * Z) :=
  match ws with
  | [] => None
  | w :: rest =>
      if str_eqb (norm w) target then Some (position w, position w)
      else first_exact target rest
  end.

(** The loop of lines 209-215: exact match, then the contraction test. *)
Fixpoint first_contraction (target : str) (ws : list normalized_word)
  : option (Z * Z) :=
  match ws with
  | [] => None
  | w :: rest =>
      if str_eqb (norm w) target then Some (position w, position w)
      else if str_eqb (Py.rstrip_chars [APOSTROPHE] target) (norm w)
              || str_eqb (Py.rstrip_chars [APOSTROPHE] (norm w)) target
      then Some (position w, position w)
      else first_contraction target rest
  end.

(** The inner loop, [for j, phrase_word in enumerate(phrase_words)], from
    index [j] on: it returns [match] and [positions]. *)
Fixpoint window (normalized_words : list normalized_word) (i j : nat)
    (phrase_words : list str) (positions : list Z)
  : result (bool * list Z) :=
  match phrase_words with
  | [] => Ok (true, positions)
  | phrase_word :: rest =>
      w <- Py.index normalized_words (i + j) ;;
      let line_word := norm w in
      if (List.length phrase_word <? 3)%nat then
        if negb (str_eqb line_word phrase_word) then Ok (false, positions)
        else window normalized_words i (S j) rest (positions ++ [position w])
      else
        if negb (str_eqb line_word phrase_word
                 || str_eqb (Py.rstrip_chars [APOSTROPHE] phrase_word) line_word
                 || str_eqb (Py.rstrip_chars [APOSTROPHE] line_word) phrase_word)
        then Ok (false, positions)
        else window normalized_words i (S j) rest (positions ++ [position w])
  end.

(** The outer loop, [for i in range(len(normalized_words))]. *)
Fixpoint scan (normalized_words : list normalized_word)
    (phrase_words : list str) (range : list nat)
  : result (option (Z * Z)) :=
  match range with
  | [] => Ok None
  | i :: range' =>
      if (List.length normalized_words <? i + List.length phrase_words)%nat
      then Ok None
      else
        r <- window normalized_words i 0 phrase_words [] ;;
        let '(matched, positions) := r in
        if matched && (List.length positions =? List.length phrase_words)%nat
        then
          lo <- Py.min positions ;;
          hi <- Py.max positions ;;
          Ok (Some (lo, hi))
        else scan normalized_words phrase_words range'
  end.

Definition normalized (line_words : list word_record) : list normalized_word :=
  map (fun w => {| norm := normalize_for_search (word_text w);
                   original := lower (word_text w);
                   position := word_position w |}) line_words.

Definition find_phrase_positions (line_text phrase_text : str)
    (line_words : list word_record) : result (option (Z * Z)) :=
  match line_words with
  | [] => Ok None
  | _ :: _ =>
      let phrase_lower := normalize_for_search phrase_text in
      let phrase_words := Py.split isspace phrase_lower in
      match phrase_words with
      | [] => Ok None
      | _ :: _ =>
          let normalized_words := normalized line_words in
          if (List.length phrase_words =? 1)%nat then
            target <- Py.index phrase_words 0 ;;
            if (List.length target <? 3)%nat then
              Ok (first_exact target normalized_words)
            else
              found <- phrase_exists_in_line line_text phrase_text ;;
              if negb found then Ok None
              else Ok (first_contraction target normalized_words)
          else
            found <- phrase_exists_in_line line_text phrase_text ;;
            if negb found then Ok None
            else scan normalized_words phrase_words
                   (seq 0 (List.length normalized_words))
      end
  end.
End Locator.

End Backfill.

(** ** [scripts/import_lyrics.py], phase 8 *)

Module ImportLyrics.

Record normalized_word := {
  norm : str;
  position : Z
}.

Section Locator.
Context {U : Unicode}.

Definition normalize_text_for_match (text : str) : str :=
  let text := Py.strip isspace (lower text) in
  nfc text.

Definition normalize_for_search (text : str) : str :=
  let text := normalize_text_for_match text in
  let text := Py.replace [APOSTROPHE] [] (Py.replace [APOSTROPHE] [] text) in
  Re.sub_class PUNCTUATION [] text.

Definition phrase_exists_in_line (line_text phrase_text : str) : result bool :=
  let line_lower := normalize_text_for_match line_text in
  let phrase_lower := normalize_text_for_match phrase_text in
  let escaped_phrase := Re.escape phrase_lower in
  let escaped_phrase :=
    Py.replace [BACKSLASH; APOSTROPHE] [APOSTROPHE; QUESTION] escaped_phrase in
  let escaped_phrase :=
    Py.replace [APOSTROPHE] [APOSTROPHE; QUESTION] escaped_phrase in
  body <- Re.parse escaped_phrase ;;
  let pattern :=
    Re.Branch Re.At_beginning Re.Not_word
      :: body ++ [Re.Branch Re.At_end Re.Not_word] in
  Ok (Re.search pattern line_lower).

Fixpoint first_exact (target : str) (ws : list normalized_word)
  : option (Z * Z) :=
  match ws with
  | [] => None
  | w :: rest =>
      if str_eqb (norm w) target then Some (position w, position w)
      else first_exact target rest
  end.

Fixpoint first_contraction (target : str) (ws : list normalized_word)
  : option (Z * Z) :=
  match ws with
  | [] => None
  | w :: rest =>
      if str_eqb (norm w) target then Some (position w, position w)
      else if str_eqb (Py.rstrip_chars [APOSTROPHE] target) (norm w)
              || str_eqb (Py.rstrip_chars [APOSTROPHE] (norm w)) target
      then Some (position w, position w)
      else first_contraction target rest
  end.

Fixpoint window (normalized_words : list normalized_word) (i j : nat)
    (phrase_words : list str) (positions : list Z)
  : result (bool * list Z) :=
  match phrase_words with
  | [] => Ok (true, positions)
  | phrase_word :: rest =>
      w <- Py.index normalized_words (i + j) ;;
      let line_word := norm w in
      if (List.length phrase_word <? 3)%nat then
        if negb (str_eqb line_word phrase_word) then Ok (false, positions)
        else window normalized_words i (S j) rest (positions ++ [position w])
      else
        if negb (str_eqb line_word phrase_word
                 || str_eqb (Py.rstrip_chars [APOSTROPHE] phrase_word) line_word
                 || str_eqb (Py.rstrip_chars [APOSTROPHE] line_word) phrase_word)
        then Ok (false, positions)
        else window normalized_words i (S j) rest (positions ++ [position w])
  end.

Fixpoint scan (normalized_words : list normalized_word)
    (phrase_words : list str) (range : list nat)
  : result (option (Z * Z)) :=
  match range with
  | [] => Ok None
  | i :: range' =>
      if (List.length normalized_words <? i + List.length phrase_words)%nat
      then Ok None
      else
        r <- window normalized_words i 0 phrase_words [] ;;
        let '(matched, positions) := r in
        if matched && (List.length positions =? List.length phrase_words)%nat
        then
          lo <- Py.min positions ;;
          hi <- Py.max positions ;;
          Ok (Some (lo, hi))
        else scan normalized_words phrase_words range'
  end.

Definition normalized (line_words : list word_record) : list normalized_word :=
  map (fun w => {| norm := normalize_for_search (word_text w);
                   position := word_position w |}) line_words.

Definition find_phrase_positions (line_text phrase_text : str)
    (line_words : list word_record) : result (option (Z * Z)) :=
  match line_words with
  | [] => Ok None
  | _ :: _ =>
      let phrase_lower := normalize_for_search phrase_text in
      let phrase_words := Py.split isspace phrase_lower in
      match phrase_words with
      | [] => Ok None
      | _ :: _ =>
          let normalized_words := normalized line_words in
          if (List.length phrase_words =? 1)%nat then
            target <- Py.index phrase_words 0 ;;
            if (List.length target <? 3)%nat then
              Ok (first_exact target normalized_words)
            else
              found <- phrase_exists_in_line line_text phrase_text ;;
              if negb found then Ok None
              else Ok (first_contraction target normalized_words)
          else
            found <- phrase_exists_in_line line_text phrase_text ;;
            if negb found then Ok None
            else scan normalized_words phrase_words
                   (seq 0 (List.length normalized_words))
      end
  end.
End Locator.

End ImportLyrics.

(** ** Python's tables on Latin-1

    What [str.lower], NFC, [str.isspace], [\w] and IGNORECASE do to the
    code points below 256. *)

Definition is_latin1 (c : char) : bool := (c <? 256)%N.

Definition lower1 (c : char) : char :=
  if ((65 <=? c) && (c <=? 90) || (192 <=? c) && (c <=? 214)
      || (216 <=? c) && (c <=? 222))%N
  then (c + 32)%N else c.

Definition isspace1 (c : char) : bool :=
  mem c [9; 10; 11; 12; 13; 28; 29; 30; 31; 32; 133; 160]%N.

Definition isword1 (c : char) : bool :=
  Re.ascii_alnum c || N.eqb c 95
  || mem c [170; 178; 179; 181; 185; 186; 188; 189; 190]%N
  || ((192 <=? c) && (c <=? 214) || (216 <=? c) && (c <=? 246)
      || (248 <=? c) && (c <=? 255))%N.

(** The tables of Python on Latin-1, continued trivially above it: a model
    of the runtime for lines and expressions written in Latin-1. *)
Definition latin1 : Unicode := {|
  lower := map lower1;
  nfc := fun s => s;
  isspace := isspace1;
  isword := isword1;
  icase_eq := fun p c => N.eqb (lower1 p) (lower1 c)
|}.

(** [U] behaves on Latin-1 text as Python does. *)
Record python_latin1 (U : Unicode) : Prop := {
  lower_latin1 : forall s, forallb is_latin1 s = true -> lower s = map lower1 s;
  nfc_latin1 : forall s, forallb is_latin1 s = true -> nfc s = s;
  isspace_latin1 : forall c, is_latin1 c = true -> isspace c = isspace1 c;
  isword_latin1 : forall c, is_latin1 c = true -> isword c = isword1 c;
  icase_latin1 : forall p c, is_latin1 p = true -> is_latin1 c = true ->
                   icase_eq p c = N.eqb (lower1 p) (lower1 c)
}.

Definition word (text : string) (pos : Z) : word_record :=
  {| word_text := lit text; word_position := pos |}.

(** ** What the locator computes, in closed form

    The loops of [find_phrase_positions] written as functions on the list of
    normalized words: used to state what the code returns. *)

Module Spec.
Import Backfill.

(** The test of one expression word against one normalized token, lines
    235-245 of the backfill script. *)
Definition word_match (phrase_word line_word : str) : bool :=
  if (List.length phrase_word <? 3)%nat then str_eqb line_word phrase_word
  else str_eqb line_word phrase_word
       || str_eqb (Py.rstrip_chars [APOSTROPHE] phrase_word) line_word
       || str_eqb (Py.rstrip_chars [APOSTROPHE] line_word) phrase_word.

(** Exact equality of normalized words. *)
Definition exact_match (phrase_word line_word : str) : bool :=
  str_eqb line_word phrase_word.

(** The window that starts the list [ws] matches the expression words. *)
Fixpoint all_match (test : str -> str -> bool) (phrase_words : list str)
    (ws : list normalized_word) : bool :=
  match phrase_words, ws with
  | [], _ => true
  | pw :: pws, w :: ws' => test pw (norm w) && all_match test pws ws'
  | _ :: _, [] => false
  end.

(** [(min(positions), max(positions))] *)
Definition span_of (positions : list Z) : option (Z * Z) :=
  match positions with
  | [] => None
  | p :: r => Some (fold_left Z.min r p, fold_left Z.max r p)
  end.

(** The positions of the first [k] tokens of [ws]. *)
Definition window_positions (k : nat) (ws : list normalized_word) : list Z :=
  map position (firstn k ws).

(** The span of the leftmost window of [ws] that matches. *)
Fixpoint leftmost (test : str -> str -> bool) (phrase_words : list str)
    (ws : list normalized_word) : option (Z * Z) :=
  match ws with
  | [] => None
  | _ :: rest =>
      if all_match test phrase_words ws
      then span_of (window_positions (List.length phrase_words) ws)
      else leftmost test phrase_words rest
  end.

(** The window of [phrase_words] that starts at index [i] matches. *)
Definition window_matches (phrase_words : list str)
    (ws : list normalized_word) (i : nat) : bool :=
  all_match word_match phrase_words (skipn i ws).

Section Exact.
Context {U : Unicode}.

(** The locator with exact normalized equality as its only token-level
    test: the same two stages, no contraction clause. *)
Definition find_exact (line_text phrase_text : str)
    (line_words : list word_record) : result (option (Z * Z)) :=
  match line_words with
  | [] => Ok None
  | _ :: _ =>
      match Py.split isspace (normalize_for_search phrase_text) with
      | [] => Ok None
      | [target] =>
          if (List.length target <? 3)%nat
          then Ok (first_exact target (normalized line_words))
          else
            found <- phrase_exists_in_line line_text phrase_text ;;
            Ok (if found then first_exact target (normalized line_words)
                else None)
      | phrase_words =>
          found <- phrase_exists_in_line line_text phrase_text ;;
          Ok (if found
              then leftmost exact_match phrase_words (normalized line_words)
              else None)
      end
  end.
End Exact.
End Spec.

(** ** The pattern of [phrase_exists_in_line], stage by stage

    What [re.escape] and the two [replace] calls make of a phrase, and the
    nodes the result is parsed into.  An apostrophe becomes an optional
    apostrophe; a backslash followed by an apostrophe becomes a lazy
    optional apostrophe (the first [replace] takes the second backslash of
    the escaped pair); every other character is a literal. *)

Module Pattern.

Definition esc (c : char) : str :=
  if mem c Re.special_chars then [BACKSLASH; c] else [c].

(** [re.escape(phrase).replace(r"\'", r"'?")] *)
Fixpoint after_first_replace (s : str) : str :=
  match s with
  | [] => []
  | c :: r =>
      if N.eqb c BACKSLASH then
        match r with
        | c' :: r' =>
            if N.eqb c' APOSTROPHE
            then [BACKSLASH; APOSTROPHE; QUESTION] ++ after_first_replace r'
            else [BACKSLASH; BACKSLASH] ++ after_first_replace r
        | [] => [BACKSLASH; BACKSLASH]
        end
      else esc c ++ after_first_replace r
  end.

(** [... .replace(r"'", r"'?")] *)
Fixpoint after_second_replace (s : str) : str :=
  match s with
  | [] => []
  | c :: r =>
      if N.eqb c BACKSLASH then
        match r with
        | c' :: r' =>
            if N.eqb c' APOSTROPHE
            then [BACKSLASH; APOSTROPHE; QUESTION; QUESTION]
                   ++ after_second_replace r'
            else [BACKSLASH; BACKSLASH] ++ after_second_replace r
        | [] => [BACKSLASH; BACKSLASH]
        end
      else if N.eqb c APOSTROPHE
      then [APOSTROPHE; QUESTION] ++ after_second_replace r
      else esc c ++ after_second_replace r
  end.

Fixpoint nodes_of (s : str) : list Re.node :=
  match s with
  | [] => []
  | c :: r =>
      if N.eqb c BACKSLASH then
        match r with
        | c' :: r' =>
            if N.eqb c' APOSTROPHE
            then Re.Optional true (Re.Literal APOSTROPHE) :: nodes_of r'
            else Re.Literal c :: nodes_of r
        | [] => [Re.Literal c]
        end
      else if N.eqb c APOSTROPHE
      then Re.Optional false (Re.Literal APOSTROPHE) :: nodes_of r
      else Re.Literal c :: nodes_of r
  end.

(** The whole pattern: the phrase between its two boundary groups. *)
Definition full (s : str) : list Re.node :=
  Re.Branch Re.At_beginning Re.Not_word
    :: nodes_of s ++ [Re.Branch Re.At_end Re.Not_word].

End Pattern.

(** ** The locator in closed form *)

Module Closed.
Import Backfill Spec.

Section Closed_form.
Context {U : Unicode}.

(** The coarse containment check as a boolean. *)
Definition coarse_check (line_text phrase_text : str) : bool :=
  Re.search (Pattern.full (normalize_text phrase_text))
    (normalize_text line_text).

(** The words of the normalized expression. *)
Definition expression_words (phrase_text : str) : list str :=
  Py.split isspace (normalize_for_search phrase_text).

(** What [find_phrase_positions] returns. *)
Definition locate (line_text phrase_text : str)
    (line_words : list word_record) : option (Z * Z) :=
  match line_words with
  | [] => None
  | _ :: _ =>
      match expression_words phrase_text with
      | [] => None
      | [target] =>
          if (List.length target <? 3)%nat
          then first_exact target (normalized line_words)
          else if coarse_check line_text phrase_text
          then first_contraction target (normalized line_words)
          else None
      | phrase_words =>
          if coarse_check line_text phrase_text
          then leftmost word_match phrase_words (normalized line_words)
          else None
      end
  end.
End Closed_form.
End Closed.

(** Text written in Latin-1. *)
Definition latin1_text (s : str) : bool := forallb is_latin1 s.

Definition latin1_words (line_words : list word_record) : bool :=
  forallb (fun w => latin1_text (word_text w)) line_words.

Fixpoint latin1_node (n : Re.node) : bool :=
  match n with
  | Re.Literal c => is_latin1 c
  | Re.Branch a b => latin1_node a && latin1_node b
  | Re.Optional _ m => latin1_node m
  | _ => true
  end.

(** ** The inputs of the spec's scenarios *)

Module Scenario.

Definition tener_tokens : list word_record :=
  [word "tener" 1; word "que" 2; word "ver" 3; word "con" 4;
   word "tener" 5; word "que" 6; word "ver" 7].

Definition tener_line : str := lit "tener que ver con tener que ver".

(** The same words with a comma the tokens do not carry. *)
Definition tener_line_comma : str := lit "tener, que ver con tener, que ver".

Definition la_tokens : list word_record := [word "la" 1; word "lava" 2].

Definition casar_line : str := lit "No voy a casar a nadie".

Definition casar_tokens : list word_record :=
  [word "No" 1; word "voy" 2; word "a" 3; word "casar" 4; word "a" 5;
   word "nadie" 6].

(** "Tú tienes que irte pa' la casa ahora"; 250 is u with acute accent. *)
Definition casa_line : str :=
  lit "T" ++ [250%N] ++ lit " tienes que irte pa' la casa ahora".

Definition casa_tokens : list word_record :=
  [{| word_text := lit "T" ++ [250%N]; word_position := 1 |};
   word "tienes" 2; word "que" 3; word "irte" 4; word "pa'" 5;
   word "la" 6; word "casa" 7; word "ahora" 8].

End Scenario.

(** ** The two copies side by side *)

(** A normalized word of the backfill script without its [original] field,
    which nothing reads: the normalized word of [import_lyrics.py]. *)
Definition forget (w : Backfill.normalized_word) : ImportLyrics.normalized_word :=
  {| ImportLyrics.norm := Backfill.norm w;
     ImportLyrics.position := Backfill.position w |}.

(** ** Delimited occurrence of an expression in a line

    The containment that the pattern of [phrase_exists_in_line] tests, said
    without a pattern: the phrase, each of its apostrophes present or not,
    stands in the line between the start of the line or a character that is
    not a word character, and the end of the line or such a character.
    Characters are compared as [re.IGNORECASE] compares them. *)

Module Occurrence.
Section Occurrence.
Context {U : Unicode}.

(** [optional_apostrophes phrase mid]: [mid] is [phrase] with some of its
    apostrophes left out. *)
Inductive optional_apostrophes : str -> str -> Prop :=
| oa_nil : optional_apostrophes [] []
| oa_char (c d : char) (p t : str) :
    c <> APOSTROPHE -> icase_eq c d = true ->
    optional_apostrophes p t -> optional_apostrophes (c :: p) (d :: t)
| oa_present (d : char) (p t : str) :
    icase_eq APOSTROPHE d = true ->
    optional_apostrophes p t -> optional_apostrophes (APOSTROPHE :: p) (d :: t)
| oa_absent (p t : str) :
    optional_apostrophes p t -> optional_apostrophes (APOSTROPHE :: p) t.

Definition boundary_before (pre : str) : Prop :=
  pre = [] \/ exists pre' c, pre = pre' ++ [c] /\ isword c = false.

Definition boundary_after (post : str) : Prop :=
  post = [] \/ exists c post', post = c :: post' /\ isword c = false.

Definition delimited_occurrence (line phrase : str) : Prop :=
  exists pre mid post,
    line = pre ++ mid ++ post
    /\ boundary_before pre /\ boundary_after post
    /\ optional_apostrophes phrase mid.

End Occurrence.
End Occurrence.

(** ** [process_song] of the backfill script

    The data base is reached through [get_song_phrases], [get_song_slang],
    [get_song_lines], [get_line_words], the two [get_existing_*] functions
    and [client.insert]; what they answer is the record [database], a Python
    pair [(success, data)] being a sum with the error message on the left.
    Every request made is logged, so that what the function asks for and
    writes can be stated.  A Python set is a list read through membership
    only. *)

Module Song.

(** A row of [phrases] ([phrase_id], [phrase_text]) or of [slang_terms]
    ([slang_id], [term]). *)
Record term := {
  term_id : str;
  term_text : str
}.

(** A row of [song_lines]; [line_text] may be null. *)
Record song_line := {
  line_id : str;
  line_text : option str;
  section_id : str
}.

(** A row written to one of the two occurrence tables. *)
Record occurrence := {
  occ_term_id : str;
  occ_line_id : str;
  occ_song_id : str;
  occ_section_id : str;
  start_position : Z;
  end_position : Z
}.

Inductive table := Phrase_occurrences | Slang_occurrences.

Inductive call :=
| Get_song_phrases (song_id : str)
| Get_song_slang (song_id : str)
| Get_song_lines (song_id : str)
| Get_existing_phrase_occurrences (song_id : str)
| Get_existing_slang_occurrences (song_id : str)
| Get_line_words (line : str)
| Insert (t : table) (records : list occurrence).

(** The data base, as the answers it gives: a request that fails gives its
    error message on the left.  Every request is answered, and the answer
    depends on the request only.  [get_existing_phrase_occurrences] and
    [get_existing_slang_occurrences] are the sets the two functions return:
    the pairs of the table when it could be read, the empty set when the
    read failed. *)
Record database := {
  get_song_phrases : str -> str + list term;
  get_song_slang : str -> str + list term;
  get_song_lines : str -> str + list song_line;
  get_line_words : str -> str + list word_record;
  get_existing_phrase_occurrences : str -> list (str * str);
  get_existing_slang_occurrences : str -> list (str * str);
  insert : table -> list occurrence -> str + unit
}.

Record stats := {
  title : str;
  phrase_occurrences : nat;
  slang_occurrences : nat;
  phrases_not_found : list str;
  slang_not_found : list str;
  errors : list str
}.

(** [x in s] for a set of strings and for a set of pairs of strings *)
Definition str_mem (x : str) (s : list str) : bool := existsb (str_eqb x) s.

Definition pair_mem (p : str * str) (s : list (str * str)) : bool :=
  existsb (fun q => str_eqb (fst p) (fst q) && str_eqb (snd p) (snd q)) s.

(** What the loop over the lines carries. *)
Record loop_state := {
  loop_errors : list str;
  phrases_found : list str;
  slang_found : list str;
  phrase_records : list occurrence;
  slang_records : list occurrence;
  loop_calls : list call
}.

Section Process.
Context {U : Unicode}.
Variable db : database.

(** The loop over the phrases of a song, and the loop over its slang terms,
    for one line: [found] and [records] are the set and the list they add
    to. *)
Fixpoint check_terms (song_id : str) (line : song_line) (text : str)
    (line_words : list word_record) (existing : list (str * str))
    (terms : list term) (found : list str) (records : list occurrence)
  : result (list str * list occurrence) :=
  match terms with
  | [] => Ok (found, records)
  | t :: rest =>
      if pair_mem (term_id t, line_id line) existing then
        check_terms song_id line text line_words existing rest
          (term_id t :: found) records
      else
        positions <-
          Backfill.find_phrase_positions text (term_text t) line_words ;;
        match positions with
        | Some (start_pos, end_pos) =>
            check_terms song_id line text line_words existing rest
              (term_id t :: found)
              (records ++ [{| occ_term_id := term_id t;
                              occ_line_id := line_id line;
                              occ_song_id := song_id;
                              occ_section_id := section_id line;
                              start_position := start_pos;
                              end_position := end_pos |}])
        | None =>
            check_terms song_id line text line_words existing rest
              found records
        end
  end.

(** [for line in lines: ...] *)
Fixpoint scan_lines (song_id : str) (phrases slang_terms : list term)
    (existing_phrase_occs existing_slang_occs : list (str * str))
    (lines : list song_line) (st : loop_state) : result loop_state :=
  match lines with
  | [] => Ok st
  | line :: rest =>
      match line_text line with
      | None | Some [] =>
          scan_lines song_id phrases slang_terms existing_phrase_occs
            existing_slang_occs rest st
      | Some text =>
          let calls := loop_calls st ++ [Get_line_words (line_id line)] in
          match get_line_words db (line_id line) with
          | inl message =>
              scan_lines song_id phrases slang_terms existing_phrase_occs
                existing_slang_occs rest
                {| loop_errors :=
                     loop_errors st
                     ++ [lit "Failed to get words for line: " ++ message];
                   phrases_found := phrases_found st;
                   slang_found := slang_found st;
                   phrase_records := phrase_records st;
                   slang_records := slang_records st;
                   loop_calls := calls |}
          | inr line_words =>
              p <- check_terms song_id line text line_words
                     existing_phrase_occs phrases
                     (phrases_found st) (phrase_records st) ;;
              s <- check_terms song_id line text line_words
                     existing_slang_occs slang_terms
                     (slang_found st) (slang_records st) ;;
              scan_lines song_id phrases slang_terms existing_phrase_occs
                existing_slang_occs rest
                {| loop_errors := loop_errors st;
                   phrases_found := fst p;
                   slang_found := fst s;
                   phrase_records := snd p;
                   slang_records := snd s;
                   loop_calls := calls |}
          end
      end
  end.

(** [[t[text] for t in terms if t[id] not in found]] *)
Definition not_found (terms : list term) (found : list str) : list str :=
  map term_text (filter (fun t => negb (str_mem (term_id t) found)) terms).

(** The insertion of one batch: nothing is sent when there is no record;
    the count is the number of records when the insertion succeeds. *)
Definition insert_records (t : table) (what : string)
    (records : list occurrence) (errs : list str) (calls : list call)
  : nat * list str * list call :=
  match records with
  | [] => (0%nat, errs, calls)
  | _ :: _ =>
      match insert db t records with
      | inr _ => (List.length records, errs, calls ++ [Insert t records])
      | inl message =>
          (0%nat, errs ++ [lit what ++ message], calls ++ [Insert t records])
      end
  end.

Definition failed (song_title : str) (message : str) : stats :=
  {| title := song_title; phrase_occurrences := 0; slang_occurrences := 0;
     phrases_not_found := []; slang_not_found := []; errors := [message] |}.

Definition process_song (song_id song_title : str) : result (stats * list call) :=
  match get_song_phrases db song_id with
  | inl message =>
      Ok (failed song_title (lit "Failed to get phrases: " ++ message),
          [Get_song_phrases song_id])
  | inr phrases =>
  match get_song_slang db song_id with
  | inl message =>
      Ok (failed song_title (lit "Failed to get slang: " ++ message),
          [Get_song_phrases song_id; Get_song_slang song_id])
  | inr slang_terms =>
  match get_song_lines db song_id with
  | inl message =>
      Ok (failed song_title (lit "Failed to get lines: " ++ message),
          [Get_song_phrases song_id; Get_song_slang song_id;
           Get_song_lines song_id])
  | inr [] =>
      Ok ({| title := song_title; phrase_occurrences := 0;
             slang_occurrences := 0; phrases_not_found := [];
             slang_not_found := []; errors := [] |},
          [Get_song_phrases song_id; Get_song_slang song_id;
           Get_song_lines song_id])
  | inr lines =>
      let existing_phrase_occs := get_existing_phrase_occurrences db song_id in
      let existing_slang_occs := get_existing_slang_occurrences db song_id in
      st <- scan_lines song_id phrases slang_terms existing_phrase_occs
              existing_slang_occs lines
              {| loop_errors := []; phrases_found := []; slang_found := [];
                 phrase_records := []; slang_records := [];
                 loop_calls :=
                   [Get_song_phrases song_id; Get_song_slang song_id;
                    Get_song_lines song_id;
                    Get_existing_phrase_occurrences song_id;
                    Get_existing_slang_occurrences song_id] |} ;;
      let '(phrase_count, errs, calls) :=
        insert_records Phrase_occurrences
          "Failed to insert phrase occurrences: "
          (phrase_records st) (loop_errors st) (loop_calls st) in
      let '(slang_count, errs, calls) :=
        insert_records Slang_occurrences
          "Failed to insert slang occurrences: "
          (slang_records st) errs calls in
      Ok ({| title := song_title;
             phrase_occurrences := phrase_count;
             slang_occurrences := slang_count;
             phrases_not_found := not_found phrases (phrases_found st);
             slang_not_found := not_found slang_terms (slang_found st);
             errors := errs |},
          calls)
  end end end.

(** *** The loops in closed form *)

Definition has_text (line : song_line) : bool :=
  match line_text line with
  | Some (_ :: _) => true
  | _ => false
  end.

(** The text and the words of a line the loop works on: a line with a text
    whose words could be fetched. *)
Definition usable (line : song_line) : option (str * list word_record) :=
  match line_text line with
  | Some (c :: text) =>
      match get_line_words db (line_id line) with
      | inr line_words => Some (c :: text, line_words)
      | inl _ => None
      end
  | _ => None
  end.

Definition record_of (song_id : str) (line : song_line) (t : term)
    (span : Z * Z) : occurrence :=
  {| occ_term_id := term_id t;
     occ_line_id := line_id line;
     occ_song_id := song_id;
     occ_section_id := section_id line;
     start_position := fst span;
     end_position := snd span |}.

(** The records one line adds for a list of terms. *)
Definition line_records (song_id : str) (existing : list (str * str))
    (line : song_line) (text : str) (line_words : list word_record)
    (terms : list term) : list occurrence :=
  flat_map
    (fun t =>
       if pair_mem (term_id t, line_id line) existing then []
       else match Closed.locate text (term_text t) line_words with
            | Some span => [record_of song_id line t span]
            | None => []
            end)
    terms.

(** The term is counted as found on this line. *)
Definition hit (existing : list (str * str)) (line : song_line) (text : str)
    (line_words : list word_record) (t : term) : bool :=
  pair_mem (term_id t, line_id line) existing
  || match Closed.locate text (term_text t) line_words with
     | Some _ => true
     | None => false
     end.

Definition song_records (song_id : str) (existing : list (str * str))
    (terms : list term) (lines : list song_line) : list occurrence :=
  flat_map
    (fun line =>
       match usable line with
       | Some (text, line_words) =>
           line_records song_id existing line text line_words terms
       | None => []
       end)
    lines.

Definition song_hits (existing : list (str * str)) (terms : list term)
    (lines : list song_line) : list str :=
  flat_map
    (fun line =>
       match usable line with
       | Some (text, line_words) =>
           rev (map term_id (filter (hit existing line text line_words) terms))
       | None => []
       end)
    (rev lines).

Definition words_errors (lines : list song_line) : list str :=
  flat_map
    (fun line =>
       if has_text line then
         match get_line_words db (line_id line) with
         | inl message => [lit "Failed to get words for line: " ++ message]
         | inr _ => []
         end
       else [])
    lines.

Definition words_calls (lines : list song_line) : list call :=
  map (fun line => Get_line_words (line_id line)) (filter has_text lines).

(** The request a batch of records gives rise to, the count it adds to the
    statistics and the error it may leave. *)
Definition batch (t : table) (records : list occurrence) : list call :=
  match records with
  | [] => []
  | _ :: _ => [Insert t records]
  end.

Definition inserted (t : table) (records : list occurrence) : nat :=
  match records with
  | [] => 0%nat
  | _ :: _ =>
      match insert db t records with
      | inr _ => List.length records
      | inl _ => 0%nat
      end
  end.

Definition insert_errors (t : table) (what : string)
    (records : list occurrence) : list str :=
  match records with
  | [] => []
  | _ :: _ =>
      match insert db t records with
      | inr _ => []
      | inl message => [lit what ++ message]
      end
  end.

(** The terms and the existing occurrences that go with a table. *)
Definition terms_for (t : table) (song_id : str) : str + list term :=
  match t with
  | Phrase_occurrences => get_song_phrases db song_id
  | Slang_occurrences => get_song_slang db song_id
  end.

Definition existing_for (t : table) (song_id : str) : list (str * str) :=
  match t with
  | Phrase_occurrences => get_existing_phrase_occurrences db song_id
  | Slang_occurrences => get_existing_slang_occurrences db song_id
  end.

(** The run stops before the lines are scanned: a read failed, or the song
    has no line. *)
Definition stopped_early (song_id : str) : Prop :=
  (exists m, get_song_phrases db song_id = inl m)
  \/ (exists m, get_song_slang db song_id = inl m)
  \/ (exists m, get_song_lines db song_id = inl m)
  \/ get_song_lines db song_id = inr [].

End Process.

(** The count and the not-found list of the statistics that go with a
    table. *)
Definition count_for (t : table) (st : stats) : nat :=
  match t with
  | Phrase_occurrences => phrase_occurrences st
  | Slang_occurrences => slang_occurrences st
  end.

Definition not_found_for (t : table) (st : stats) : list str :=
  match t with
  | Phrase_occurrences => phrases_not_found st
  | Slang_occurrences => slang_not_found st
  end.

(** The request writes to the table [t]. *)
Definition is_insert (t : table) (c : call) : bool :=
  match c, t with
  | Insert Phrase_occurrences _, Phrase_occurrences => true
  | Insert Slang_occurrences _, Slang_occurrences => true
  | _, _ => false
  end.

End Song.

(** ** [detect_occurrences_for_song] of [import_lyrics.py]

    The same rows and requests as in [Song]; the lines are an argument, a
    failure to read the words of a line gives the empty list, and the run
    stops at the first insertion that fails. *)

Module Detect.

Record database := {
  get_song_phrases_for_detection : str -> str + list Song.term;
  get_song_slang_for_detection : str -> str + list Song.term;
  get_line_words_for_detection : str -> list word_record;
  insert : Song.table -> list Song.occurrence -> str + unit
}.

Record stats := {
  title : str;
  phrase_occurrences : nat;
  slang_occurrences : nat;
  error : option str
}.

Section Detection.
Context {U : Unicode}.
Variable db : database.

(** [for phrase in phrases: ...] and [for slang in slang_terms: ...] for one
    line *)
Fixpoint check_terms (song_id : str) (line : Song.song_line) (text : str)
    (line_words : list word_record) (terms : list Song.term)
    (records : list Song.occurrence) : result (list Song.occurrence) :=
  match terms with
  | [] => Ok records
  | t :: rest =>
      positions <-
        ImportLyrics.find_phrase_positions text (Song.term_text t) line_words ;;
      match positions with
      | Some (start_pos, end_pos) =>
          check_terms song_id line text line_words rest
            (records ++ [{| Song.occ_term_id := Song.term_id t;
                            Song.occ_line_id := Song.line_id line;
                            Song.occ_song_id := song_id;
                            Song.occ_section_id := Song.section_id line;
                            Song.start_position := start_pos;
                            Song.end_position := end_pos |}])
      | None => check_terms song_id line text line_words rest records
      end
  end.

(** [for line in lines: ...]: the phrase records, the slang records and the
    requests made *)
Fixpoint scan_lines (song_id : str) (phrases slang_terms : list Song.term)
    (lines : list Song.song_line)
    (phrase_records slang_records : list Song.occurrence)
    (calls : list Song.call)
  : result (list Song.occurrence * list Song.occurrence * list Song.call) :=
  match lines with
  | [] => Ok (phrase_records, slang_records, calls)
  | line :: rest =>
      match Song.line_text line with
      | None | Some [] =>
          scan_lines song_id phrases slang_terms rest phrase_records
            slang_records calls
      | Some text =>
          let line_words := get_line_words_for_detection db (Song.line_id line) in
          p <- check_terms song_id line text line_words phrases phrase_records ;;
          s <- check_terms song_id line text line_words slang_terms
                 slang_records ;;
          scan_lines song_id phrases slang_terms rest p s
            (calls ++ [Song.Get_line_words (Song.line_id line)])
      end
  end.

Definition detect_occurrences_for_song (song_id song_title : str)
    (lines : list Song.song_line) : result (stats * list Song.call) :=
  match get_song_phrases_for_detection db song_id with
  | inl message =>
      Ok ({| title := song_title; phrase_occurrences := 0;
             slang_occurrences := 0;
             error := Some (lit "Failed to get phrases: " ++ message) |},
          [Song.Get_song_phrases song_id])
  | inr phrases =>
  match get_song_slang_for_detection db song_id with
  | inl message =>
      Ok ({| title := song_title; phrase_occurrences := 0;
             slang_occurrences := 0;
             error := Some (lit "Failed to get slang: " ++ message) |},
          [Song.Get_song_phrases song_id; Song.Get_song_slang song_id])
  | inr slang_terms =>
      r <- scan_lines song_id phrases slang_terms lines [] []
             [Song.Get_song_phrases song_id; Song.Get_song_slang song_id] ;;
      let '(phrase_records, slang_records, calls) := r in
      let phrase_step :=
        match phrase_records with
        | [] => inr (0%nat, calls)
        | _ :: _ =>
            match insert db Song.Phrase_occurrences phrase_records with
            | inr _ =>
                inr (List.length phrase_records,
                     calls ++ [Song.Insert Song.Phrase_occurrences
                                 phrase_records])
            | inl message =>
                inl (lit "Failed to insert phrase occurrences: " ++ message,
                     calls ++ [Song.Insert Song.Phrase_occurrences
                                 phrase_records])
            end
        end in
      match phrase_step with
      | inl (message, calls) =>
          Ok ({| title := song_title; phrase_occurrences := 0;
                 slang_occurrences := 0; error := Some message |}, calls)
      | inr (phrase_count, calls) =>
          match slang_records with
          | [] =>
              Ok ({| title := song_title; phrase_occurrences := phrase_count;
                     slang_occurrences := 0; error := None |}, calls)
          | _ :: _ =>
              match insert db Song.Slang_occurrences slang_records with
              | inr _ =>
                  Ok ({| title := song_title;
                         phrase_occurrences := phrase_count;
                         slang_occurrences := List.length slang_records;
                         error := None |},
                      calls ++ [Song.Insert Song.Slang_occurrences
                                  slang_records])
              | inl message =>
                  Ok ({| title := song_title;
                         phrase_occurrences := phrase_count;
                         slang_occurrences := 0;
                         error :=
                           Some (lit "Failed to insert slang occurrences: "
                                 ++ message) |},
                      calls ++ [Song.Insert Song.Slang_occurrences
                                  slang_records])
              end
          end
      end
  end end.

(** The records one line adds for a list of terms. *)
Definition line_records (song_id : str) (line : Song.song_line)
    (text : str) (line_words : list word_record) (terms : list Song.term)
  : list Song.occurrence :=
  flat_map
    (fun t =>
       match Closed.locate text (Song.term_text t) line_words with
       | Some span => [Song.record_of song_id line t span]
       | None => []
       end)
    terms.

(** The message of the insertion of the phrase records, when it fails. *)
Definition phrase_failure (records : list Song.occurrence) : option str :=
  match records with
  | [] => None
  | _ :: _ =>
      match insert db Song.Phrase_occurrences records with
      | inl message => Some message
      | inr _ => None
      end
  end.

Definition slang_failure (records : list Song.occurrence) : option str :=
  match records with
  | [] => None
  | _ :: _ =>
      match insert db Song.Slang_occurrences records with
      | inl message => Some message
      | inr _ => None
      end
  end.

(** The records of a list of terms over the lines, in closed form. *)
Definition song_records (song_id : str) (terms : list Song.term)
    (lines : list Song.song_line) : list Song.occurrence :=
  flat_map
    (fun line =>
       match Song.line_text line with
       | Some (c :: text) =>
           flat_map
             (fun t =>
                match Closed.locate (c :: text) (Song.term_text t)
                        (get_line_words_for_detection db (Song.line_id line))
                with
                | Some span => [Song.record_of song_id line t span]
                | None => []
                end)
             terms
       | _ => []
       end)
    lines.

End Detection.

(** The terms that go with a table. *)
Definition terms_for (db : database) (t : Song.table) (song_id : str)
  : str + list Song.term :=
  match t with
  | Song.Phrase_occurrences => get_song_phrases_for_detection db song_id
  | Song.Slang_occurrences => get_song_slang_for_detection db song_id
  end.

(** The data base of [process_song] as [detect_occurrences_for_song] reads
    it: the same answers, a failed read of the words of a line being the
    empty list. *)
Definition of_song (db : Song.database) : database :=
  {| get_song_phrases_for_detection := Song.get_song_phrases db;
     get_song_slang_for_detection := Song.get_song_slang db;
     get_line_words_for_detection :=
       fun l => match Song.get_line_words db l with
                | inr line_words => line_words
                | inl _ => []
                end;
     insert := Song.insert db |}.

End Detect.

(** ** The loop over the songs in [main] of the backfill script *)

Module Main.

Record totals := {
  songs_processed : nat;
  total_phrase_occurrences : nat;
  total_slang_occurrences : nat;
  all_phrases_not_found : list str;
  all_slang_not_found : list str;
  errors : list str
}.

Definition initial : totals :=
  {| songs_processed := 0; total_phrase_occurrences := 0;
     total_slang_occurrences := 0; all_phrases_not_found := [];
     all_slang_not_found := []; errors := [] |}.

(** [for p in found: if p not in all: all.append(p)] *)
Fixpoint add_new (all found : list str) : list str :=
  match found with
  | [] => all
  | p :: rest =>
      add_new (if Song.str_mem p all then all else all ++ [p]) rest
  end.

(** What one song adds to the totals. *)
Definition add_song (t : totals) (st : Song.stats) : totals :=
  {| songs_processed := songs_processed t + 1;
     total_phrase_occurrences :=
       total_phrase_occurrences t + Song.phrase_occurrences st;
     total_slang_occurrences :=
       total_slang_occurrences t + Song.slang_occurrences st;
     all_phrases_not_found :=
       add_new (all_phrases_not_found t) (Song.phrases_not_found st);
     all_slang_not_found :=
       add_new (all_slang_not_found t) (Song.slang_not_found st);
     errors := errors t ++ Song.errors st |}.

Section Loop.
Context {U : Unicode}.
Variable db : Song.database.

(** [for i, song in enumerate(songs, 1): ...], a song being its identifier
    and its title *)
Fixpoint process_songs (songs : list (str * str)) (t : totals)
    (calls : list Song.call) : result (totals * list Song.call) :=
  match songs with
  | [] => Ok (t, calls)
  | (song_id, song_title) :: rest =>
      r <- Song.process_song db song_id song_title ;;
      process_songs rest (add_song t (fst r)) (calls ++ snd r)
  end.

End Loop.
End Main.

(** ** The two loops of [detect_occurrences] of [import_lyrics.py]

    The grouping of the lines by song and the loop over the songs, each as
    the source has it.  [detect_occurrences] itself, with the reads and the
    call that come before the two loops, is [Detection.detect_occurrences]
    below. *)

Module Driver.

(** A line as [get_learnable_lines_with_songs] returns it; [song_id] is
    [None] when the section of the line is not known. *)
Record learnable_line := {
  song_id : option str;
  line : Song.song_line
}.

Definition key_eqb (a b : option str) : bool :=
  match a, b with
  | Some x, Some y => str_eqb x y
  | None, None => true
  | _, _ => false
  end.

(** The dictionary [songs_lines], as the list of its items. *)
Definition songs_lines := list (option str * list Song.song_line).

Fixpoint has_key (k : option str) (d : songs_lines) : bool :=
  match d with
  | [] => false
  | (k', _) :: rest => key_eqb k k' || has_key k rest
  end.

(** [d[k].append(x)] *)
Fixpoint append_to (k : option str) (x : Song.song_line) (d : songs_lines)
  : songs_lines :=
  match d with
  | [] => []
  | (k', v) :: rest =>
      if key_eqb k k' then (k', v ++ [x]) :: rest
      else (k', v) :: append_to k x rest
  end.

(** [d.get(k, [])] *)
Fixpoint get (k : option str) (d : songs_lines) : list Song.song_line :=
  match d with
  | [] => []
  | (k', v) :: rest => if key_eqb k k' then v else get k rest
  end.

(** [for line in all_lines: ...]: the lines grouped by song *)
Fixpoint group (all_lines : list learnable_line) (d : songs_lines)
  : songs_lines :=
  match all_lines with
  | [] => d
  | l :: rest =>
      let d := if has_key (song_id l) d then d else d ++ [(song_id l, [])] in
      group rest (append_to (song_id l) (line l) d)
  end.

Record results := {
  songs_processed : nat;
  songs_skipped : nat;
  phrase_occurrences : nat;
  slang_occurrences : nat;
  errors : list str
}.

Definition initial : results :=
  {| songs_processed := 0; songs_skipped := 0; phrase_occurrences := 0;
     slang_occurrences := 0; errors := [] |}.

Definition skip (r : results) : results :=
  {| songs_processed := songs_processed r;
     songs_skipped := songs_skipped r + 1;
     phrase_occurrences := phrase_occurrences r;
     slang_occurrences := slang_occurrences r;
     errors := errors r |}.

(** The request [c] is for the song [id] and its [lines]: a read of its
    phrases or of its slang terms, a read of the words of one of its lines,
    or a write of records that are all of the song. *)
Definition request_of (id : str) (lines : list Song.song_line)
    (c : Song.call) : Prop :=
  match c with
  | Song.Get_song_phrases i | Song.Get_song_slang i => i = id
  | Song.Get_line_words l =>
      exists line, In line lines /\ Song.line_id line = l
  | Song.Insert _ recs =>
      recs <> [] /\ forall rec, In rec recs -> Song.occ_song_id rec = id
  | _ => False
  end.

Section Loop.
Context {U : Unicode}.
Variable db : Detect.database.

(** [for song in songs: ...], a song being its identifier and its title *)
Fixpoint detect_songs (completed_songs : list str) (d : songs_lines)
    (songs : list (str * str)) (r : results) (calls : list Song.call)
  : result (results * list Song.call) :=
  match songs with
  | [] => Ok (r, calls)
  | (id, song_title) :: rest =>
      if Song.str_mem id completed_songs then
        detect_songs completed_songs d rest (skip r) calls
      else
        match get (Some id) d with
        | [] => detect_songs completed_songs d rest (skip r) calls
        | lines =>
            s <- Detect.detect_occurrences_for_song db id song_title lines ;;
            let '(stats, made) := s in
            match Detect.error stats with
            | Some (c :: message) =>
                detect_songs completed_songs d rest
                  {| songs_processed := songs_processed r;
                     songs_skipped := songs_skipped r;
                     phrase_occurrences := phrase_occurrences r;
                     slang_occurrences := slang_occurrences r;
                     errors :=
                       errors r ++ [song_title ++ lit ": " ++ c :: message] |}
                  (calls ++ made)
            | Some [] | None =>
                detect_songs completed_songs d rest
                  {| songs_processed := songs_processed r + 1;
                     songs_skipped := songs_skipped r;
                     phrase_occurrences :=
                       phrase_occurrences r + Detect.phrase_occurrences stats;
                     slang_occurrences :=
                       slang_occurrences r + Detect.slang_occurrences stats;
                     errors := errors r |}
                  (calls ++ made)
            end
        end
  end.

End Loop.
End Driver.

(** ** The gender of a noun: [guess_gender_by_ending] and
    [format_lemma_text] of [import_lyrics.py] *)

Module Gender.

(** [s.endswith(suffix)] and [s.endswith((suffix, ...))] *)
Definition endswith (suffix s : str) : bool :=
  Py.startswith (rev suffix) (rev s).

Definition endswith_any (suffixes : list str) (s : str) : bool :=
  existsb (fun suffix => endswith suffix s) suffixes.

Definition O_ACUTE : char := 243%N.

Definition greek_ma_words : list str :=
  [lit "problema"; lit "sistema"; lit "tema"; lit "clima"; lit "idioma";
   lit "programa"; lit "telegrama"; lit "diagrama"; lit "drama";
   lit "trauma"; lit "panorama"; lit "poema"].

Definition feminine_endings : list str :=
  [lit "ci" ++ [O_ACUTE] ++ lit "n"; lit "si" ++ [O_ACUTE] ++ lit "n";
   lit "dad"; lit "tad"; lit "tud"; lit "umbre"; lit "ie"; lit "eza"].

Definition guess_gender_by_ending {U : Unicode} (noun : str) : str :=
  let noun_lower := lower noun in
  if Song.str_mem noun_lower greek_ma_words then lit "M"
  else if endswith_any feminine_endings noun_lower then lit "F"
  else if endswith (lit "a") noun_lower then
    if endswith (lit "ma") noun_lower && (3 <? List.length noun_lower)%nat
    then lit "M"
    else lit "F"
  else if endswith_any [lit "o"; lit "or"; lit "aje"] noun_lower then lit "M"
  else if endswith (O_ACUTE :: lit "n") noun_lower then lit "M"
  else if endswith (lit "d") noun_lower then lit "F"
  else lit "M".

(** [gender] is [None] when nothing is known. *)
Definition format_lemma_text (lemma pos : str) (gender : option str) : str :=
  if str_eqb pos (lit "NOUN") || str_eqb pos (lit "PROPN") then
    match gender with
    | Some g =>
        if str_eqb g (lit "Fem") || str_eqb g (lit "F")
        then lit "la " ++ lemma
        else lit "el " ++ lemma
    | None => lit "el " ++ lemma
    end
  else lemma.

(** The endings that decide the guess. *)
Definition deciding_endings : list str :=
  [lit "ci" ++ [O_ACUTE] ++ lit "n"; lit "si" ++ [O_ACUTE] ++ lit "n";
   lit "umbre"; lit "ie"; lit "a"; lit "d"].

End Gender.

(** ** Lines that are only sung syllables: [is_vocalization_line] and
    [flag_skippable_lines] of [import_lyrics.py] *)

Module Vocalization.

Definition VOCALIZATION_SYLLABLES : list str :=
  [lit "eh"; lit "oh"; lit "ah"; lit "uh"; lit "yeh"; lit "yeah"; lit "la";
   lit "na"; lit "da"; lit "ra"; lit "ve"; lit "pa"; lit "ta"; lit "ba";
   lit "ma"; lit "wa"; lit "ya"; lit "hey"; lit "ay"; lit "ey"; lit "ooh";
   lit "aah"; lit "uuh"; lit "hmm"; lit "mmm"; lit "mm"; lit "shh";
   lit "ssh"].

Definition STANDALONE_INTERJECTIONS : list str :=
  [lit "shh"; lit "hmm"; lit "uh"; lit "ah"; lit "oh"; lit "eh"; lit "mmm";
   lit "ooh"; lit "aah"; lit "hey"; lit "ay"; lit "ey"; lit "yeah";
   lit "yeh"; lit "woo"; lit "woo-hoo"; lit "woohoo"].

(** The characters of the class that [re.sub] deletes: comma, full stop,
    apostrophe, double quote, the two exclamation and the two question
    marks, and the round, square and curly brackets. *)
Definition REMOVED : str :=
  [44; 46; 39; 34; 33; 63; 191; 161; 40; 41; 91; 93; 123; 125]%N.

Definition HYPHEN : char := 45%N.

(** [re.sub(r'[...]', '', s)] for a class of characters *)
Definition sub_class (class : char -> bool) (s : str) : str :=
  filter (fun c => negb (class c)) s.

(** [re.split(r'[...]+', s)]: the pieces between the maximal runs of
    characters of the class; the first and the last piece may be empty.
    [split_run] returns the first piece and the pieces after it. *)
Fixpoint split_run (class : char -> bool) (s : str) : str * list str :=
  match s with
  | [] => ([], [])
  | c :: r =>
      let '(w, ws) := split_run class r in
      if class c then
        match r with
        | [] => ([], [[]])
        | c' :: _ => if class c' then ([], ws) else ([], w :: ws)
        end
      else (c :: w, ws)
  end.

Definition split (class : char -> bool) (s : str) : list str :=
  let '(w, ws) := split_run class s in w :: ws.

Definition nonempty (p : str) : bool :=
  match p with [] => false | _ :: _ => true end.

Section Vocalization.
Context {U : Unicode}.

(** [[\s\-]] *)
Definition separator (c : char) : bool := isspace c || N.eqb c HYPHEN.

(** [part in VOCALIZATION_SYLLABLES or (len(part) <= 6 and any(part == syl * 2
    or part == syl * 3 for syl in VOCALIZATION_SYLLABLES))] *)
Definition vocal (part : str) : bool :=
  Song.str_mem part VOCALIZATION_SYLLABLES
  || ((List.length part <=? 6)%nat
      && existsb (fun syl => str_eqb part (syl ++ syl)
                             || str_eqb part (syl ++ syl ++ syl))
           VOCALIZATION_SYLLABLES).

(** [cleaned], for a text that is not empty *)
Definition cleaned_of (line_text : str) : str :=
  let text := lower (Py.strip isspace line_text) in
  Py.strip isspace (sub_class (fun c => mem c REMOVED) text).

(** [parts] *)
Definition parts_of (cleaned : str) : list str :=
  filter nonempty (split separator cleaned).

(** [set(parts)], in the order of the first occurrences *)
Definition unique (parts : list str) : list str := Main.add_new [] parts.

(** [line_text] is [None] for a null column. *)
Definition is_vocalization_line (line_text : option str) : bool :=
  match line_text with
  | None | Some [] => true
  | Some line_text =>
      match lower (Py.strip isspace line_text) with
      | [] => true
      | _ :: _ =>
          match cleaned_of line_text with
          | [] => true
          | cleaned =>
              if Song.str_mem cleaned STANDALONE_INTERJECTIONS then true
              else
                match parts_of cleaned with
                | [] => true
                | (first :: _) as parts =>
                    if forallb vocal parts then true
                    else if (3 <=? List.length parts)%nat
                            && (List.length (unique parts) =? 1)%nat
                            && Song.str_mem first VOCALIZATION_SYLLABLES
                    then true
                    else false
                end
          end
      end
  end.

End Vocalization.

(** A row of [song_lines] as [get_all_lines] reads it; [is_skippable] is
    used through its truth value only. *)
Record line := {
  line_id : str;
  line_text : option str;
  is_skippable : bool
}.

(** The dictionary [flag_skippable_lines] returns; the keys [newly_flagged]
    and [errors] are missing when no line is a vocalization. *)
Record summary := {
  flagged : Z;
  newly_flagged : option Z;
  learnable : Z;
  flagged_lines : list (option str);
  errors : option (list (str * str))
}.

Section Flagging.
Context {U : Unicode}.

(** [client.update('song_lines', {'is_skippable': True}, {'line_id': _})]:
    the error message on the left *)
Variable update : str -> str + unit.

(** [for line in to_flag: ...]: the count, the errors and the lines for
    which an update was sent *)
Fixpoint update_lines (to_flag : list line) (flagged_count : Z)
    (errs : list (str * str)) (sent : list str)
  : Z * list (str * str) * list str :=
  match to_flag with
  | [] => (flagged_count, errs, sent)
  | l :: rest =>
      if negb (is_skippable l) then
        match update (line_id l) with
        | inr _ =>
            update_lines rest (flagged_count + 1)%Z errs (sent ++ [line_id l])
        | inl msg =>
            update_lines rest flagged_count (errs ++ [(line_id l, msg)])
              (sent ++ [line_id l])
        end
      else update_lines rest (flagged_count + 1)%Z errs sent
  end.

(** [flag_skippable_lines] after its read of the lines: the summary and the
    lines for which an update was sent. *)
Definition flag_skippable_lines (lines : list line) : summary * list str :=
  let total_lines := Z.of_nat (List.length lines) in
  let to_flag := filter (fun l => is_vocalization_line (line_text l)) lines in
  match to_flag with
  | [] =>
      ({| flagged := 0; newly_flagged := None; learnable := total_lines;
          flagged_lines := []; errors := None |}, [])
  | _ :: _ =>
      let '(flagged_count, errs, sent) := update_lines to_flag 0 [] [] in
      ({| flagged := Z.of_nat (List.length to_flag);
          newly_flagged :=
            Some (flagged_count
                  - Z.of_nat (List.length (filter is_skippable to_flag)))%Z;
          learnable := (total_lines - Z.of_nat (List.length to_flag))%Z;
          flagged_lines := map line_text to_flag;
          errors := Some errs |}, sent)
  end.

(** The update of a line succeeded. *)
Definition updated (id : str) : bool :=
  match update id with inr _ => true | inl _ => false end.

(** The errors the updates of a list of lines leave. *)
Definition update_errors (ids : list str) : list (str * str) :=
  flat_map (fun id => match update id with
                      | inl msg => [(id, msg)]
                      | inr _ => []
                      end) ids.

(** The lines of [to_flag] an update is sent for. *)
Definition to_update (to_flag : list line) : list str :=
  map line_id
    (filter (fun l => negb (is_skippable l)) to_flag).

End Flagging.

End Vocalization.


(** ** Dictionaries with strings as keys, as the list of their items *)

Module Dict.

Definition dict (V : Type) := list (str * V).

(** [d[k] = v] *)
Fixpoint set_item {V : Type} (k : str) (v : V) (d : dict V) : dict V :=
  match d with
  | [] => [(k, v)]
  | (k', v') :: rest =>
      if str_eqb k k' then (k', v) :: rest else (k', v') :: set_item k v rest
  end.

(** [d.get(k)]: [None] when [k] is not a key *)
Fixpoint lookup {V : Type} (k : str) (d : dict V) : option V :=
  match d with
  | [] => None
  | (k', v) :: rest => if str_eqb k k' then Some v else lookup k rest
  end.

End Dict.

(** ** Titles: [normalize_title], [load_song_mappings] and
    [match_songs_to_database] of [import_lyrics.py] *)

Module Titles.

(** What [normalize_title] takes from [unicodedata]. *)
Class Unicode_data := {
  (** [unicodedata.normalize('NFD', _)] *)
  nfd : str -> str;
  (** [unicodedata.category(c) == 'Mn'] *)
  category_Mn : char -> bool
}.

Definition SPACE : char := 32%N.

(** [re.sub(r'\s+', ' ', s)]: every maximal run of white space becomes one
    blank; [in_run] tells that the character before was white space. *)
Fixpoint sub_runs (sp : char -> bool) (in_run : bool) (s : str) : str :=
  match s with
  | [] => []
  | c :: r =>
      if sp c then
        if in_run then sub_runs sp true r else SPACE :: sub_runs sp true r
      else c :: sub_runs sp false r
  end.

(** White space occurs in single characters only; [prev] tells that the
    character before was white space. *)
Fixpoint single_spaces (sp : char -> bool) (prev : bool) (s : str) : bool :=
  match s with
  | [] => true
  | c :: r =>
      if sp c then negb prev && single_spaces sp true r
      else single_spaces sp false r
  end.

(** A song of the mapping file and of the data base. *)
Record db_song := {
  song_id : str;
  title : str
}.

(** A song as [parse_album_file] returns it. *)
Record parsed_song := {
  parsed_title : str;
  sections : list (list str);
  total_sections : nat;
  total_lines : nat
}.

Record section := {
  section_order : nat;
  lines : list str
}.

Record matched_song := {
  m_title : str;
  m_song_id : str;
  m_parsed_title : str;
  m_sections : list section;
  m_total_sections : nat;
  m_total_lines : nat
}.

(** The dictionary [mappings]. *)
Definition song_mappings := Dict.dict db_song.

(** [[{'section_order': i + 1, 'lines': lines} for i, lines in
    enumerate(sections)]], from the index [i] on *)
Fixpoint number_sections (i : nat) (sections : list (list str))
  : list section :=
  match sections with
  | [] => []
  | l :: rest =>
      {| section_order := i + 1; lines := l |} :: number_sections (S i) rest
  end.

Section Titles.
Context {U : Unicode} {D : Unicode_data}.

Definition normalize_title (title : str) : str :=
  let title := Py.strip isspace (lower title) in
  let title := nfd title in
  let title := filter (fun c => negb (category_Mn c)) title in
  let title :=
    Vocalization.sub_class (fun c => negb (isword c || isspace c)) title in
  let title := sub_runs isspace false title in
  title.

(** [load_song_mappings] after its read of the file *)
Fixpoint load_songs (songs : list db_song) (mappings : song_mappings)
  : song_mappings :=
  match songs with
  | [] => mappings
  | song :: rest =>
      load_songs rest (Dict.set_item (normalize_title (title song)) song mappings)
  end.

Definition load_song_mappings (songs : list db_song) : song_mappings :=
  load_songs songs [].

(** [for song in parsed_songs: ...] *)
Fixpoint match_songs (parsed_songs : list parsed_song)
    (mappings : song_mappings) (matched : list matched_song) (unmatched : list str)
  : list matched_song * list str :=
  match parsed_songs with
  | [] => (matched, unmatched)
  | song :: rest =>
      let normalized := normalize_title (parsed_title song) in
      match Dict.lookup normalized mappings with
      | Some db_song =>
          match_songs rest mappings
            (matched ++ [{| m_title := title db_song;
                            m_song_id := song_id db_song;
                            m_parsed_title := parsed_title song;
                            m_sections := number_sections 0 (sections song);
                            m_total_sections := total_sections song;
                            m_total_lines := total_lines song |}])
            unmatched
      | None =>
          match_songs rest mappings matched
            (unmatched ++ [parsed_title song])
      end
  end.

Definition match_songs_to_database (parsed_songs : list parsed_song)
    (mappings : song_mappings) : list matched_song * list str :=
  match_songs parsed_songs mappings [] [].

(** The song of the data base a parsed title goes to: the last one with the
    same normalized title. *)
Definition song_for (songs : list db_song) (parsed_title : str)
  : option db_song :=
  find (fun s => str_eqb (normalize_title parsed_title)
                   (normalize_title (title s)))
    (rev songs).

End Titles.
End Titles.


(** ** [get_learnable_lines_with_songs] of [import_lyrics.py] *)

Module Learnable.

(** A row of [song_sections] with its song; [song_id] may be null, [songs]
    is the title of the song, [None] when the song is missing. *)
Record section_row := {
  section_id : str;
  song_id : option str;
  songs : option str
}.

(** A value of [section_to_song] *)
Record song_info := {
  info_song_id : option str;
  info_title : str
}.

(** A line of the result: the line, the identifier of its song and the title
    of the song. *)
Record learnable := {
  row : Driver.learnable_line;
  song_title : str
}.

(** [for s in response.json(): section_to_song[s['section_id']] = ...] *)
Fixpoint load_sections (rows : list section_row)
    (section_to_song : Dict.dict song_info) : Dict.dict song_info :=
  match rows with
  | [] => section_to_song
  | s :: rest =>
      load_sections rest
        (Dict.set_item (section_id s)
           {| info_song_id := song_id s;
              info_title := match songs s with
                            | Some t => t
                            | None => lit "Unknown"
                            end |}
           section_to_song)
  end.

(** [for line in response.json(): result.append(...)] *)
Definition join (section_to_song : Dict.dict song_info)
    (lines : list Song.song_line) : list learnable :=
  map (fun line =>
         match Dict.lookup (Song.section_id line) section_to_song with
         | Some song_info =>
             {| row := {| Driver.song_id := info_song_id song_info;
                          Driver.line := line |};
                song_title := info_title song_info |}
         | None =>
             {| row := {| Driver.song_id := None; Driver.line := line |};
                song_title := lit "Unknown" |}
         end)
    lines.

(** [get_learnable_lines_with_songs] after its two reads *)
Definition get_learnable_lines_with_songs (rows : list section_row)
    (lines : list Song.song_line) : list learnable :=
  join (load_sections rows []) lines.

(** The song of a line: that of the last row of its section. *)
Definition song_of (rows : list section_row) (line : Song.song_line)
  : option str :=
  match find (fun s => str_eqb (Song.section_id line) (section_id s))
          (rev rows) with
  | Some s => song_id s
  | None => None
  end.

End Learnable.


(** ** [detect_occurrences] of [import_lyrics.py], from its first line *)

Module Detection.

(** The parameters of [SupabaseClient.select] of [import_lyrics.py] after
    [self]; [table] is the one without a default value. *)
Definition select_parameters : list string :=
  ["table"; "columns"; "filters"; "or_filters"]%string.

Definition select_required : nat := 1.

Definition name_mem (k : string) (names : list string) : bool :=
  existsb (String.eqb k) names.

(** Python binds the arguments of a call to the parameters before the body
    runs, and raises [TypeError] when there are more positional arguments
    than parameters, when a keyword is not the name of a parameter that is
    still free, or when a parameter without default value gets no
    argument. *)
Definition binds (parameters : list string) (required positional : nat)
    (keywords : list string) : bool :=
  (positional <=? List.length parameters)%nat
  && forallb (fun k => name_mem k (skipn positional parameters)) keywords
  && forallb (fun p => name_mem p keywords)
       (skipn positional (firstn required parameters)).

Inductive raised :=
| TypeError
| Raised (e : exn).

(** What [detect_occurrences] returns: [results], or [{'error': message}]. *)
Inductive returned :=
| Results (r : Driver.results)
| Error (message : str).

Inductive request :=
| Read_occurrence_songs (t : Song.table)
| Select_songs
| Read_sections
| Read_lines
| For_song (c : Song.call).

(** The data base, as the answers it gives; a request that fails gives its
    error message on the left. *)
Record client := {
  detection : Detect.database;
  (** the column [song_id] of an occurrence table *)
  occurrence_songs : Song.table -> str + list str;
  (** the rows of [songs]: identifier and title *)
  songs : str + list (str * str);
  song_sections : str + list Learnable.section_row;
  learnable_lines : str + list Song.song_line
}.

(** [get_songs_with_occurrences]: the union of the two sets; a read that
    fails gives the empty set. *)
Definition get_songs_with_occurrences (c : client) : list str :=
  let phrase_songs :=
    match occurrence_songs c Song.Phrase_occurrences with
    | inr ids => ids
    | inl _ => []
    end in
  let slang_songs :=
    match occurrence_songs c Song.Slang_occurrences with
    | inr ids => ids
    | inl _ => []
    end in
  phrase_songs ++ slang_songs.

(** [get_learnable_lines_with_songs] with its two reads *)
Definition get_learnable_lines_with_songs (c : client)
  : (str + list Learnable.learnable) * list request :=
  match song_sections c with
  | inl message => (inl message, [Read_sections])
  | inr rows =>
      match learnable_lines c with
      | inl message => (inl message, [Read_sections; Read_lines])
      | inr lines =>
          (inr (Learnable.get_learnable_lines_with_songs rows lines),
           [Read_sections; Read_lines])
      end
  end.

Section Detection.
Context {U : Unicode}.

(** [detect_occurrences]: the requests made, and what is raised or
    returned.  The songs are read with
    [client.select('songs', 'song_id,title', order='title')]: two positional
    arguments and the keyword [order]. *)
Definition detect_occurrences (c : client)
  : list request * (raised + returned) :=
  let completed_songs := get_songs_with_occurrences c in
  let made := [Read_occurrence_songs Song.Phrase_occurrences;
               Read_occurrence_songs Song.Slang_occurrences] in
  if negb (binds select_parameters select_required 2 ["order"%string])
  then (made, inl TypeError)
  else
    match songs c with
    | inl message => (made ++ [Select_songs], inr (Error message))
    | inr songs =>
        let '(all_lines, reads) := get_learnable_lines_with_songs c in
        let made := made ++ [Select_songs] ++ reads in
        match all_lines with
        | inl message => (made, inr (Error message))
        | inr all_lines =>
            let songs_lines :=
              Driver.group (map Learnable.row all_lines) [] in
            match Driver.detect_songs (detection c) completed_songs
                    songs_lines songs Driver.initial [] with
            | Ok (results, calls) =>
                (made ++ map For_song calls, inr (Results results))
            | Raise e => (made, inl (Raised e))
            end
        end
    end.

End Detection.
End Detection.


(** ** An expression with a backslash before its apostrophe

    The expression is a, backslash, apostrophe, b; the line "ab" has no
    backslash.  The second line has the backslash of the expression
    "pa\' la casa" before a comma, and its tokens are its words. *)

Module Backslash_scenario.

Definition expression : str := [97; 92; 39; 98]%N.

Definition tokens : list word_record :=
  [{| word_text := [97; 92; 98]%N; word_position := 1 |}].

Definition casa_expression : str := lit "pa" ++ [BACKSLASH] ++ lit "' la casa".

Definition casa_line : str :=
  lit "pa" ++ [BACKSLASH] ++ lit ", la casa; pa la casa".

Definition casa_tokens : list word_record :=
  [{| word_text := lit "pa" ++ [BACKSLASH] ++ lit ","; word_position := 1 |};
   word "la" 2; word "casa;" 3; word "pa" 4; word "la" 5; word "casa" 6].

End Backslash_scenario.


(** ** A small data base for the runs of [process_song]

    One song, "s1", with the phrase "pa' la casa" and the slang term "pa'";
    its first line is the line of the end-to-end scenario, its second line
    has no text. *)

Module Song_scenario.

Definition phrase_casa : Song.term :=
  {| Song.term_id := lit "p1"; Song.term_text := lit "pa' la casa" |}.

Definition phrase_prisa : Song.term :=
  {| Song.term_id := lit "p2"; Song.term_text := lit "tener prisa" |}.

Definition slang_pa : Song.term :=
  {| Song.term_id := lit "g1"; Song.term_text := lit "pa'" |}.

Definition line_casa : Song.song_line :=
  {| Song.line_id := lit "l1";
     Song.line_text := Some Scenario.casa_line;
     Song.section_id := lit "c1" |}.

Definition line_null : Song.song_line :=
  {| Song.line_id := lit "l2";
     Song.line_text := None;
     Song.section_id := lit "c1" |}.

Definition db : Song.database :=
  {| Song.get_song_phrases := fun _ => inr [phrase_casa; phrase_prisa];
     Song.get_song_slang := fun _ => inr [slang_pa];
     Song.get_song_lines := fun _ => inr [line_casa; line_null];
     Song.get_line_words :=
       fun l => if str_eqb l (lit "l1") then inr Scenario.casa_tokens
                else inl (lit "HTTP 404: ");
     Song.get_existing_phrase_occurrences := fun _ => [];
     Song.get_existing_slang_occurrences := fun _ => [(lit "g1", lit "l1")];
     Song.insert := fun _ _ => inr tt |}.

(** The same data base with nothing written yet, and whose table of phrase
    occurrences refuses what is sent to it. *)
Definition failing_db : Song.database :=
  {| Song.get_song_phrases := Song.get_song_phrases db;
     Song.get_song_slang := Song.get_song_slang db;
     Song.get_song_lines := Song.get_song_lines db;
     Song.get_line_words := Song.get_line_words db;
     Song.get_existing_phrase_occurrences := fun _ => [];
     Song.get_existing_slang_occurrences := fun _ => [];
     Song.insert :=
       fun t _ => match t with
                  | Song.Phrase_occurrences => inl (lit "HTTP 500: ")
                  | Song.Slang_occurrences => inr tt
                  end |}.

(** A third line with the text of the first, and a data base that already
    has the occurrence of "pa' la casa" on it. *)
Definition line_again : Song.song_line :=
  {| Song.line_id := lit "l3";
     Song.line_text := Some Scenario.casa_line;
     Song.section_id := lit "c2" |}.

Definition resumed_db : Song.database :=
  {| Song.get_song_phrases := Song.get_song_phrases db;
     Song.get_song_slang := Song.get_song_slang db;
     Song.get_song_lines := fun _ => inr [line_casa; line_null; line_again];
     Song.get_line_words :=
       fun l => if str_eqb l (lit "l1") || str_eqb l (lit "l3")
                then inr Scenario.casa_tokens
                else inl (lit "HTTP 404: ");
     Song.get_existing_phrase_occurrences := fun _ => [(lit "p1", lit "l3")];
     Song.get_existing_slang_occurrences := fun _ => [(lit "g1", lit "l1")];
     Song.insert := fun _ _ => inr tt |}.

Definition record_casa : Song.occurrence :=
  {| Song.occ_term_id := lit "p1";
     Song.occ_line_id := lit "l1";
     Song.occ_song_id := lit "s1";
     Song.occ_section_id := lit "c1";
     Song.start_position := 5;
     Song.end_position := 7 |}.

End Song_scenario.

(** * Properties *)

(** ** Strings and builtins *)

#[local] Arguments N.eqb : simpl never.

Lemma str_eqb_eq (a b : str) : str_eqb a b = true <-> a = b.
Proof.
  revert b; induction a as [|x a IH]; intros [|y b]; simpl; split;
    try congruence; try reflexivity.
  - intros H. apply andb_true_iff in H as [Hx Hr].
    apply N.eqb_eq in Hx. apply IH in Hr. congruence.
  - intros H. injection H as -> ->. rewrite N.eqb_refl. simpl. now apply IH.
Qed.

Lemma str_eqb_refl (a : str) : str_eqb a a = true.
Proof. now apply str_eqb_eq. Qed.

Lemma str_eqb_sym (a b : str) : str_eqb a b = str_eqb b a.
Proof.
  destruct (str_eqb a b) eqn:E; symmetry.
  - apply str_eqb_eq in E. subst. apply str_eqb_refl.
  - destruct (str_eqb b a) eqn:E'; [|reflexivity].
    apply str_eqb_eq in E'. subst. now rewrite str_eqb_refl in E.
Qed.

Lemma mem_In (c : char) (cs : str) : mem c cs = true <-> In c cs.
Proof.
  unfold mem. rewrite existsb_exists. split.
  - intros (x & Hx & E). apply N.eqb_eq in E. now subst.
  - intros H. exists c. split; [assumption | apply N.eqb_refl].
Qed.

Lemma replace_char (a : char) (new s : str) :
  Py.replace [a] new s = flat_map (fun c => if N.eqb a c then new else [c]) s.
Proof.
  unfold Py.replace. induction s as [|c r IH]; simpl; [reflexivity|].
  rewrite andb_true_r. destruct (N.eqb a c); simpl; now rewrite IH.
Qed.

Lemma delete_char_In (a c : char) (s : str) :
  In c (Py.replace [a] [] s) <-> In c s /\ c <> a.
Proof.
  rewrite replace_char, in_flat_map. split.
  - intros (x & Hx & Hc). destruct (N.eqb_spec a x) as [->|Hne]; simpl in Hc.
    + contradiction.
    + destruct Hc as [<-|[]]. split; [assumption | congruence].
  - intros [Hc Hne]. exists c. split; [assumption|].
    destruct (N.eqb_spec a c) as [->|_]; simpl; [congruence | now left].
Qed.

Lemma sub_class_delete_In (cls : str) (c : char) (s : str) :
  In c (Re.sub_class cls [] s) <-> In c s /\ mem c cls = false.
Proof.
  unfold Re.sub_class. rewrite in_flat_map. split.
  - intros (x & Hx & Hc). destruct (mem x cls) eqn:E; simpl in Hc.
    + contradiction.
    + destruct Hc as [<-|[]]. now split.
  - intros [Hc Hm]. exists c. split; [assumption|]. rewrite Hm. now left.
Qed.

Lemma rstrip_id (p : char -> bool) (s : str) :
  (forall c, In c s -> p c = false) -> Py.rstrip p s = s.
Proof.
  induction s as [|c r IH]; intros H; simpl; [reflexivity|].
  rewrite IH by (intros x Hx; apply H; now right).
  destruct r; [|reflexivity].
  now rewrite (H c) by now left.
Qed.

Lemma rstrip_apostrophe_id (s : str) :
  ~ In APOSTROPHE s -> Py.rstrip_chars [APOSTROPHE] s = s.
Proof.
  intros H. apply rstrip_id. intros c Hc.
  destruct (mem c [APOSTROPHE]) eqn:E; [|reflexivity].
  apply mem_In in E. destruct E as [<-|[]]. contradiction.
Qed.

Lemma rstrip_In (p : char -> bool) (s : str) (c : char) :
  In c (Py.rstrip p s) -> In c s.
Proof.
  induction s as [|x r IH]; simpl; [tauto|].
  destruct (Py.rstrip p r) as [|y r'] eqn:E.
  - destruct (p x); simpl; tauto.
  - intros [<-|H]; [now left | right; apply IH; exact H].
Qed.

Lemma lstrip_In (p : char -> bool) (s : str) (c : char) :
  In c (Py.lstrip p s) -> In c s.
Proof.
  induction s as [|x r IH]; simpl; [tauto|].
  destruct (p x); [intros H; right; now apply IH | tauto].
Qed.

Lemma strip_In (p : char -> bool) (s : str) (c : char) :
  In c (Py.strip p s) -> In c s.
Proof. unfold Py.strip. intros H. now apply rstrip_In, lstrip_In in H. Qed.

(** The words [split] returns are not empty, hold no white space, and are
    made of characters of the string. *)
Lemma split_run_spec (sp : char -> bool) (s : str) :
  (forall c, In c (fst (Py.split_run sp s)) -> In c s /\ sp c = false)
  /\ (forall w, In w (snd (Py.split_run sp s)) ->
        w <> [] /\ forall c, In c w -> In c s /\ sp c = false).
Proof.
  induction s as [|x r [IHw IHws]]; simpl.
  - split; intros ? [].
  - destruct (Py.split_run sp r) as [w ws] eqn:E; simpl in *.
    destruct (sp x) eqn:Hx; simpl.
    + split; [intros ? []|].
      intros w' Hw'.
      assert (Hin : In w' ws \/ (w' = w /\ w <> [])).
      { destruct w; [now left|]. destruct Hw' as [<-|H]; [right|now left].
        split; [reflexivity | discriminate]. }
      destruct Hin as [Hin|[-> Hne]].
      * destruct (IHws _ Hin) as [Hn Hc]. split; [assumption|].
        intros c Hcw. destruct (Hc c Hcw). split; [now right | assumption].
      * split; [assumption|].
        intros c Hcw. destruct (IHw c Hcw). split; [now right | assumption].
    + split.
      * intros c [<-|Hc]; [split; [now left | assumption]|].
        destruct (IHw c Hc). split; [now right | assumption].
      * intros w' Hw'. destruct (IHws _ Hw') as [Hn Hc]. split; [assumption|].
        intros c Hcw. destruct (Hc c Hcw). split; [now right | assumption].
Qed.

Lemma split_spec (sp : char -> bool) (s : str) (w : str) :
  In w (Py.split sp s) ->
  w <> [] /\ forall c, In c w -> In c s /\ sp c = false.
Proof.
  unfold Py.split. pose proof (split_run_spec sp s) as [Hw Hws].
  destruct (Py.split_run sp s) as [w0 ws]; simpl in *.
  destruct w0 as [|c0 w0].
  - apply Hws.
  - intros [<-|H]; [split; [discriminate | exact Hw] | now apply Hws].
Qed.

(** ** The two loops of the alignment *)

Import Backfill Spec.

Lemma skipn_cons_nth_error {A : Type} (l : list A) (n : nat) (x : A) (r : list A) :
  skipn n l = x :: r -> nth_error l n = Some x /\ skipn (S n) l = r.
Proof.
  revert l; induction n as [|n IH]; intros [|y l]; simpl; try discriminate.
  - intros H. injection H as -> ->. now split.
  - intros H. destruct (IH _ H) as [H1 H2]. split; [assumption|].
    destruct l; [destruct n; discriminate | exact H2].
Qed.

Lemma all_match_length (test : str -> str -> bool) (pws : list str)
    (ws : list normalized_word) :
  all_match test pws ws = true -> (List.length pws <= List.length ws)%nat.
Proof.
  revert ws; induction pws as [|pw pws IH]; intros [|w ws]; simpl;
    try lia; try discriminate.
  intros H. apply andb_true_iff in H as [_ H]. apply IH in H. lia.
Qed.

Lemma window_positions_length (k : nat) (ws : list normalized_word) :
  (k <= List.length ws)%nat -> List.length (window_positions k ws) = k.
Proof.
  intros H. unfold window_positions.
  rewrite length_map, length_firstn. lia.
Qed.

(** The inner loop, when the window fits in the token list: no
    [IndexError], [match] is the conjunction of the word tests, and on a
    match [positions] has gained the positions of the window. *)
Lemma window_spec (nw : list normalized_word) (i : nat) (pws : list str) :
  forall (j : nat) (acc : list Z),
    (List.length pws <= List.length (skipn (i + j) nw))%nat ->
    exists ps,
      window nw i j pws acc = Ok (all_match word_match pws (skipn (i + j) nw), ps)
      /\ (all_match word_match pws (skipn (i + j) nw) = true ->
          ps = acc ++ window_positions (List.length pws) (skipn (i + j) nw)).
Proof.
  induction pws as [|pw pws IH]; intros j acc Hlen.
  - exists acc. simpl. split; [reflexivity|].
    intros _. unfold window_positions. simpl. now rewrite app_nil_r.
  - destruct (skipn (i + j) nw) as [|w rest] eqn:E; [simpl in Hlen; lia|].
    destruct (skipn_cons_nth_error _ _ _ _ E) as [Hnth Hrest].
    assert (Hlen' : (List.length pws <= List.length (skipn (i + S j) nw))%nat).
    { replace (i + S j)%nat with (S (i + j)) by lia. rewrite Hrest.
      simpl in Hlen. lia. }
    destruct (IH (S j) (acc ++ [position w]) Hlen') as (ps & Hw & Hps).
    replace (i + S j)%nat with (S (i + j)) in Hw, Hps by lia.
    rewrite Hrest in Hw, Hps.
    assert (Hbody :
      window nw i j (pw :: pws) acc =
      if word_match pw (norm w)
      then window nw i (S j) pws (acc ++ [position w])
      else Ok (false, acc)).
    { simpl. unfold Py.index. rewrite Hnth. simpl. unfold word_match.
      destruct (List.length pw <? 3)%nat.
      - now destruct (str_eqb (norm w) pw).
      - now destruct (str_eqb (norm w) pw
                      || str_eqb (Py.rstrip_chars [APOSTROPHE] pw) (norm w)
                      || str_eqb (Py.rstrip_chars [APOSTROPHE] (norm w)) pw). }
    rewrite Hbody. simpl all_match.
    destruct (word_match pw (norm w)); simpl.
    + exists ps. split; [exact Hw|].
      intros Hm. rewrite (Hps Hm). unfold window_positions. simpl.
      now rewrite <- app_assoc.
    + exists acc. split; [reflexivity | discriminate].
Qed.

Lemma leftmost_short (test : str -> str -> bool) (pws : list str)
    (ws : list normalized_word) :
  (List.length ws < List.length pws)%nat -> leftmost test pws ws = None.
Proof.
  induction ws as [|w ws IH]; intros H; simpl; [reflexivity|].
  destruct (all_match test pws (w :: ws)) eqn:E.
  - apply all_match_length in E. lia.
  - apply IH. simpl in H. lia.
Qed.

Lemma py_min_max (ps : list Z) :
  ps <> [] ->
  (lo <- Py.min ps ;; hi <- Py.max ps ;; Ok (Some (lo, hi))) = Ok (span_of ps).
Proof. destruct ps; [congruence | reflexivity]. Qed.

(** The outer loop returns the span of the leftmost matching window. *)
Lemma scan_spec (nw : list normalized_word) (pws : list str) :
  pws <> [] ->
  forall n k, (k + n = List.length nw)%nat ->
    scan nw pws (seq k n) = Ok (leftmost word_match pws (skipn k nw)).
Proof.
  intros Hne n. induction n as [|n IH]; intros k Hk.
  - simpl. rewrite skipn_all2 by lia. reflexivity.
  - simpl seq. simpl scan.
    destruct (List.length nw <? k + List.length pws)%nat eqn:Hbreak.
    + apply Nat.ltb_lt in Hbreak.
      rewrite leftmost_short; [reflexivity|]. rewrite length_skipn. lia.
    + apply Nat.ltb_ge in Hbreak.
      assert (Hfit : (List.length pws <= List.length (skipn (k + 0) nw))%nat).
      { rewrite length_skipn. lia. }
      destruct (window_spec nw k pws 0 [] Hfit) as (ps & Hw & Hps).
      rewrite Hw. rewrite Nat.add_0_r in *. simpl bind.
      destruct (skipn k nw) as [|w rest] eqn:E.
      { apply (f_equal (@List.length _)) in E. rewrite length_skipn in E.
        simpl in E. lia. }
      destruct (skipn_cons_nth_error _ _ _ _ E) as [_ Hrest].
      simpl leftmost.
      destruct (all_match word_match pws (w :: rest)) eqn:Hm.
      * rewrite (Hps eq_refl). simpl app.
        rewrite window_positions_length by exact Hfit.
        rewrite Nat.eqb_refl. simpl andb. cbv iota.
        apply py_min_max.
        intros Hnil. apply (f_equal (@List.length _)) in Hnil.
        rewrite window_positions_length in Hnil by exact Hfit.
        destruct pws; [congruence | discriminate].
      * simpl andb. cbv iota. rewrite <- Hrest. apply IH. lia.
Qed.

(** ** The pattern always compiles *)

Lemma list_ind_pairs {A : Type} (P : list A -> Prop) :
  P [] -> (forall a, P [a]) ->
  (forall a b l, P l -> P (b :: l) -> P (a :: b :: l)) ->
  forall l, P l.
Proof.
  intros H0 H1 H2 l.
  assert (H : P l /\ forall a, P (a :: l)).
  { induction l as [|b l [IHl IHb]].
    - split; [exact H0 | exact H1].
    - split; [apply IHb|]. intros a. apply H2; [exact IHl | apply IHb]. }
  apply H.
Qed.

Lemma special_not_alnum (c : char) :
  mem c Re.special_chars = true -> Re.ascii_alnum c = false.
Proof.
  intros H. apply mem_In in H. unfold Re.special_chars in H. simpl in H.
  repeat (destruct H as [<-|H]; [reflexivity|]). contradiction.
Qed.

Lemma special_not_apostrophe (c : char) :
  mem c Re.special_chars = true -> N.eqb c APOSTROPHE = false.
Proof.
  intros H. apply mem_In in H. unfold Re.special_chars in H. simpl in H.
  repeat (destruct H as [<-|H]; [reflexivity|]). contradiction.
Qed.

Lemma metachar_special (c : char) :
  mem c Re.metachars = true -> mem c Re.special_chars = true.
Proof.
  intros H. apply mem_In in H. unfold Re.metachars in H. simpl in H.
  repeat (destruct H as [<-|H]; [reflexivity|]). contradiction.
Qed.

Lemma escape_cons (c : char) (s : str) :
  Re.escape (c :: s) = Pattern.esc c ++ Re.escape s.
Proof. reflexivity. Qed.

(** The head of an escaped string is never an apostrophe unless the string
    itself starts with one. *)
Lemma escape_head (c : char) (s : str) :
  N.eqb c APOSTROPHE = false ->
  exists x r, Re.escape (c :: s) = x :: r /\ N.eqb APOSTROPHE x = false.
Proof.
  intros H. rewrite escape_cons. unfold Pattern.esc.
  destruct (mem c Re.special_chars).
  - exists BACKSLASH, (c :: Re.escape s). now split.
  - exists c, (Re.escape s). split; [reflexivity|]. now rewrite N.eqb_sym.
Qed.

Lemma after_first_replace_contraction (l : str) :
  Pattern.after_first_replace (BACKSLASH :: APOSTROPHE :: l)
  = [BACKSLASH; APOSTROPHE; QUESTION] ++ Pattern.after_first_replace l.
Proof. reflexivity. Qed.

Lemma after_first_replace_backslash (b : char) (l : str) :
  N.eqb b APOSTROPHE = false ->
  Pattern.after_first_replace (BACKSLASH :: b :: l)
  = [BACKSLASH; BACKSLASH] ++ Pattern.after_first_replace (b :: l).
Proof.
  intros H. change (Pattern.after_first_replace (BACKSLASH :: b :: l))
    with (if N.eqb b APOSTROPHE
          then [BACKSLASH; APOSTROPHE; QUESTION] ++ Pattern.after_first_replace l
          else [BACKSLASH; BACKSLASH] ++ Pattern.after_first_replace (b :: l)).
  now rewrite H.
Qed.

Lemma after_first_replace_plain (c : char) (r : str) :
  N.eqb c BACKSLASH = false ->
  Pattern.after_first_replace (c :: r) = Pattern.esc c ++ Pattern.after_first_replace r.
Proof. intros H. simpl. now rewrite H. Qed.

Lemma first_replace_spec (s : str) :
  Py.replace [BACKSLASH; APOSTROPHE] [APOSTROPHE; QUESTION] (Re.escape s)
  = Pattern.after_first_replace s.
Proof.
  unfold Py.replace.
  assert (Hplain : forall c r,
    N.eqb c BACKSLASH = false ->
    Py.replace_from [BACKSLASH; APOSTROPHE] [APOSTROPHE; QUESTION] 0
      (Pattern.esc c ++ r)
    = Pattern.esc c
      ++ Py.replace_from [BACKSLASH; APOSTROPHE] [APOSTROPHE; QUESTION] 0 r).
  { intros c r Hc. unfold Pattern.esc.
    destruct (mem c Re.special_chars) eqn:Hs; simpl.
    - rewrite (N.eqb_sym APOSTROPHE c), (special_not_apostrophe c Hs).
      simpl. rewrite (N.eqb_sym BACKSLASH c), Hc. reflexivity.
    - rewrite (N.eqb_sym BACKSLASH c), Hc. reflexivity. }
  induction s as [| a | a b l IHl IHb] using list_ind_pairs.
  - reflexivity.
  - destruct (N.eqb_spec a BACKSLASH) as [->|Hne]; [reflexivity|].
    apply N.eqb_neq in Hne.
    rewrite after_first_replace_plain, escape_cons, Hplain by exact Hne.
    reflexivity.
  - destruct (N.eqb_spec a BACKSLASH) as [->|Hne].
    + destruct (N.eqb_spec b APOSTROPHE) as [->|Hb].
      * rewrite after_first_replace_contraction, <- IHl. reflexivity.
      * apply N.eqb_neq in Hb.
        destruct (escape_head b l Hb) as (x & r & Hx & Hxa).
        rewrite after_first_replace_backslash, <- IHb by exact Hb.
        change (Re.escape (BACKSLASH :: b :: l))
          with (BACKSLASH :: BACKSLASH :: Re.escape (b :: l)).
        rewrite Hx. simpl. rewrite Hxa. reflexivity.
    + apply N.eqb_neq in Hne.
      rewrite after_first_replace_plain, escape_cons, Hplain, IHb by exact Hne.
      reflexivity.
Qed.

Lemma after_second_replace_contraction (l : str) :
  Pattern.after_second_replace (BACKSLASH :: APOSTROPHE :: l)
  = [BACKSLASH; APOSTROPHE; QUESTION; QUESTION] ++ Pattern.after_second_replace l.
Proof. reflexivity. Qed.

Lemma after_second_replace_backslash (b : char) (l : str) :
  N.eqb b APOSTROPHE = false ->
  Pattern.after_second_replace (BACKSLASH :: b :: l)
  = [BACKSLASH; BACKSLASH] ++ Pattern.after_second_replace (b :: l).
Proof.
  intros H. change (Pattern.after_second_replace (BACKSLASH :: b :: l))
    with (if N.eqb b APOSTROPHE
          then [BACKSLASH; APOSTROPHE; QUESTION; QUESTION]
                 ++ Pattern.after_second_replace l
          else [BACKSLASH; BACKSLASH] ++ Pattern.after_second_replace (b :: l)).
  now rewrite H.
Qed.

Lemma after_second_replace_plain (c : char) (r : str) :
  N.eqb c BACKSLASH = false ->
  Pattern.after_second_replace (c :: r)
  = (if N.eqb c APOSTROPHE then [APOSTROPHE; QUESTION] else Pattern.esc c)
    ++ Pattern.after_second_replace r.
Proof. intros H. simpl. rewrite H. now destruct (N.eqb c APOSTROPHE). Qed.

Lemma nodes_of_contraction (l : str) :
  Pattern.nodes_of (BACKSLASH :: APOSTROPHE :: l)
  = Re.Optional true (Re.Literal APOSTROPHE) :: Pattern.nodes_of l.
Proof. reflexivity. Qed.

Lemma nodes_of_backslash (b : char) (l : str) :
  N.eqb b APOSTROPHE = false ->
  Pattern.nodes_of (BACKSLASH :: b :: l)
  = Re.Literal BACKSLASH :: Pattern.nodes_of (b :: l).
Proof.
  intros H. change (Pattern.nodes_of (BACKSLASH :: b :: l))
    with (if N.eqb b APOSTROPHE
          then Re.Optional true (Re.Literal APOSTROPHE) :: Pattern.nodes_of l
          else Re.Literal BACKSLASH :: Pattern.nodes_of (b :: l)).
  now rewrite H.
Qed.

Lemma nodes_of_plain (c : char) (r : str) :
  N.eqb c BACKSLASH = false ->
  Pattern.nodes_of (c :: r)
  = (if N.eqb c APOSTROPHE then Re.Optional false (Re.Literal APOSTROPHE)
     else Re.Literal c) :: Pattern.nodes_of r.
Proof. intros H. simpl. rewrite H. now destruct (N.eqb c APOSTROPHE). Qed.

Definition question_apostrophe (c : char) : str :=
  if N.eqb APOSTROPHE c then [APOSTROPHE; QUESTION] else [c].

Lemma second_replace_esc (c : char) :
  N.eqb c BACKSLASH = false ->
  flat_map question_apostrophe (Pattern.esc c)
  = if N.eqb c APOSTROPHE then [APOSTROPHE; QUESTION] else Pattern.esc c.
Proof.
  intros Hc. unfold Pattern.esc.
  destruct (mem c Re.special_chars) eqn:Hs; simpl; unfold question_apostrophe.
  - rewrite (special_not_apostrophe c Hs), (N.eqb_sym APOSTROPHE c),
      (special_not_apostrophe c Hs). reflexivity.
  - rewrite (N.eqb_sym APOSTROPHE c).
    destruct (N.eqb_spec c APOSTROPHE) as [->|_]; reflexivity.
Qed.

Lemma second_replace_spec (s : str) :
  Py.replace [APOSTROPHE] [APOSTROPHE; QUESTION] (Pattern.after_first_replace s)
  = Pattern.after_second_replace s.
Proof.
  rewrite replace_char.
  change (flat_map question_apostrophe (Pattern.after_first_replace s)
          = Pattern.after_second_replace s).
  induction s as [| a | a b l IHl IHb] using list_ind_pairs.
  - reflexivity.
  - destruct (N.eqb_spec a BACKSLASH) as [->|Hne]; [reflexivity|].
    apply N.eqb_neq in Hne.
    rewrite after_first_replace_plain, after_second_replace_plain by exact Hne.
    rewrite flat_map_app, second_replace_esc by exact Hne. reflexivity.
  - destruct (N.eqb_spec a BACKSLASH) as [->|Hne].
    + destruct (N.eqb_spec b APOSTROPHE) as [->|Hb].
      * rewrite after_first_replace_contraction, after_second_replace_contraction.
        rewrite flat_map_app, IHl. reflexivity.
      * apply N.eqb_neq in Hb.
        rewrite after_first_replace_backslash, after_second_replace_backslash
          by exact Hb.
        rewrite flat_map_app, IHb. reflexivity.
    + apply N.eqb_neq in Hne.
      rewrite after_first_replace_plain, after_second_replace_plain by exact Hne.
      rewrite flat_map_app, second_replace_esc, IHb by exact Hne. reflexivity.
Qed.

Lemma parse_after_second_replace (s : str) :
  forall acc q,
    Re.parse_from acc q false (Pattern.after_second_replace s)
    = Ok (rev acc ++ Pattern.nodes_of s).
Proof.
  assert (Hunit : forall c r acc q,
    N.eqb c BACKSLASH = false ->
    Re.parse_from acc q false
      ((if N.eqb c APOSTROPHE then [APOSTROPHE; QUESTION] else Pattern.esc c) ++ r)
    = Re.parse_from
        ((if N.eqb c APOSTROPHE then Re.Optional false (Re.Literal APOSTROPHE)
          else Re.Literal c) :: acc)
        (if N.eqb c APOSTROPHE then 1 else 0) false r).
  { intros c r acc q Hc.
    destruct (N.eqb_spec c APOSTROPHE) as [->|Hne]; [reflexivity|].
    unfold Pattern.esc. destruct (mem c Re.special_chars) eqn:Hs.
    - simpl. now rewrite (special_not_alnum c Hs).
    - assert (Hm : mem c Re.metachars = false).
      { destruct (mem c Re.metachars) eqn:E; [|reflexivity].
        apply metachar_special in E. congruence. }
      assert (Hq : N.eqb c QUESTION = false).
      { destruct (N.eqb_spec c QUESTION) as [->|_]; [discriminate | reflexivity]. }
      cbn [Re.parse_from app]. now rewrite Hc, Hq, Hm. }
  induction s as [| a | a b l IHl IHb] using list_ind_pairs; intros acc q.
  - simpl. now rewrite app_nil_r.
  - destruct (N.eqb_spec a BACKSLASH) as [->|Hne].
    + reflexivity.
    + apply N.eqb_neq in Hne.
      rewrite after_second_replace_plain, nodes_of_plain, Hunit by exact Hne.
      simpl. now destruct (N.eqb a APOSTROPHE).
  - destruct (N.eqb_spec a BACKSLASH) as [->|Hne].
    + destruct (N.eqb_spec b APOSTROPHE) as [->|Hb].
      * rewrite after_second_replace_contraction, nodes_of_contraction.
        simpl. rewrite IHl. simpl. now rewrite <- app_assoc.
      * apply N.eqb_neq in Hb.
        rewrite after_second_replace_backslash, nodes_of_backslash by exact Hb.
        simpl. rewrite IHb. simpl. now rewrite <- app_assoc.
    + apply N.eqb_neq in Hne.
      rewrite after_second_replace_plain, nodes_of_plain, Hunit by exact Hne.
      rewrite IHb. simpl. now rewrite <- app_assoc.
Qed.

(** The escaped phrase always parses, to [nodes_of] the phrase. *)
Lemma escaped_phrase_parses (s : str) :
  Re.parse
    (Py.replace [APOSTROPHE] [APOSTROPHE; QUESTION]
       (Py.replace [BACKSLASH; APOSTROPHE] [APOSTROPHE; QUESTION] (Re.escape s)))
  = Ok (Pattern.nodes_of s).
Proof.
  rewrite first_replace_spec, second_replace_spec. unfold Re.parse.
  now rewrite parse_after_second_replace.
Qed.

(** ** The locator never raises, and what it returns *)

Import Closed.

Section Locator_facts.
Context {U : Unicode}.

Lemma phrase_exists_in_line_ok (line_text phrase_text : str) :
  phrase_exists_in_line line_text phrase_text
  = Ok (coarse_check line_text phrase_text).
Proof.
  unfold phrase_exists_in_line. rewrite escaped_phrase_parses. reflexivity.
Qed.

Lemma find_phrase_positions_locate (line_text phrase_text : str)
    (line_words : list word_record) :
  find_phrase_positions line_text phrase_text line_words
  = Ok (locate line_text phrase_text line_words).
Proof.
  unfold find_phrase_positions, locate, expression_words.
  destruct line_words as [|w0 ws]; [reflexivity|].
  destruct (Py.split isspace (normalize_for_search phrase_text))
    as [|target pws] eqn:Hsplit; [reflexivity|].
  rewrite !phrase_exists_in_line_ok.
  destruct pws as [|pw2 pws].
  - simpl. destruct (List.length target <? 3)%nat; [reflexivity|].
    now destruct (coarse_check line_text phrase_text).
  - cbn [List.length Nat.eqb bind].
    destruct (coarse_check line_text phrase_text); [|reflexivity].
    cbn [negb].
    rewrite (scan_spec (normalized (w0 :: ws)) (target :: pw2 :: pws))
      by (try discriminate; lia).
    reflexivity.
Qed.

End Locator_facts.

(** ** Normalized words hold no apostrophe *)

Section Apostrophes.
Context {U : Unicode}.

Lemma normalize_for_search_In (c : char) (text : str) :
  In c (normalize_for_search text) <->
  In c (normalize_text text) /\ c <> APOSTROPHE /\ mem c PUNCTUATION = false.
Proof.
  unfold normalize_for_search.
  rewrite sub_class_delete_In, !delete_char_In. tauto.
Qed.

Lemma normalize_for_search_no_apostrophe (text : str) :
  ~ In APOSTROPHE (normalize_for_search text).
Proof. rewrite normalize_for_search_In. tauto. Qed.

Lemma expression_words_spec (phrase_text : str) (w : str) :
  In w (expression_words phrase_text) ->
  w <> [] /\ ~ In APOSTROPHE w
  /\ forall c, In c w -> In c (normalize_text phrase_text) /\ c <> APOSTROPHE.
Proof.
  intros H. apply split_spec in H as [Hne Hc]. split; [assumption|]. split.
  - intros Ha. apply Hc in Ha as [Ha _].
    now apply normalize_for_search_no_apostrophe in Ha.
  - intros c Hcw. apply Hc in Hcw as [Hcw _].
    apply normalize_for_search_In in Hcw. tauto.
Qed.

Lemma normalized_In (line_words : list word_record) (w : normalized_word) :
  In w (normalized line_words) ->
  exists r, In r line_words /\ norm w = normalize_for_search (word_text r)
            /\ position w = word_position r.
Proof.
  unfold normalized. rewrite in_map_iff. intros (r & <- & Hr).
  exists r. now repeat split.
Qed.

Lemma normalized_no_apostrophe (line_words : list word_record)
    (w : normalized_word) :
  In w (normalized line_words) -> ~ In APOSTROPHE (norm w).
Proof.
  intros H. apply normalized_In in H as (r & _ & -> & _).
  apply normalize_for_search_no_apostrophe.
Qed.
End Apostrophes.

(** On words without apostrophe the contraction clauses add nothing. *)
Lemma word_match_exact (pw lw : str) :
  ~ In APOSTROPHE pw -> ~ In APOSTROPHE lw ->
  word_match pw lw = exact_match pw lw.
Proof.
  intros Hp Hl. unfold word_match, exact_match.
  rewrite !rstrip_apostrophe_id by assumption.
  rewrite (str_eqb_sym pw lw).
  destruct (List.length pw <? 3)%nat; [reflexivity|].
  now destruct (str_eqb lw pw).
Qed.

Lemma first_contraction_exact (target : str) (ws : list normalized_word) :
  ~ In APOSTROPHE target ->
  (forall w, In w ws -> ~ In APOSTROPHE (norm w)) ->
  first_contraction target ws = first_exact target ws.
Proof.
  intros Ht. induction ws as [|w ws IH]; intros Hws; simpl; [reflexivity|].
  rewrite !rstrip_apostrophe_id by (try assumption; apply Hws; now left).
  rewrite (str_eqb_sym target (norm w)).
  destruct (str_eqb (norm w) target); simpl; [reflexivity|].
  apply IH. intros w' Hw'. apply Hws. now right.
Qed.

Lemma all_match_exact (pws : list str) (ws : list normalized_word) :
  (forall pw, In pw pws -> ~ In APOSTROPHE pw) ->
  (forall w, In w ws -> ~ In APOSTROPHE (norm w)) ->
  all_match word_match pws ws = all_match exact_match pws ws.
Proof.
  revert ws. induction pws as [|pw pws IH]; intros [|w ws] Hp Hw; simpl;
    try reflexivity.
  rewrite word_match_exact by (try (apply Hp; now left); apply Hw; now left).
  rewrite IH; [reflexivity | |]; intros x Hx; [apply Hp | apply Hw]; now right.
Qed.

Lemma leftmost_exact (pws : list str) (ws : list normalized_word) :
  (forall pw, In pw pws -> ~ In APOSTROPHE pw) ->
  (forall w, In w ws -> ~ In APOSTROPHE (norm w)) ->
  leftmost word_match pws ws = leftmost exact_match pws ws.
Proof.
  intros Hp. induction ws as [|w ws IH]; intros Hw; simpl; [reflexivity|].
  rewrite (all_match_exact pws (w :: ws)) by assumption.
  rewrite IH by (intros x Hx; apply Hw; now right). reflexivity.
Qed.

(** The locator is the locator with exact equality only. *)
Lemma find_phrase_positions_exact {U : Unicode} (line_text phrase_text : str)
    (line_words : list word_record) :
  find_phrase_positions line_text phrase_text line_words
  = find_exact line_text phrase_text line_words.
Proof.
  rewrite find_phrase_positions_locate. unfold locate, find_exact.
  destruct line_words as [|w0 ws]; [reflexivity|].
  pose proof (expression_words_spec phrase_text) as Hwords.
  unfold expression_words in *.
  destruct (Py.split isspace (normalize_for_search phrase_text))
    as [|target pws]; [reflexivity|].
  rewrite !phrase_exists_in_line_ok.
  assert (Hnw : forall w, In w (normalized (w0 :: ws)) -> ~ In APOSTROPHE (norm w))
    by apply normalized_no_apostrophe.
  assert (Hp : forall pw, In pw (target :: pws) -> ~ In APOSTROPHE pw)
    by (intros pw Hpw; now apply Hwords in Hpw).
  destruct pws as [|pw2 pws].
  - rewrite first_contraction_exact by (try assumption; apply Hp; now left).
    destruct (List.length target <? 3)%nat; reflexivity.
  - rewrite leftmost_exact by assumption. reflexivity.
Qed.

(** ** The leftmost window *)

Lemma leftmost_first (test : str -> str -> bool) (pws : list str) :
  pws <> [] ->
  forall (i : nat) (ws : list normalized_word),
    all_match test pws (skipn i ws) = true ->
    (forall k, (k < i)%nat -> all_match test pws (skipn k ws) = false) ->
    leftmost test pws ws
    = span_of (window_positions (List.length pws) (skipn i ws)).
Proof.
  intros Hne. induction i as [|i IH]; intros ws Hm Hfirst.
  - simpl in Hm. destruct ws as [|w ws].
    + destruct pws; [congruence | discriminate].
    + simpl. now rewrite Hm.
  - destruct ws as [|w ws].
    + destruct pws; [congruence | discriminate].
    + assert (H0 : all_match test pws (w :: ws) = false)
        by (apply (Hfirst 0%nat); lia).
      simpl. rewrite H0.
      apply IH; [exact Hm|].
      intros k Hk. apply (Hfirst (S k)). lia.
Qed.

Lemma leftmost_some (test : str -> str -> bool) (pws : list str)
    (ws : list normalized_word) (sp : Z * Z) :
  leftmost test pws ws = Some sp ->
  exists i, (i < List.length ws)%nat
    /\ all_match test pws (skipn i ws) = true
    /\ (forall k, (k < i)%nat -> all_match test pws (skipn k ws) = false)
    /\ span_of (window_positions (List.length pws) (skipn i ws)) = Some sp.
Proof.
  induction ws as [|w ws IH]; simpl; [discriminate|].
  destruct (all_match test pws (w :: ws)) eqn:E.
  - intros H. exists 0%nat. simpl. repeat split; try assumption; lia.
  - intros H. destruct (IH H) as (i & Hi & Hm & Hfirst & Hsp).
    exists (S i). simpl. repeat split; try assumption; [lia|].
    intros [|k] Hk; [exact E | apply Hfirst; lia].
Qed.

Lemma leftmost_none (test : str -> str -> bool) (pws : list str)
    (ws : list normalized_word) :
  pws <> [] ->
  (forall w, In w ws -> forall pw, In pw pws -> test pw (norm w) = false) ->
  leftmost test pws ws = None.
Proof.
  intros Hne. induction ws as [|w ws IH]; intros H; simpl; [reflexivity|].
  destruct pws as [|pw pws]; [congruence|].
  simpl. rewrite (H w) by now left. simpl.
  apply IH. intros w' Hw'. apply H. now right.
Qed.

(** ** Minimum and maximum of the positions *)

Lemma fold_min_spec (r : list Z) (x : Z) :
  In (fold_left Z.min r x) (x :: r)
  /\ forall y, In y (x :: r) -> (fold_left Z.min r x <= y)%Z.
Proof.
  revert x. induction r as [|a r IH]; intros x; simpl.
  - split; [now left|]. intros y [<-|[]]. lia.
  - destruct (IH (Z.min x a)) as [Hin Hle]. split.
    + destruct Hin as [Hin|Hin]; [|now right; right].
      rewrite <- Hin. destruct (Z.min_spec x a) as [[_ ->]|[_ ->]]; tauto.
    + intros y Hy.
      assert (Hm : (fold_left Z.min r (Z.min x a) <= Z.min x a)%Z)
        by (apply Hle; now left).
      destruct Hy as [<-|[<-|Hy]]; [lia | lia | apply Hle; now right].
Qed.

Lemma fold_max_spec (r : list Z) (x : Z) :
  In (fold_left Z.max r x) (x :: r)
  /\ forall y, In y (x :: r) -> (y <= fold_left Z.max r x)%Z.
Proof.
  revert x. induction r as [|a r IH]; intros x; simpl.
  - split; [now left|]. intros y [<-|[]]. lia.
  - destruct (IH (Z.max x a)) as [Hin Hle]. split.
    + destruct Hin as [Hin|Hin]; [|now right; right].
      rewrite <- Hin. destruct (Z.max_spec x a) as [[_ ->]|[_ ->]]; tauto.
    + intros y Hy.
      assert (Hm : (Z.max x a <= fold_left Z.max r (Z.max x a))%Z)
        by (apply Hle; now left).
      destruct Hy as [<-|[<-|Hy]]; [lia | lia | apply Hle; now right].
Qed.

Lemma span_of_spec (ps : list Z) (s e : Z) :
  span_of ps = Some (s, e) ->
  In s ps /\ In e ps /\ forall p, In p ps -> (s <= p <= e)%Z.
Proof.
  destruct ps as [|x r]; simpl; [discriminate|].
  intros H. injection H as <- <-.
  destruct (fold_min_spec r x) as [Hmi Hml].
  destruct (fold_max_spec r x) as [Hxi Hxl].
  repeat split; try assumption; [now apply Hml | now apply Hxl].
Qed.

(** ** Latin-1 text: any runtime that agrees with Python there gives the
    result of the [latin1] tables *)

Lemma lower1_latin1 (c : char) : is_latin1 c = true -> is_latin1 (lower1 c) = true.
Proof.
  unfold is_latin1, lower1. intros H. apply N.ltb_lt in H.
  destruct ((65 <=? c) && (c <=? 90) || (192 <=? c) && (c <=? 214)
            || (216 <=? c) && (c <=? 222))%N eqn:E; apply N.ltb_lt; [|lia].
  rewrite !orb_true_iff, !andb_true_iff, !N.leb_le in E. lia.
Qed.

Lemma latin1_text_In (s : str) :
  latin1_text s = true <-> forall c, In c s -> is_latin1 c = true.
Proof. unfold latin1_text. apply forallb_forall. Qed.

Lemma latin1_text_sub (s t : str) :
  (forall c, In c t -> In c s) -> latin1_text s = true -> latin1_text t = true.
Proof. rewrite !latin1_text_In. auto. Qed.

Lemma lstrip_ext (p q : char -> bool) (s : str) :
  (forall c, In c s -> p c = q c) -> Py.lstrip p s = Py.lstrip q s.
Proof.
  induction s as [|x r IH]; intros H; simpl; [reflexivity|].
  rewrite <- (H x) by now left.
  destruct (p x); [|reflexivity]. apply IH. intros c Hc. apply H. now right.
Qed.

Lemma rstrip_ext (p q : char -> bool) (s : str) :
  (forall c, In c s -> p c = q c) -> Py.rstrip p s = Py.rstrip q s.
Proof.
  induction s as [|x r IH]; intros H; simpl; [reflexivity|].
  rewrite <- IH by (intros c Hc; apply H; now right).
  now rewrite <- (H x) by now left.
Qed.

Lemma strip_ext (p q : char -> bool) (s : str) :
  (forall c, In c s -> p c = q c) -> Py.strip p s = Py.strip q s.
Proof.
  intros H. unfold Py.strip. rewrite (lstrip_ext p q s H).
  apply rstrip_ext. intros c Hc. apply H. now apply lstrip_In in Hc.
Qed.

Lemma split_run_ext (p q : char -> bool) (s : str) :
  (forall c, In c s -> p c = q c) -> Py.split_run p s = Py.split_run q s.
Proof.
  induction s as [|x r IH]; intros H; simpl; [reflexivity|].
  rewrite <- IH by (intros c Hc; apply H; now right).
  now rewrite <- (H x) by now left.
Qed.

Lemma split_ext (p q : char -> bool) (s : str) :
  (forall c, In c s -> p c = q c) -> Py.split p s = Py.split q s.
Proof. intros H. unfold Py.split. now rewrite (split_run_ext p q s H). Qed.

Lemma existsb_ext_in {A : Type} (f g : A -> bool) (l : list A) :
  (forall x, In x l -> f x = g x) -> existsb f l = existsb g l.
Proof.
  induction l as [|a l IH]; intros H; simpl; [reflexivity|].
  rewrite (H a) by now left. rewrite IH; [reflexivity|].
  intros x Hx. apply H. now right.
Qed.

Lemma nodes_of_latin1 (s : str) :
  latin1_text s = true -> forallb latin1_node (Pattern.nodes_of s) = true.
Proof.
  induction s as [| a | a b l IHl IHb] using list_ind_pairs; intros H.
  - reflexivity.
  - simpl in *. destruct (N.eqb a BACKSLASH); [exact H|].
    destruct (N.eqb a APOSTROPHE); [reflexivity | exact H].
  - assert (Ha : is_latin1 a = true /\ latin1_text (b :: l) = true).
    { unfold latin1_text in *. simpl in H. now apply andb_true_iff in H. }
    destruct Ha as [Ha Hbl].
    assert (Hl : latin1_text l = true).
    { unfold latin1_text in *. simpl in Hbl. now apply andb_true_iff in Hbl. }
    destruct (N.eqb_spec a BACKSLASH) as [->|Hne].
    + destruct (N.eqb_spec b APOSTROPHE) as [->|Hb].
      * rewrite nodes_of_contraction. simpl. now apply IHl.
      * apply N.eqb_neq in Hb. rewrite nodes_of_backslash by exact Hb.
        simpl. now apply IHb.
    + apply N.eqb_neq in Hne. rewrite nodes_of_plain by exact Hne.
      cbn [forallb]. rewrite (IHb Hbl), andb_true_r.
      destruct (N.eqb a APOSTROPHE); [reflexivity | exact Ha].
Qed.

Section Latin1.
Context {U : Unicode}.
Hypothesis HU : python_latin1 U.

Lemma normalize_text_latin1 (s : str) :
  latin1_text s = true ->
  @normalize_text U s = @normalize_text latin1 s
  /\ latin1_text (@normalize_text latin1 s) = true.
Proof.
  intros Hs. unfold normalize_text.
  assert (Hmap : latin1_text (map lower1 s) = true).
  { apply latin1_text_In. intros c Hc. apply in_map_iff in Hc as (x & <- & Hx).
    apply lower1_latin1. now apply (proj1 (latin1_text_In s) Hs). }
  assert (Hstrip : latin1_text (Py.strip isspace1 (map lower1 s)) = true).
  { apply (latin1_text_sub (map lower1 s)); [|exact Hmap].
    intros c. apply strip_In. }
  rewrite (lower_latin1 U HU s Hs).
  rewrite (strip_ext (@isspace U) isspace1).
  - rewrite (nfc_latin1 U HU _ Hstrip). split; [reflexivity | exact Hstrip].
  - intros c Hc. apply (isspace_latin1 U HU).
    now apply (proj1 (latin1_text_In _) Hmap).
Qed.

Lemma normalize_for_search_latin1 (s : str) :
  latin1_text s = true ->
  @normalize_for_search U s = @normalize_for_search latin1 s
  /\ latin1_text (@normalize_for_search latin1 s) = true.
Proof.
  intros Hs. destruct (normalize_text_latin1 s Hs) as [E Hl].
  unfold normalize_for_search. rewrite E. split; [reflexivity|].
  apply (latin1_text_sub (@normalize_text latin1 s)); [|exact Hl].
  intros c Hc. fold (@normalize_for_search latin1 s) in Hc.
  now apply normalize_for_search_In in Hc.
Qed.

Lemma expression_words_latin1 (s : str) :
  latin1_text s = true ->
  @expression_words U s = @expression_words latin1 s.
Proof.
  intros Hs. destruct (normalize_for_search_latin1 s Hs) as [E Hl].
  unfold expression_words. rewrite E.
  apply split_ext. intros c Hc. apply (isspace_latin1 U HU).
  now apply (proj1 (latin1_text_In _) Hl).
Qed.

Lemma normalized_latin1 (line_words : list word_record) :
  latin1_words line_words = true ->
  @normalized U line_words = @normalized latin1 line_words.
Proof.
  unfold latin1_words, normalized. intros H.
  apply map_ext_in. intros w Hw.
  assert (Hs : latin1_text (word_text w) = true)
    by (apply (proj1 (forallb_forall _ _) H); exact Hw).
  destruct (normalize_for_search_latin1 _ Hs) as [-> _].
  now rewrite (lower_latin1 U HU _ Hs).
Qed.

Lemma step_latin1 (n : Re.node) (b : bool) (rest : str) :
  latin1_node n = true -> latin1_text rest = true ->
  @Re.step U n (b, rest) = @Re.step latin1 n (b, rest).
Proof.
  intros Hn Hr. induction n as [| | |p|a IHa c IHc|lazy m IHm]; simpl;
    try reflexivity.
  - destruct rest as [|x r]; [reflexivity|].
    unfold latin1_text in Hr. simpl in Hr. apply andb_true_iff in Hr as [Hx _].
    now rewrite (isword_latin1 U HU x Hx).
  - destruct rest as [|x r]; [reflexivity|].
    unfold latin1_text in Hr. simpl in Hr. apply andb_true_iff in Hr as [Hx _].
    simpl in Hn. now rewrite (icase_latin1 U HU p x Hn Hx).
  - simpl in Hn. apply andb_true_iff in Hn as [Ha Hc].
    now rewrite (IHa Ha), (IHc Hc).
  - simpl in Hn. now rewrite (IHm Hn).
Qed.

Lemma step_rest_latin1 (n : Re.node) (st st' : Re.state) :
  latin1_text (snd st) = true -> In st' (@Re.step latin1 n st) ->
  latin1_text (snd st') = true.
Proof.
  revert st'. destruct st as [b rest]. simpl snd.
  induction n as [| | |p|a IHa c IHc|lazy m IHm]; intros st' Hr; simpl.
  - destruct b; [intros [<-|[]]; exact Hr | intros []].
  - destruct rest as [|x [|y r]].
    + intros [<-|[]]. exact Hr.
    + destruct (N.eqb x NEWLINE); [intros [<-|[]]; exact Hr | intros []].
    + intros [].
  - destruct rest as [|x r]; [intros []|].
    unfold latin1_text in Hr. simpl in Hr. apply andb_true_iff in Hr as [_ Hr].
    destruct (negb (isword1 x)); [intros [<-|[]]; exact Hr | intros []].
  - destruct rest as [|x r]; [intros []|].
    unfold latin1_text in Hr. simpl in Hr. apply andb_true_iff in Hr as [_ Hr].
    destruct (N.eqb (lower1 p) (lower1 x)); [intros [<-|[]]; exact Hr | intros []].
  - intros H. apply in_app_or in H as [H|H]; [now apply IHa | now apply IHc].
  - destruct lazy.
    + intros [<-|H]; [exact Hr | now apply IHm].
    + intros H. apply in_app_or in H as [H|[<-|[]]]; [now apply IHm | exact Hr].
Qed.

Lemma match_seq_latin1 (ns : list Re.node) :
  forallb latin1_node ns = true ->
  forall st, latin1_text (snd st) = true ->
    @Re.match_seq U ns st = @Re.match_seq latin1 ns st.
Proof.
  induction ns as [|n ns IH]; intros Hns [b rest] Hr; [reflexivity|].
  simpl in Hns. apply andb_true_iff in Hns as [Hn Hns].
  cbn [Re.match_seq]. rewrite (step_latin1 n b rest Hn Hr).
  apply existsb_ext_in. intros st' Hst'. apply (IH Hns).
  now apply (step_rest_latin1 n (b, rest) st' Hr).
Qed.

Lemma search_latin1 (ns : list Re.node) (s : str) :
  forallb latin1_node ns = true -> latin1_text s = true ->
  @Re.search U ns s = @Re.search latin1 ns s.
Proof.
  intros Hns Hs. unfold Re.search.
  assert (H : forall b, @Re.search_from U ns b s = @Re.search_from latin1 ns b s);
    [|apply H].
  induction s as [|x r IH]; intros b; cbn [Re.search_from].
  - f_equal. now apply (match_seq_latin1 ns Hns).
  - f_equal; [now apply (match_seq_latin1 ns Hns)|].
    unfold latin1_text in Hs. simpl in Hs. apply andb_true_iff in Hs as [_ Hs].
    apply (IH Hs).
Qed.

Lemma coarse_check_latin1 (line_text phrase_text : str) :
  latin1_text line_text = true -> latin1_text phrase_text = true ->
  @coarse_check U line_text phrase_text
  = @coarse_check latin1 line_text phrase_text.
Proof.
  intros Hl Hp. unfold coarse_check.
  destruct (normalize_text_latin1 _ Hl) as [-> Hl'].
  destruct (normalize_text_latin1 _ Hp) as [-> Hp'].
  apply search_latin1; [|exact Hl'].
  unfold Pattern.full. cbn [forallb latin1_node andb].
  rewrite forallb_app, (nodes_of_latin1 _ Hp'). reflexivity.
Qed.

(** On Latin-1 input the locator returns what it returns with the
    [latin1] tables. *)
Lemma find_phrase_positions_latin1 (line_text phrase_text : str)
    (line_words : list word_record) :
  latin1_text line_text = true -> latin1_text phrase_text = true ->
  latin1_words line_words = true ->
  @find_phrase_positions U line_text phrase_text line_words
  = @find_phrase_positions latin1 line_text phrase_text line_words.
Proof.
  intros Hl Hp Hw. rewrite !find_phrase_positions_locate. unfold locate.
  rewrite (expression_words_latin1 _ Hp), (normalized_latin1 _ Hw),
    (coarse_check_latin1 _ _ Hl Hp).
  reflexivity.
Qed.
End Latin1.

(** ** Windows and tokens *)

Lemma In_firstn {A : Type} (k : nat) (l : list A) (x : A) :
  In x (firstn k l) -> In x l.
Proof.
  revert l; induction k as [|k IH]; intros [|a l]; simpl; try tauto.
  intros [H|H]; [now left | right; now apply IH].
Qed.

Lemma In_skipn {A : Type} (k : nat) (l : list A) (x : A) :
  In x (skipn k l) -> In x l.
Proof.
  revert l; induction k as [|k IH]; intros [|a l]; simpl; try tauto.
  intros H. right. now apply IH.
Qed.

Lemma window_positions_In (k i : nat) (ws : list normalized_word) (p : Z) :
  In p (window_positions k (skipn i ws)) -> exists w, In w ws /\ position w = p.
Proof.
  unfold window_positions. rewrite in_map_iff. intros (w & Hp & Hw).
  exists w. split; [|exact Hp]. now apply In_firstn, In_skipn in Hw.
Qed.

Lemma all_match_nth (test : str -> str -> bool) (pws : list str)
    (ws : list normalized_word) :
  all_match test pws ws = true ->
  forall j pw, nth_error pws j = Some pw ->
    exists w, nth_error ws j = Some w /\ test pw (norm w) = true.
Proof.
  revert ws; induction pws as [|pw0 pws IH]; intros ws Hm j pw Hj.
  - destruct j; discriminate.
  - destruct ws as [|w ws]; [discriminate|].
    simpl in Hm. apply andb_true_iff in Hm as [H0 Hm].
    destruct j as [|j]; simpl in *.
    + injection Hj as <-. now exists w.
    + now apply (IH ws Hm).
Qed.

Lemma first_exact_some (target : str) (ws : list normalized_word) (s e : Z) :
  first_exact target ws = Some (s, e) ->
  s = e /\ exists w, In w ws /\ norm w = target /\ position w = s.
Proof.
  induction ws as [|w ws IH]; simpl; [discriminate|].
  destruct (str_eqb (norm w) target) eqn:E.
  - intros H. injection H as <- <-. split; [reflexivity|].
    exists w. apply str_eqb_eq in E. repeat split; [now left | assumption].
  - intros H. destruct (IH H) as [-> (w' & Hin & Hn & Hp)].
    split; [reflexivity|]. exists w'. repeat split; [now right | assumption..].
Qed.

(** The first token whose normalized text is the target gives the span. *)
Lemma first_exact_first (target : str) (pre post : list normalized_word)
    (w : normalized_word) :
  norm w = target -> (forall w', In w' pre -> norm w' <> target) ->
  first_exact target (pre ++ w :: post) = Some (position w, position w).
Proof.
  intros Hw. induction pre as [|a pre IH]; intros Hpre; simpl.
  - rewrite Hw, str_eqb_refl. reflexivity.
  - destruct (str_eqb (norm a) target) eqn:E.
    + apply str_eqb_eq in E. exfalso. apply (Hpre a); [now left | exact E].
    + apply IH. intros w' Hw'. apply Hpre. now right.
Qed.

Lemma first_exact_none (target : str) (ws : list normalized_word) :
  (forall w, In w ws -> norm w <> target) -> first_exact target ws = None.
Proof.
  induction ws as [|a ws IH]; intros H; simpl; [reflexivity|].
  destruct (str_eqb (norm a) target) eqn:E.
  - apply str_eqb_eq in E. exfalso. apply (H a); [now left | exact E].
  - apply IH. intros w Hw. apply H. now right.
Qed.

Lemma normalized_app {U : Unicode} (a b : list word_record) :
  normalized (a ++ b) = normalized a ++ normalized b.
Proof. unfold normalized. apply map_app. Qed.

Lemma normalized_position {U : Unicode} (line_words : list word_record)
    (w : normalized_word) :
  In w (normalized line_words) ->
  In (position w) (map word_position line_words).
Proof.
  intros H. apply normalized_In in H as (r & Hr & _ & ->). now apply in_map.
Qed.

(** ** The containment check is the delimited occurrence *)

Import Occurrence.

Lemma match_final {U : Unicode} (b : bool) (post : str) :
  isword NEWLINE = false ->
  Re.match_seq [Re.Branch Re.At_end Re.Not_word] (b, post) = true
  <-> boundary_after post.
Proof.
  intros Hnl. cbn [Re.match_seq Re.step]. rewrite existsb_app, orb_true_iff.
  unfold boundary_after. split.
  - intros [H|H].
    + destruct post as [|c [|d r]]; [now left | | discriminate].
      right. exists c, []. split; [reflexivity|].
      destruct (N.eqb_spec c NEWLINE) as [->|_]; [exact Hnl | discriminate].
    + destruct post as [|c r]; [discriminate|].
      right. exists c, r. split; [reflexivity|].
      destruct (isword c); [discriminate | reflexivity].
  - intros [->|(c & r & -> & Hc)]; [now left|].
    right. now rewrite Hc.
Qed.

Lemma match_phrase_spec {U : Unicode} (p : str) :
  isword NEWLINE = false -> ~ In BACKSLASH p ->
  forall b t,
    Re.match_seq (Pattern.nodes_of p ++ [Re.Branch Re.At_end Re.Not_word]) (b, t)
    = true
    <-> exists mid post,
          t = mid ++ post /\ optional_apostrophes p mid /\ boundary_after post.
Proof.
  intros Hnl. induction p as [|c r IH]; intros Hbs b t.
  - change (Pattern.nodes_of [] ++ [Re.Branch Re.At_end Re.Not_word])
      with [Re.Branch Re.At_end Re.Not_word].
    rewrite (match_final b t Hnl). split.
    + intros H. exists [], t. repeat split; [constructor | exact H].
    + intros (mid & post & -> & Hoa & Hpost). inversion Hoa. exact Hpost.
  - assert (Hc : N.eqb c BACKSLASH = false).
    { apply N.eqb_neq. intros ->. apply Hbs. now left. }
    assert (Hr : ~ In BACKSLASH r) by (intros H; apply Hbs; now right).
    specialize (IH Hr).
    rewrite nodes_of_plain by exact Hc.
    destruct (N.eqb_spec c APOSTROPHE) as [->|Hne].
    + cbn [app Re.match_seq]. cbn [Re.step].
      rewrite existsb_app, orb_true_iff. cbn [existsb]. rewrite orb_false_r.
      split.
      * intros [H|H].
        -- destruct t as [|d t']; [discriminate|].
           destruct (icase_eq APOSTROPHE d) eqn:Hd; [|discriminate].
           cbn [existsb] in H. rewrite orb_false_r in H.
           apply IH in H as (mid & post & -> & Hoa & Hpost).
           exists (d :: mid), post. repeat split; [|exact Hpost].
           now apply oa_present.
        -- apply IH in H as (mid & post & -> & Hoa & Hpost).
           exists mid, post. repeat split; [|exact Hpost]. now apply oa_absent.
      * intros (mid & post & -> & Hoa & Hpost).
        inversion Hoa as [|c0 d p0 t0 Hc0|d p0 t0 Hd Hoa'|p0 t0 Hoa'];
          subst; [congruence | left | right].
        -- cbn [app]. rewrite Hd. cbn [existsb]. rewrite orb_false_r.
           apply IH. now exists t0, post.
        -- apply IH. now exists mid, post.
    + cbn [app Re.match_seq]. cbn [Re.step]. split.
      * intros H. destruct t as [|d t']; [discriminate|].
        destruct (icase_eq c d) eqn:Hd; [|discriminate].
        cbn [existsb] in H. rewrite orb_false_r in H.
        apply IH in H as (mid & post & -> & Hoa & Hpost).
        exists (d :: mid), post. repeat split; [|exact Hpost].
        now apply oa_char.
      * intros (mid & post & -> & Hoa & Hpost).
        inversion Hoa as [|c0 d p0 t0 Hc0 Hd Hoa'|d p0 t0 Hd Hoa'|p0 t0 Hoa'];
          subst; [|congruence|congruence].
        cbn [app]. rewrite Hd. cbn [existsb]. rewrite orb_false_r.
        apply IH. now exists t0, post.
Qed.

Lemma search_from_spec {U : Unicode} (ns : list Re.node) (l : str) :
  forall b,
    Re.search_from ns b l = true
    <-> exists pre rest,
          l = pre ++ rest
          /\ Re.match_seq ns (match pre with [] => b | _ :: _ => false end, rest)
             = true.
Proof.
  induction l as [|x r IH]; intros b; cbn [Re.search_from];
    rewrite orb_true_iff.
  - split.
    + intros [H|H]; [|discriminate]. now exists [], [].
    + intros (pre & rest & E & H). left.
      destruct pre; [|discriminate]. simpl in E. now subst.
  - rewrite IH. split.
    + intros [H|(pre & rest & -> & H)].
      * now exists [], (x :: r).
      * exists (x :: pre), rest. split; [reflexivity|]. now destruct pre.
    + intros (pre & rest & E & H). destruct pre as [|y pre].
      * left. simpl in E. now subst.
      * right. injection E as -> ->. exists pre, rest.
        split; [reflexivity|]. now destruct pre.
Qed.

(** For a phrase without backslash the check of the code is the delimited
    occurrence of the normalized phrase in the normalized line. *)
Lemma coarse_check_occurrence {U : Unicode} (line_text phrase_text : str) :
  isword NEWLINE = false ->
  ~ In BACKSLASH (normalize_text phrase_text) ->
  coarse_check line_text phrase_text = true
  <-> delimited_occurrence (normalize_text line_text) (normalize_text phrase_text).
Proof.
  intros Hnl Hbs. unfold coarse_check, Re.search, Pattern.full.
  rewrite search_from_spec. unfold delimited_occurrence. split.
  - intros (pre & rest & -> & H).
    cbn [Re.match_seq] in H. apply existsb_exists in H as (st & Hst & Hm).
    cbn [Re.step] in Hst. apply in_app_or in Hst as [Hst|Hst].
    + destruct pre as [|y pre]; [|destruct Hst].
      destruct Hst as [<-|[]].
      apply (match_phrase_spec _ Hnl Hbs) in Hm as (mid & post & -> & Hoa & Hpost).
      exists [], mid, post. repeat split; try assumption. now left.
    + destruct rest as [|c rest]; [destruct Hst|].
      destruct (isword c) eqn:Hc; [destruct Hst|].
      destruct Hst as [<-|[]].
      apply (match_phrase_spec _ Hnl Hbs) in Hm as (mid & post & -> & Hoa & Hpost).
      exists (pre ++ [c]), mid, post. repeat split; try assumption.
      * now rewrite <- app_assoc.
      * right. now exists pre, c.
  - intros (pre & mid & post & -> & Hpre & Hpost & Hoa).
    assert (Hm : forall b,
      Re.match_seq (Pattern.nodes_of (normalize_text phrase_text)
                    ++ [Re.Branch Re.At_end Re.Not_word]) (b, mid ++ post) = true).
    { intros b. apply (match_phrase_spec _ Hnl Hbs). now exists mid, post. }
    destruct Hpre as [->|(pre' & c & -> & Hc)].
    + exists [], (mid ++ post). split; [reflexivity|].
      cbn [Re.match_seq]. apply existsb_exists. exists (true, mid ++ post).
      split; [|apply Hm]. cbn [Re.step]. apply in_or_app. left. now left.
    + exists pre', (c :: mid ++ post). split; [now rewrite <- app_assoc|].
      cbn [Re.match_seq]. apply existsb_exists. exists (false, mid ++ post).
      split; [|apply Hm]. cbn [Re.step]. apply in_or_app. right.
      rewrite Hc. now left.
Qed.


(** ** Two facts shared by several claims *)

(** When the line is consulted and the check fails, nothing is found. *)
Lemma not_found_when_check_fails {U : Unicode} (line_text phrase_text : str)
    (line_words : list word_record) :
  coarse_check line_text phrase_text = false ->
  (forall target, expression_words phrase_text = [target] ->
     (3 <= List.length target)%nat) ->
  find_phrase_positions line_text phrase_text line_words = Ok None.
Proof.
  intros Hcheck Hlong.
  rewrite find_phrase_positions_locate. unfold locate. rewrite Hcheck.
  destruct line_words as [|w0 ws]; [reflexivity|].
  destruct (expression_words phrase_text) as [|target [|pw2 pws]];
    try reflexivity.
  specialize (Hlong target eq_refl).
  apply Nat.ltb_ge in Hlong. now rewrite Hlong.
Qed.

(** A short single word is looked up in the tokens by exact equality. *)
Lemma short_word_lookup {U : Unicode} (line_text phrase_text target : str)
    (line_words : list word_record) :
  expression_words phrase_text = [target] ->
  (List.length target < 3)%nat ->
  (forall pre w post,
     line_words = pre ++ w :: post ->
     normalize_for_search (word_text w) = target ->
     (forall w', In w' pre -> normalize_for_search (word_text w') <> target) ->
     find_phrase_positions line_text phrase_text line_words
     = Ok (Some (word_position w, word_position w)))
  /\ ((forall w, In w line_words ->
         normalize_for_search (word_text w) <> target) ->
      find_phrase_positions line_text phrase_text line_words = Ok None).
Proof.
  intros Hw Hlen. apply Nat.ltb_lt in Hlen.
  rewrite find_phrase_positions_locate. unfold locate. rewrite Hw, Hlen.
  split.
  - intros pre w post -> Hn Hpre.
    destruct (pre ++ w :: post) as [|x xs] eqn:E;
      [destruct pre; discriminate|].
    rewrite <- E, normalized_app. f_equal.
    change (normalized (w :: post))
      with ({| norm := normalize_for_search (word_text w);
               original := lower (word_text w);
               position := word_position w |} :: normalized post).
    rewrite first_exact_first; [reflexivity | exact Hn |].
    intros w' Hw'. apply normalized_In in Hw' as (r & Hr & -> & _).
    now apply Hpre.
  - intros Hnone. destruct line_words as [|x xs]; [reflexivity|].
    f_equal. apply first_exact_none.
    intros w Hin. apply normalized_In in Hin as (r & Hr & -> & _).
    now apply Hnone.
Qed.


(** * The claims *)

(** C6.  Whenever the locator returns a span [(s, e)], then [s <= e] and both
    are positions of tokens of the supplied list; for a single-word
    expression [s = e]; for a multi-word expression there is a matching window
    whose token positions have [s] as their minimum and [e] as their maximum.
    Nothing is assumed about the positions. *)
Theorem span_invariant {U : Unicode} (line_text phrase_text : str)
    (line_words : list word_record) (s e : Z) :
  find_phrase_positions line_text phrase_text line_words = Ok (Some (s, e)) ->
  (s <= e)%Z
  /\ In s (map word_position line_words)
  /\ In e (map word_position line_words)
  /\ (List.length (expression_words phrase_text) = 1%nat -> s = e)
  /\ ((2 <= List.length (expression_words phrase_text))%nat ->
      exists i,
        window_matches (expression_words phrase_text) (normalized line_words) i
        = true
        /\ In s (window_positions (List.length (expression_words phrase_text))
                   (skipn i (normalized line_words)))
        /\ In e (window_positions (List.length (expression_words phrase_text))
                   (skipn i (normalized line_words)))
        /\ forall p,
             In p (window_positions (List.length (expression_words phrase_text))
                     (skipn i (normalized line_words))) ->
             (s <= p <= e)%Z).
Proof.
  rewrite find_phrase_positions_locate. intros H. injection H as H.
  unfold locate in H.
  destruct line_words as [|w0 ws]; [discriminate|].
  pose proof (expression_words_spec phrase_text) as Hwords.
  destruct (expression_words phrase_text) as [|target [|pw2 pws]] eqn:Ew;
    [discriminate| |].
  - assert (Hfirst : first_exact target (normalized (w0 :: ws)) = Some (s, e)).
    { destruct (List.length target <? 3)%nat; [exact H|].
      destruct (coarse_check line_text phrase_text); [|discriminate].
      rewrite first_contraction_exact in H; [exact H | |].
      - apply Hwords. now left.
      - apply normalized_no_apostrophe. }
    apply first_exact_some in Hfirst as [<- (w & Hin & _ & Hp)].
    apply normalized_position in Hin. rewrite Hp in Hin.
    repeat split; try assumption; try lia. simpl. lia.
  - destruct (coarse_check line_text phrase_text); [|discriminate].
    apply leftmost_some in H as (i & _ & Hm & _ & Hsp).
    apply span_of_spec in Hsp as (Hs & He & Hall).
    assert (Hpos : forall p,
      In p (window_positions (List.length (target :: pw2 :: pws))
              (skipn i (normalized (w0 :: ws)))) ->
      In p (map word_position (w0 :: ws))).
    { intros p Hp. apply window_positions_In in Hp as (w & Hw & <-).
      now apply normalized_position. }
    split; [destruct (Hall s Hs); lia|].
    split; [now apply Hpos|]. split; [now apply Hpos|].
    split; [simpl; discriminate|].
    intros _. exists i. now repeat split; try apply Hall.
Qed.

Lemma span_invariant_witness :
  @find_phrase_positions latin1 Scenario.casa_line (lit "pa' la casa")
    Scenario.casa_tokens = Ok (Some (5, 7)%Z)
  /\ (5 <= 7)%Z
  /\ In 5%Z (map word_position Scenario.casa_tokens)
  /\ In 7%Z (map word_position Scenario.casa_tokens).
Proof.
  assert (H : @find_phrase_positions latin1 Scenario.casa_line
                (lit "pa' la casa") Scenario.casa_tokens = Ok (Some (5, 7)%Z))
    by (vm_compute; reflexivity).
  split; [exact H|].
  destruct (@span_invariant latin1 _ _ _ _ _ H) as (H1 & H2 & H3 & _).
  repeat split; assumption.
Defined.

Lemma latin1_python : python_latin1 latin1.
Proof. split; intros; reflexivity. Qed.

(** C1, as stated, fails: two windows of the tokens match "tener que ver",
    but the line text has a comma the tokens do not carry, the containment
    check rejects the line and nothing is returned. *)
Lemma leftmost_window_needs_containment :
  window_matches (@expression_words latin1 (lit "tener que ver"))
    (@normalized latin1 Scenario.tener_tokens) 0 = true
  /\ window_matches (@expression_words latin1 (lit "tener que ver"))
       (@normalized latin1 Scenario.tener_tokens) 4 = true
  /\ @find_phrase_positions latin1 Scenario.tener_line_comma
       (lit "tener que ver") Scenario.tener_tokens = Ok None.
Proof. vm_compute. repeat split. Qed.

(** C1, amended.  For an expression of two or more normalized words whose
    containment check on the line passes: if the window of tokens starting
    at index [i] matches and no window starting before [i] does, the locator
    returns the minimum and maximum of the positions of that window, however
    many later windows match.  With the tokens tener, que, ver, con, tener,
    que, ver at 1..7 and the line "tener que ver con tener que ver" the
    result is (1, 3). *)
Theorem leftmost_window {U : Unicode} (line_text phrase_text : str)
    (line_words : list word_record) (i : nat) :
  (2 <= List.length (expression_words phrase_text))%nat ->
  phrase_exists_in_line line_text phrase_text = Ok true ->
  window_matches (expression_words phrase_text) (normalized line_words) i = true ->
  (forall k, (k < i)%nat ->
     window_matches (expression_words phrase_text) (normalized line_words) k
     = false) ->
  exists s e,
    span_of (window_positions (List.length (expression_words phrase_text))
               (skipn i (normalized line_words))) = Some (s, e)
    /\ find_phrase_positions line_text phrase_text line_words = Ok (Some (s, e)).
Proof.
  intros Hlen Hcheck Hm Hfirst.
  rewrite phrase_exists_in_line_ok in Hcheck. injection Hcheck as Hcheck.
  rewrite find_phrase_positions_locate. unfold locate.
  unfold window_matches in *.
  assert (Hfit := all_match_length _ _ _ Hm).
  destruct line_words as [|w0 ws].
  { simpl in Hfit. rewrite skipn_nil in Hfit. simpl in Hfit. lia. }
  destruct (expression_words phrase_text) as [|target [|pw2 pws]];
    [simpl in Hlen; lia | simpl in Hlen; lia |].
  rewrite Hcheck.
  rewrite (leftmost_first word_match (target :: pw2 :: pws)) with (i := i);
    [| discriminate | exact Hm | exact Hfirst].
  destruct (window_positions (List.length (target :: pw2 :: pws))
              (skipn i (normalized (w0 :: ws)))) as [|p ps] eqn:E.
  - apply (f_equal (@List.length _)) in E.
    rewrite window_positions_length in E by exact Hfit. discriminate.
  - simpl. eexists. eexists. split; reflexivity.
Qed.

Lemma leftmost_window_witness :
  @find_phrase_positions latin1 Scenario.tener_line (lit "tener que ver")
    Scenario.tener_tokens = Ok (Some (1, 3)%Z).
Proof.
  destruct (@leftmost_window latin1 Scenario.tener_line (lit "tener que ver")
              Scenario.tener_tokens 0) as (s & e & Hsp & Hfind).
  - vm_compute. lia.
  - vm_compute. reflexivity.
  - vm_compute. reflexivity.
  - intros k Hk. lia.
  - vm_compute in Hsp. injection Hsp as <- <-. exact Hfind.
Defined.

(** C2.  An expression word of fewer than 3 normalized characters is matched
    by exact equality only.  The word test accepts a token for such a word
    only when their normalized texts are equal; a single-word expression of
    that kind returns the position of the first token whose normalized text
    equals it, whatever the line, and not-found when there is none; and in
    the window a multi-word match returns, every short word equals the
    normalized text of the token it is aligned with. *)
Theorem short_word_exact {U : Unicode} (line_text phrase_text : str)
    (line_words : list word_record) :
  (forall pw lw, (List.length pw < 3)%nat -> word_match pw lw = true -> lw = pw)
  /\ (forall target,
        expression_words phrase_text = [target] ->
        (List.length target < 3)%nat ->
        (forall pre w post,
           line_words = pre ++ w :: post ->
           normalize_for_search (word_text w) = target ->
           (forall w', In w' pre -> normalize_for_search (word_text w') <> target) ->
           find_phrase_positions line_text phrase_text line_words
           = Ok (Some (word_position w, word_position w)))
        /\ ((forall w, In w line_words ->
               normalize_for_search (word_text w) <> target) ->
            find_phrase_positions line_text phrase_text line_words = Ok None))
  /\ (forall s e,
        (2 <= List.length (expression_words phrase_text))%nat ->
        find_phrase_positions line_text phrase_text line_words = Ok (Some (s, e)) ->
        exists i,
          span_of (window_positions (List.length (expression_words phrase_text))
                     (skipn i (normalized line_words))) = Some (s, e)
          /\ forall j pw,
               nth_error (expression_words phrase_text) j = Some pw ->
               (List.length pw < 3)%nat ->
               exists w, nth_error (normalized line_words) (i + j) = Some w
                         /\ norm w = pw).
Proof.
  split; [|split].
  - intros pw lw Hlen. unfold word_match.
    apply Nat.ltb_lt in Hlen. rewrite Hlen. apply str_eqb_eq.
  - intros target Hw Hlen. now apply short_word_lookup.
  - intros s e Hlen. rewrite find_phrase_positions_locate. unfold locate.
    intros H. injection H as H.
    destruct line_words as [|w0 ws]; [discriminate|].
    destruct (expression_words phrase_text) as [|target [|pw2 pws]];
      [discriminate | simpl in Hlen; lia |].
    destruct (coarse_check line_text phrase_text); [|discriminate].
    apply leftmost_some in H as (i & _ & Hm & _ & Hsp).
    exists i. split; [exact Hsp|].
    intros j pw Hj Hshort.
    destruct (all_match_nth _ _ _ Hm j pw Hj) as (w & Hnth & Htest).
    rewrite nth_error_skipn in Hnth. exists w. split; [exact Hnth|].
    unfold word_match in Htest. apply Nat.ltb_lt in Hshort.
    rewrite Hshort in Htest. now apply str_eqb_eq.
Qed.

Lemma short_word_exact_witness :
  @find_phrase_positions latin1 (lit "la lava") (lit "la") Scenario.la_tokens
  = Ok (Some (1, 1)%Z).
Proof.
  destruct (@short_word_exact latin1 (lit "la lava") (lit "la")
              Scenario.la_tokens) as (_ & H & _).
  destruct (H (lit "la")) as [Hfound _].
  - vm_compute. reflexivity.
  - simpl. lia.
  - apply (Hfound [] (word "la" 1) [word "lava" 2]).
    + reflexivity.
    + vm_compute. reflexivity.
    + intros w' [].
Defined.

(** C3.  When the expression is a single word of at least 3 normalized
    characters or has several words, and the coarse containment check of
    the expression against the line fails, the locator returns not-found
    whatever the tokens are.  The check is [phrase_exists_in_line]; for an
    expression without backslash it fails exactly when the normalized line
    has no delimited occurrence of the normalized expression, apostrophes
    optional.  "casa" in "No voy a casar a nadie" is such a case. *)
Theorem boundary_rejection {U : Unicode} (line_text phrase_text : str)
    (line_words : list word_record) :
  (forall target, expression_words phrase_text = [target] ->
     (3 <= List.length target)%nat) ->
  (phrase_exists_in_line line_text phrase_text = Ok false ->
   find_phrase_positions line_text phrase_text line_words = Ok None)
  /\ (isword NEWLINE = false ->
      ~ In BACKSLASH (normalize_text phrase_text) ->
      ~ delimited_occurrence (normalize_text line_text)
          (normalize_text phrase_text) ->
      phrase_exists_in_line line_text phrase_text = Ok false
      /\ find_phrase_positions line_text phrase_text line_words = Ok None).
Proof.
  intros Hlong. split.
  - intros Hcheck.
    rewrite phrase_exists_in_line_ok in Hcheck. injection Hcheck as Hcheck.
    now apply not_found_when_check_fails.
  - intros Hnl Hbs Hocc.
    assert (Hcheck : coarse_check line_text phrase_text = false).
    { destruct (coarse_check line_text phrase_text) eqn:E; [|reflexivity].
      exfalso. apply Hocc. now apply coarse_check_occurrence. }
    split.
    + rewrite phrase_exists_in_line_ok. now f_equal.
    + now apply not_found_when_check_fails.
Qed.

Lemma boundary_rejection_witness :
  @find_phrase_positions latin1 Scenario.casar_line (lit "casa")
    Scenario.casar_tokens = Ok None
  /\ ~ @delimited_occurrence latin1
        (@normalize_text latin1 Scenario.casar_line)
        (@normalize_text latin1 (lit "casa")).
Proof.
  assert (Hocc : ~ @delimited_occurrence latin1
                   (@normalize_text latin1 Scenario.casar_line)
                   (@normalize_text latin1 (lit "casa"))).
  { intros H. apply (@coarse_check_occurrence latin1) in H.
    - vm_compute in H. discriminate.
    - reflexivity.
    - vm_compute. intros Hin.
      repeat (destruct Hin as [Hin|Hin]; [discriminate|]). exact Hin. }
  split; [|exact Hocc].
  destruct (@boundary_rejection latin1 Scenario.casar_line (lit "casa")
              Scenario.casar_tokens) as [_ H].
  - intros target Hw. vm_compute in Hw. injection Hw as <-. simpl. lia.
  - apply H; [reflexivity | | exact Hocc].
    vm_compute. intros Hin.
    repeat (destruct Hin as [Hin|Hin]; [discriminate|]). exact Hin.
Defined.

(** The check on an expression with a backslash before an apostrophe: the
    first [replace] takes the backslash that [re.escape] wrote for the
    backslash of the expression together with the apostrophe, so the pattern
    has lost the backslash.  The line "ab" has no occurrence of the
    expression a, backslash, apostrophe, b, and the expression is found. *)
Lemma backslash_apostrophe_found :
  @find_phrase_positions latin1 (lit "ab") Backslash_scenario.expression
    Backslash_scenario.tokens = Ok (Some (1, 1)%Z)
  /\ @phrase_exists_in_line latin1 (lit "ab") Backslash_scenario.expression
     = Ok true
  /\ ~ @delimited_occurrence latin1 (@normalize_text latin1 (lit "ab"))
         (@normalize_text latin1 Backslash_scenario.expression).
Proof.
  split; [vm_compute; reflexivity|]. split; [vm_compute; reflexivity|].
  intros (pre & mid & post & E & _ & _ & Hoa).
  change (@normalize_text latin1 (lit "ab")) with [97; 98]%N in E.
  change (@normalize_text latin1 Backslash_scenario.expression)
    with [97; 92; 39; 98]%N in Hoa.
  inversion Hoa as [|c d p t _ _ Hrest| |]; subst; clear Hoa.
  - inversion Hrest as [|c0 d0 p0 t0 _ Hcase _| |]; subst; clear Hrest.
    assert (Hin : In d0 [97; 98]%N).
    { rewrite E. apply in_or_app. right. right. now left. }
    destruct Hin as [<-|[<-|[]]]; vm_compute in Hcase; discriminate.
Qed.

(** The same with a line and its own words: the backslash of the line is
    followed by a comma, the expression "pa\' la casa" is accepted because of
    the "pa la casa" further on, and the first three words are returned. *)
Lemma backslash_apostrophe_casa_found :
  @find_phrase_positions latin1 Backslash_scenario.casa_line
    Backslash_scenario.casa_expression Backslash_scenario.casa_tokens
  = Ok (Some (1, 3)%Z)
  /\ @ImportLyrics.find_phrase_positions latin1 Backslash_scenario.casa_line
       Backslash_scenario.casa_expression Backslash_scenario.casa_tokens
     = Ok (Some (1, 3)%Z).
Proof. split; vm_compute; reflexivity. Qed.

Lemma adjacent_In {A : Type} (a b : list A) (x y : A) :
  In (x, y) (combine (a ++ x :: y :: b) (tl (a ++ x :: y :: b))).
Proof.
  induction a as [|z a IH]; [now left|].
  cbn [app tl]. destruct (a ++ x :: y :: b) as [|w l] eqn:E.
  - destruct a; discriminate.
  - right. exact IH.
Qed.

(** That line has no occurrence of the expression: its only backslash is
    followed by a comma. *)
Lemma backslash_apostrophe_casa_no_occurrence :
  ~ @delimited_occurrence latin1
      (@normalize_text latin1 Backslash_scenario.casa_line)
      (@normalize_text latin1 Backslash_scenario.casa_expression).
Proof.
  intros (pre & mid & post & E & _ & _ & Hoa).
  let v := eval vm_compute in
             (@normalize_text latin1 Backslash_scenario.casa_expression) in
  change (@normalize_text latin1 Backslash_scenario.casa_expression)
    with v in Hoa.
  assert (Hpair : exists a b d3 d4,
            mid = a ++ d3 :: d4 :: b
            /\ @icase_eq latin1 92%N d3 = true
            /\ (@icase_eq latin1 39%N d4 = true
                \/ @icase_eq latin1 32%N d4 = true)).
  { inversion Hoa as [|c1 d1 p1 t1 _ _ H1| |]; subst; clear Hoa.
    inversion H1 as [|c2 d2 p2 t2 _ _ H2| |]; subst; clear H1.
    inversion H2 as [|c3 d3 p3 t3 _ Hb H3| |]; subst; clear H2.
    inversion H3 as [|c4 d4 p4 t4 Hc4 _ _|d4 p4 t4 Hq _|p4 t4 H4]; subst;
      clear H3.
    - now contradiction Hc4.
    - exists [d1; d2], t4, d3, d4. repeat split; tauto.
    - inversion H4 as [|c5 d5 p5 t5 _ Hs _| |]; subst; clear H4.
      exists [d1; d2], t5, d3, d5. repeat split; tauto. }
  destruct Hpair as (a & b & d3 & d4 & -> & H3 & H4).
  rewrite <- !app_assoc, app_assoc in E. cbn [app] in E.
  pose proof (adjacent_In (pre ++ a) (b ++ post) d3 d4) as Hin.
  rewrite <- app_assoc in Hin. cbn [app] in Hin.
  replace (pre ++ a ++ d3 :: d4 :: b ++ post)
    with (@normalize_text latin1 Backslash_scenario.casa_line) in Hin.
  - vm_compute in Hin.
    repeat (destruct Hin as [Hin|Hin];
            [injection Hin as <- <-; vm_compute in H3; try discriminate;
             destruct H4 as [H4|H4]; vm_compute in H4; discriminate|]).
    exact Hin.
  - rewrite E. now rewrite <- !app_assoc.
Qed.

(** ** The containment check on an empty line *)







(** C4.  With a token list whose first token normalizing to "pa" is [w], the
    expression "pa'" and the expression "pa" both return the position of
    [w], whatever the line text; and the text "pa'" normalizes to "pa", so a
    token written "pa'" is such a token. *)
Theorem contraction_single_word {U : Unicode} (line_text : str)
    (pre post : list word_record) (w : word_record) :
  python_latin1 U ->
  normalize_for_search (word_text w) = lit "pa" ->
  (forall w', In w' pre -> normalize_for_search (word_text w') <> lit "pa") ->
  normalize_for_search (lit "pa'") = lit "pa"
  /\ find_phrase_positions line_text (lit "pa'") (pre ++ w :: post)
     = Ok (Some (word_position w, word_position w))
  /\ find_phrase_positions line_text (lit "pa") (pre ++ w :: post)
     = Ok (Some (word_position w, word_position w)).
Proof.
  intros HU Hw Hpre.
  assert (Hq : @expression_words U (lit "pa'") = [lit "pa"]).
  { rewrite (expression_words_latin1 HU) by reflexivity. reflexivity. }
  assert (Hp : @expression_words U (lit "pa") = [lit "pa"]).
  { rewrite (expression_words_latin1 HU) by reflexivity. reflexivity. }
  split; [|split].
  - destruct (normalize_for_search_latin1 HU (lit "pa'") eq_refl) as [-> _].
    reflexivity.
  - destruct (short_word_lookup line_text (lit "pa'") (lit "pa")
                (pre ++ w :: post) Hq) as [H _]; [simpl; lia|].
    now apply (H pre w post).
  - destruct (short_word_lookup line_text (lit "pa") (lit "pa")
                (pre ++ w :: post) Hp) as [H _]; [simpl; lia|].
    now apply (H pre w post).
Qed.

Lemma contraction_single_word_witness :
  @find_phrase_positions latin1 Scenario.casa_line (lit "pa'")
    [word "voy" 4; word "pa" 5; word "pa'" 6] = Ok (Some (5, 5)%Z)
  /\ @find_phrase_positions latin1 Scenario.casa_line (lit "pa")
       [word "voy" 4; word "pa'" 5] = Ok (Some (5, 5)%Z).
Proof.
  split.
  - destruct (@contraction_single_word latin1 Scenario.casa_line
                [word "voy" 4] [word "pa'" 6] (word "pa" 5) latin1_python)
      as (_ & H & _).
    + vm_compute. reflexivity.
    + intros w' [<-|[]]. vm_compute. discriminate.
    + exact H.
  - destruct (@contraction_single_word latin1 Scenario.casa_line
                [word "voy" 4] [] (word "pa'" 5) latin1_python)
      as (_ & _ & H).
    + vm_compute. reflexivity.
    + intros w' [<-|[]]. vm_compute. discriminate.
    + exact H.
Defined.

(** ** Malformed input *)

Lemma punctuation_latin1 (c : char) :
  In c PUNCTUATION -> is_latin1 c = true /\ lower1 c = c.
Proof.
  unfold PUNCTUATION. simpl.
  intros H. repeat (destruct H as [<-|H]; [now split|]). contradiction.
Qed.

Lemma punctuation_only_no_words {U : Unicode} (phrase_text : str) :
  python_latin1 U ->
  (forall c, In c phrase_text -> In c PUNCTUATION) ->
  expression_words phrase_text = [].
Proof.
  intros HU Hp.
  assert (Hl : latin1_text phrase_text = true).
  { apply latin1_text_In. intros c Hc. now apply punctuation_latin1, Hp. }
  rewrite (expression_words_latin1 HU _ Hl). unfold expression_words.
  destruct (@normalize_for_search latin1 phrase_text) as [|c r] eqn:E;
    [reflexivity|].
  exfalso.
  assert (Hc : In c (@normalize_for_search latin1 phrase_text))
    by (rewrite E; now left).
  apply normalize_for_search_In in Hc as (Hc & _ & Hm).
  unfold normalize_text in Hc. apply strip_In in Hc. simpl in Hc.
  apply in_map_iff in Hc as (x & <- & Hx).
  apply Hp in Hx. destruct (punctuation_latin1 x Hx) as [_ Hlow].
  rewrite Hlow in Hm. apply mem_In in Hx. congruence.
Qed.

Lemma blank_tokens_not_found {U : Unicode} (line_text phrase_text : str)
    (line_words : list word_record) :
  (forall w, In w line_words -> normalize_for_search (word_text w) = []) ->
  locate line_text phrase_text line_words = None.
Proof.
  intros Hblank. unfold locate.
  destruct line_words as [|w0 ws]; [reflexivity|].
  pose proof (expression_words_spec phrase_text) as Hwords.
  assert (Hnw : forall w, In w (normalized (w0 :: ws)) -> norm w = []).
  { intros w Hw. apply normalized_In in Hw as (r & Hr & -> & _).
    now apply Hblank. }
  destruct (expression_words phrase_text) as [|target [|pw2 pws]];
    [reflexivity | |].
  - destruct (Hwords target) as (Hne & Hap & _); [now left|].
    rewrite first_contraction_exact
      by (try exact Hap; apply normalized_no_apostrophe).
    rewrite first_exact_none.
    + destruct (List.length target <? 3)%nat; [reflexivity|].
      now destruct (coarse_check line_text phrase_text).
    + intros w Hw. rewrite (Hnw w Hw). congruence.
  - destruct (coarse_check line_text phrase_text); [|reflexivity].
    rewrite leftmost_exact.
    + apply leftmost_none; [discriminate|].
      intros w Hw pw Hpw. unfold exact_match. rewrite (Hnw w Hw).
      destruct (Hwords pw Hpw) as (Hne & _). now destruct pw.
    + intros pw Hpw. now apply Hwords.
    + apply normalized_no_apostrophe.
Qed.

(** C7.  The locator never raises: on every input it returns a value.  It
    returns not-found when the normalized expression has no word, which, with
    tables that agree with Python's on Latin-1, is the case of the empty
    expression and of an expression made of the marks the normalizer
    deletes; and when every token's text normalizes to the empty string. *)
Theorem graceful_degradation {U : Unicode} (line_text phrase_text : str)
    (line_words : list word_record) :
  (exists r, find_phrase_positions line_text phrase_text line_words = Ok r)
  /\ (expression_words phrase_text = [] ->
      find_phrase_positions line_text phrase_text line_words = Ok None)
  /\ (python_latin1 U -> phrase_text = [] ->
      find_phrase_positions line_text phrase_text line_words = Ok None)
  /\ (python_latin1 U -> (forall c, In c phrase_text -> In c PUNCTUATION) ->
      find_phrase_positions line_text phrase_text line_words = Ok None)
  /\ ((forall w, In w line_words -> normalize_for_search (word_text w) = []) ->
      find_phrase_positions line_text phrase_text line_words = Ok None).
Proof.
  assert (Hnone : expression_words phrase_text = [] ->
                  find_phrase_positions line_text phrase_text line_words = Ok None).
  { intros E. rewrite find_phrase_positions_locate. unfold locate. rewrite E.
    now destruct line_words. }
  split; [|split; [|split; [|split]]].
  - rewrite find_phrase_positions_locate. now eexists.
  - exact Hnone.
  - intros HU ->. apply Hnone. apply (punctuation_only_no_words [] HU).
    intros c [].
  - intros HU Hp. apply Hnone. now apply punctuation_only_no_words.
  - intros Hblank. rewrite find_phrase_positions_locate. f_equal.
    now apply blank_tokens_not_found.
Qed.

Lemma graceful_degradation_witness :
  @find_phrase_positions latin1 Scenario.casa_line [191; 33; 63; 46]%N
    Scenario.casa_tokens = Ok None
  /\ @find_phrase_positions latin1 Scenario.casa_line (lit "casa")
       [word "..." 1; word "'" 2] = Ok None.
Proof.
  split.
  - destruct (@graceful_degradation latin1 Scenario.casa_line
                [191; 33; 63; 46]%N Scenario.casa_tokens)
      as (_ & _ & _ & H & _).
    apply H; [exact latin1_python|]. intros c Hc. simpl in Hc. unfold PUNCTUATION. simpl.
    repeat (destruct Hc as [<-|Hc]; [tauto|]). contradiction.
  - destruct (@graceful_degradation latin1 Scenario.casa_line (lit "casa")
                [word "..." 1; word "'" 2])
      as (_ & _ & _ & _ & H).
    apply H. intros w [<-|[<-|[]]]; vm_compute; reflexivity.
Defined.

(** C8.  On "Tú tienes que irte pa' la casa ahora", with its eight words at
    positions 1 to 8, the expression "pa' la casa" is found at (5, 7), with
    any tables that agree with Python's on Latin-1. *)
Theorem end_to_end_scenario {U : Unicode} :
  python_latin1 U ->
  find_phrase_positions Scenario.casa_line (lit "pa' la casa")
    Scenario.casa_tokens = Ok (Some (5, 7)%Z).
Proof.
  intros HU. rewrite (find_phrase_positions_latin1 HU) by reflexivity.
  vm_compute. reflexivity.
Qed.

Lemma end_to_end_scenario_witness :
  @find_phrase_positions latin1 Scenario.casa_line (lit "pa' la casa")
    Scenario.casa_tokens = Ok (Some (5, 7)%Z).
Proof. apply (@end_to_end_scenario latin1). split; intros; reflexivity. Defined.

(** ** The copy in [import_lyrics.py] *)

Lemma import_lyrics_normalized {U : Unicode} (line_words : list word_record) :
  ImportLyrics.normalized line_words = map forget (normalized line_words).
Proof. unfold ImportLyrics.normalized, normalized. now rewrite map_map. Qed.

Lemma import_lyrics_first_exact (target : str) (ws : list normalized_word) :
  ImportLyrics.first_exact target (map forget ws) = first_exact target ws.
Proof.
  induction ws as [|w ws IH]; simpl; [reflexivity|].
  now destruct (str_eqb (norm w) target).
Qed.

Lemma import_lyrics_first_contraction (target : str) (ws : list normalized_word) :
  ImportLyrics.first_contraction target (map forget ws)
  = first_contraction target ws.
Proof.
  induction ws as [|w ws IH]; simpl; [reflexivity|].
  destruct (str_eqb (norm w) target); [reflexivity|].
  now destruct (str_eqb (Py.rstrip_chars [APOSTROPHE] target) (norm w)
                || str_eqb (Py.rstrip_chars [APOSTROPHE] (norm w)) target).
Qed.

Lemma import_lyrics_window (nw : list normalized_word) (i : nat)
    (pws : list str) :
  forall j acc,
    ImportLyrics.window (map forget nw) i j pws acc = window nw i j pws acc.
Proof.
  induction pws as [|pw pws IH]; intros j acc; simpl; [reflexivity|].
  unfold Py.index. rewrite nth_error_map.
  destruct (nth_error nw (i + j)) as [w|]; simpl; [|reflexivity].
  destruct (List.length pw <? 3)%nat.
  - destruct (str_eqb (norm w) pw); simpl; [apply IH | reflexivity].
  - destruct (str_eqb (norm w) pw
              || str_eqb (Py.rstrip_chars [APOSTROPHE] pw) (norm w)
              || str_eqb (Py.rstrip_chars [APOSTROPHE] (norm w)) pw); simpl;
      [apply IH | reflexivity].
Qed.

Lemma import_lyrics_scan (nw : list normalized_word) (pws : list str)
    (range : list nat) :
  ImportLyrics.scan (map forget nw) pws range = scan nw pws range.
Proof.
  induction range as [|i range IH]; simpl; [reflexivity|].
  rewrite length_map, import_lyrics_window, IH. reflexivity.
Qed.

(** C9.  The locator of the backfill script and the locator of the lyrics
    import script return the same result on every line text, expression and
    token list. *)
Theorem two_copies_agree {U : Unicode} (line_text phrase_text : str)
    (line_words : list word_record) :
  Backfill.find_phrase_positions line_text phrase_text line_words
  = ImportLyrics.find_phrase_positions line_text phrase_text line_words.
Proof.
  unfold Backfill.find_phrase_positions, ImportLyrics.find_phrase_positions.
  destruct line_words as [|w0 ws]; [reflexivity|].
  change (ImportLyrics.normalize_for_search phrase_text)
    with (normalize_for_search phrase_text).
  change (ImportLyrics.phrase_exists_in_line line_text phrase_text)
    with (phrase_exists_in_line line_text phrase_text).
  destruct (Py.split isspace (normalize_for_search phrase_text))
    as [|target pws]; [reflexivity|].
  rewrite import_lyrics_normalized, length_map.
  destruct (List.length (target :: pws) =? 1)%nat.
  - unfold Py.index. cbn [nth_error bind].
    rewrite import_lyrics_first_exact.
    destruct (List.length target <? 3)%nat; [reflexivity|].
    destruct (phrase_exists_in_line line_text phrase_text) as [found|err];
      [|reflexivity].
    cbn [bind]. now rewrite import_lyrics_first_contraction.
  - destruct (phrase_exists_in_line line_text phrase_text) as [found|err];
      [|reflexivity].
    cbn [bind]. now rewrite import_lyrics_scan.
Qed.

(** C10.  What holds of the claim and where the code departs from it.  A
    string produced by [normalize_for_search] has no ASCII apostrophe, so
    stripping trailing apostrophes from it is the identity, and the locator
    is the locator with exact normalized equality only.  But the right
    single quotation mark is not deleted: both [replace] calls delete the
    ASCII apostrophe, and a U+2019 that the text has after lower-casing,
    stripping and NFC is still in the normalized text; "pa" followed by
    U+2019 comes back as it is. *)
Theorem apostrophe_normalization {U : Unicode} (text : str) :
  ~ In APOSTROPHE (normalize_for_search text)
  /\ Py.rstrip_chars [APOSTROPHE] (normalize_for_search text)
     = normalize_for_search text
  /\ (forall line_text phrase_text line_words,
        find_phrase_positions line_text phrase_text line_words
        = find_exact line_text phrase_text line_words)
  /\ (In RSQUO (normalize_text text) -> In RSQUO (normalize_for_search text)).
Proof.
  split; [apply normalize_for_search_no_apostrophe|].
  split; [apply rstrip_apostrophe_id, normalize_for_search_no_apostrophe|].
  split; [intros; apply find_phrase_positions_exact|].
  intros H. apply normalize_for_search_In. split; [exact H|].
  split; [discriminate | reflexivity].
Qed.

Lemma apostrophe_normalization_witness :
  @normalize_for_search latin1 (lit "pa" ++ [RSQUO]) = lit "pa" ++ [RSQUO]
  /\ In RSQUO (@normalize_for_search latin1 (lit "pa" ++ [RSQUO])).
Proof.
  split; [vm_compute; reflexivity|].
  destruct (@apostrophe_normalization latin1 (lit "pa" ++ [RSQUO]))
    as (_ & _ & _ & H).
  apply H. vm_compute. tauto.
Defined.

(** ** The scenarios of the specification

    With any tables that agree with Python's on Latin-1. *)

Section Scenarios.
Context {U : Unicode}.
Hypothesis HU : python_latin1 U.

(** Leftmost policy: (1, 3), not (5, 7). *)
Lemma tener_que_ver_leftmost :
  find_phrase_positions Scenario.tener_line (lit "tener que ver")
    Scenario.tener_tokens = Ok (Some (1, 3)%Z).
Proof.
  rewrite (find_phrase_positions_latin1 HU) by reflexivity.
  vm_compute. reflexivity.
Qed.

(** Short-word exactness: "la" is found at 1, whatever the line. *)
Lemma la_not_in_lava (line_text : str) :
  find_phrase_positions line_text (lit "la") Scenario.la_tokens
  = Ok (Some (1, 1)%Z).
Proof.
  assert (Hw : @expression_words U (lit "la") = [lit "la"]).
  { rewrite (expression_words_latin1 HU) by reflexivity. reflexivity. }
  destruct (short_word_lookup line_text (lit "la") (lit "la")
              Scenario.la_tokens Hw) as [H _]; [simpl; lia|].
  apply (H [] (word "la" 1) [word "lava" 2]).
  - reflexivity.
  - destruct (normalize_for_search_latin1 HU (lit "la") eq_refl) as [E _].
    exact E.
  - intros w' [].
Qed.

(** Boundary rejection: "casa" is not found in "No voy a casar a nadie",
    whatever the tokens. *)
Lemma casa_not_in_casar (line_words : list word_record) :
  find_phrase_positions Scenario.casar_line (lit "casa") line_words = Ok None.
Proof.
  apply not_found_when_check_fails.
  - rewrite (coarse_check_latin1 HU) by reflexivity. reflexivity.
  - rewrite (expression_words_latin1 HU) by reflexivity.
    intros target H. injection H as <-. simpl. lia.
Qed.

(** Not-found scenario: "tener razon" is not in the line of the end-to-end
    scenario. *)
Lemma tener_razon_not_found :
  find_phrase_positions Scenario.casa_line (lit "tener raz" ++ [243%N] ++ lit "n")
    Scenario.casa_tokens = Ok None.
Proof.
  rewrite (find_phrase_positions_latin1 HU) by reflexivity.
  vm_compute. reflexivity.
Qed.

End Scenarios.

(** * The callers of the locator *)

(** ** A span the locator returns *)

Lemma locate_span {U : Unicode} (line_text phrase_text : str)
    (line_words : list word_record) (s e : Z) :
  locate line_text phrase_text line_words = Some (s, e) ->
  (s <= e)%Z /\ In s (map word_position line_words)
  /\ In e (map word_position line_words).
Proof.
  unfold locate. intros H.
  destruct line_words as [|w0 ws]; [discriminate|].
  pose proof (expression_words_spec phrase_text) as Hwords.
  destruct (expression_words phrase_text) as [|target [|pw2 pws]];
    [discriminate| |].
  - assert (Hfirst : first_exact target (normalized (w0 :: ws)) = Some (s, e)).
    { destruct (List.length target <? 3)%nat; [exact H|].
      destruct (coarse_check line_text phrase_text); [|discriminate].
      rewrite first_contraction_exact in H; [exact H | |].
      - apply Hwords. now left.
      - apply normalized_no_apostrophe. }
    apply first_exact_some in Hfirst as [<- (w & Hin & _ & Hp)].
    apply normalized_position in Hin. rewrite Hp in Hin.
    repeat split; try assumption. lia.
  - destruct (coarse_check line_text phrase_text); [|discriminate].
    apply leftmost_some in H as (i & _ & _ & _ & Hsp).
    apply span_of_spec in Hsp as (Hs & He & Hall).
    assert (Hpos : forall p,
      In p (window_positions (List.length (target :: pw2 :: pws))
              (skipn i (normalized (w0 :: ws)))) ->
      In p (map word_position (w0 :: ws))).
    { intros p Hp. apply window_positions_In in Hp as (w & Hw & <-).
      now apply normalized_position. }
    split; [destruct (Hall s Hs); lia|]. split; now apply Hpos.
Qed.

(** ** [process_song]: the loops *)

Section Song_loops.
Context {U : Unicode}.
Variable db : Song.database.

Lemma check_terms_spec (song_id : str) (line : Song.song_line) (text : str)
    (line_words : list word_record) (existing : list (str * str))
    (terms : list Song.term) :
  forall found records,
    Song.check_terms song_id line text line_words existing terms found records
    = Ok (rev (map Song.term_id
                 (filter (Song.hit existing line text line_words) terms))
          ++ found,
          records
          ++ Song.line_records song_id existing line text line_words terms).
Proof.
  induction terms as [|t rest IH]; intros found records.
  - simpl. now rewrite app_nil_r.
  - cbn [Song.check_terms Song.line_records flat_map filter].
    unfold Song.hit at 1.
    destruct (Song.pair_mem (Song.term_id t, Song.line_id line) existing).
    + rewrite IH. cbn [orb map rev app]. now rewrite <- app_assoc.
    + rewrite find_phrase_positions_locate. cbn [bind orb].
      destruct (locate text (Song.term_text t) line_words) as [[s e]|].
      * rewrite IH. cbn [map rev]. unfold Song.line_records.
        rewrite <- !app_assoc. reflexivity.
      * rewrite IH. reflexivity.
Qed.

Lemma scan_lines_spec (song_id : str) (phrases slang_terms : list Song.term)
    (existing_p existing_s : list (str * str)) (lines : list Song.song_line) :
  forall st,
    Song.scan_lines db song_id phrases slang_terms existing_p existing_s lines st
    = Ok {| Song.loop_errors := Song.loop_errors st ++ Song.words_errors db lines;
            Song.phrases_found :=
              Song.song_hits db existing_p phrases lines ++ Song.phrases_found st;
            Song.slang_found :=
              Song.song_hits db existing_s slang_terms lines
              ++ Song.slang_found st;
            Song.phrase_records :=
              Song.phrase_records st
              ++ Song.song_records db song_id existing_p phrases lines;
            Song.slang_records :=
              Song.slang_records st
              ++ Song.song_records db song_id existing_s slang_terms lines;
            Song.loop_calls := Song.loop_calls st ++ Song.words_calls lines |}.
Proof.
  induction lines as [|line rest IH]; intros st.
  - simpl. unfold Song.song_hits, Song.words_calls. simpl.
    rewrite !app_nil_r. now destruct st.
  - assert (Hhits : forall existing terms found,
      Song.song_hits db existing terms (line :: rest) ++ found
      = Song.song_hits db existing terms rest
        ++ (match Song.usable db line with
            | Some (text, line_words) =>
                rev (map Song.term_id
                       (filter (Song.hit existing line text line_words) terms))
            | None => []
            end ++ found)).
    { intros. unfold Song.song_hits. cbn [rev].
      rewrite flat_map_app. cbn [flat_map]. rewrite app_nil_r.
      now rewrite <- app_assoc. }
    rewrite !Hhits.
    cbn [Song.scan_lines Song.words_errors Song.song_records flat_map].
    assert (Hcalls : Song.words_calls (line :: rest)
                     = (if Song.has_text line
                        then [Song.Get_line_words (Song.line_id line)] else [])
                       ++ Song.words_calls rest).
    { unfold Song.words_calls. cbn [filter].
      now destruct (Song.has_text line). }
    rewrite Hcalls. clear Hcalls.
    unfold Song.usable, Song.has_text.
    destruct (Song.line_text line) as [[|c text]|].
    + rewrite IH. reflexivity.
    + destruct (Song.get_line_words db (Song.line_id line)) as [message|ws].
      * rewrite IH. cbn [Song.loop_errors Song.phrases_found Song.slang_found
                         Song.phrase_records Song.slang_records Song.loop_calls].
        rewrite <- !app_assoc. reflexivity.
      * rewrite !check_terms_spec. cbn [bind fst snd]. rewrite IH.
        cbn [Song.loop_errors Song.phrases_found Song.slang_found
             Song.phrase_records Song.slang_records Song.loop_calls].
        rewrite <- !app_assoc. reflexivity.
    + rewrite IH. reflexivity.
Qed.

End Song_loops.

(** ** [process_song]: the whole run *)

Section Song_run.
Context {U : Unicode}.
Variable db : Song.database.

Lemma insert_records_spec (t : Song.table) (what : string)
    (records : list Song.occurrence) (errs : list str) (calls : list Song.call) :
  Song.insert_records db t what records errs calls
  = (Song.inserted db t records,
     errs ++ Song.insert_errors db t what records,
     calls ++ Song.batch t records).
Proof.
  unfold Song.insert_records, Song.inserted, Song.insert_errors, Song.batch.
  destruct records as [|r rs]; [now rewrite !app_nil_r|].
  destruct (Song.insert db t (r :: rs)); [reflexivity | now rewrite app_nil_r].
Qed.

(** The run of a song whose phrases, slang terms and lines could be read and
    which has a line. *)
Lemma process_song_full (song_id song_title : str)
    (phrases slang_terms : list Song.term) (lines : list Song.song_line) :
  Song.get_song_phrases db song_id = inr phrases ->
  Song.get_song_slang db song_id = inr slang_terms ->
  Song.get_song_lines db song_id = inr lines ->
  lines <> [] ->
  let existing_p := Song.get_existing_phrase_occurrences db song_id in
  let existing_s := Song.get_existing_slang_occurrences db song_id in
  let recs_p := Song.song_records db song_id existing_p phrases lines in
  let recs_s := Song.song_records db song_id existing_s slang_terms lines in
  Song.process_song db song_id song_title
  = Ok ({| Song.title := song_title;
           Song.phrase_occurrences := Song.inserted db Song.Phrase_occurrences recs_p;
           Song.slang_occurrences := Song.inserted db Song.Slang_occurrences recs_s;
           Song.phrases_not_found :=
             Song.not_found phrases (Song.song_hits db existing_p phrases lines);
           Song.slang_not_found :=
             Song.not_found slang_terms
               (Song.song_hits db existing_s slang_terms lines);
           Song.errors :=
             (Song.words_errors db lines
              ++ Song.insert_errors db Song.Phrase_occurrences
                   "Failed to insert phrase occurrences: " recs_p)
             ++ Song.insert_errors db Song.Slang_occurrences
                  "Failed to insert slang occurrences: " recs_s |},
        (([Song.Get_song_phrases song_id; Song.Get_song_slang song_id;
           Song.Get_song_lines song_id;
           Song.Get_existing_phrase_occurrences song_id;
           Song.Get_existing_slang_occurrences song_id]
          ++ Song.words_calls lines)
         ++ Song.batch Song.Phrase_occurrences recs_p)
        ++ Song.batch Song.Slang_occurrences recs_s).
Proof.
  intros Hp Hs Hl Hne. cbv zeta. unfold Song.process_song.
  rewrite Hp, Hs, Hl. destruct lines as [|l0 ls]; [congruence|].
  rewrite scan_lines_spec. cbn [bind].
  cbn [Song.loop_errors Song.phrases_found Song.slang_found
       Song.phrase_records Song.slang_records Song.loop_calls app].
  rewrite !insert_records_spec, !app_nil_r. reflexivity.
Qed.

(** A run that stops before the lines are scanned asks for no words and
    writes nothing. *)
Lemma process_song_early (song_id song_title : str) :
  Song.stopped_early db song_id ->
  exists st calls,
    Song.process_song db song_id song_title = Ok (st, calls)
    /\ Song.phrase_occurrences st = 0%nat /\ Song.slang_occurrences st = 0%nat
    /\ Song.phrases_not_found st = [] /\ Song.slang_not_found st = []
    /\ (forall c, In c calls ->
          c = Song.Get_song_phrases song_id \/ c = Song.Get_song_slang song_id
          \/ c = Song.Get_song_lines song_id).
Proof.
  intros Hstop. unfold Song.stopped_early in Hstop. unfold Song.process_song.
  destruct (Song.get_song_phrases db song_id) as [m|phrases].
  { eexists. eexists. split; [reflexivity|]. repeat split.
    intros c [<-|[]]. now left. }
  destruct (Song.get_song_slang db song_id) as [m|slang_terms].
  { eexists. eexists. split; [reflexivity|]. repeat split.
    intros c [<-|[<-|[]]]; tauto. }
  destruct (Song.get_song_lines db song_id) as [m|[|l0 ls]].
  - eexists. eexists. split; [reflexivity|]. repeat split.
    intros c [<-|[<-|[<-|[]]]]; tauto.
  - eexists. eexists. split; [reflexivity|]. repeat split.
    intros c [<-|[<-|[<-|[]]]]; tauto.
  - exfalso. destruct Hstop as [[m H]|[[m H]|[[m H]|H]]]; discriminate.
Qed.

Lemma process_song_cases (song_id : str) :
  Song.stopped_early db song_id
  \/ exists phrases slang_terms lines,
       Song.get_song_phrases db song_id = inr phrases
       /\ Song.get_song_slang db song_id = inr slang_terms
       /\ Song.get_song_lines db song_id = inr lines
       /\ lines <> [].
Proof.
  unfold Song.stopped_early.
  destruct (Song.get_song_phrases db song_id) as [m|phrases];
    [left; left; eauto|].
  destruct (Song.get_song_slang db song_id) as [m|slang_terms];
    [left; right; left; eauto|].
  destruct (Song.get_song_lines db song_id) as [m|[|l0 ls]].
  - left; right; right; left; eauto.
  - tauto.
  - right. exists phrases, slang_terms, (l0 :: ls). now repeat split.
Qed.

End Song_run.

(** ** [process_song]: what is written and what is reported *)

Lemma str_mem_In (x : str) (s : list str) : Song.str_mem x s = true <-> In x s.
Proof.
  unfold Song.str_mem. rewrite existsb_exists. split.
  - intros (y & Hy & E). apply str_eqb_eq in E. now subst.
  - intros H. exists x. split; [exact H | apply str_eqb_refl].
Qed.

Section Song_facts.
Context {U : Unicode}.
Variable db : Song.database.

Lemma usable_spec (line : Song.song_line) (text : str)
    (line_words : list word_record) :
  Song.usable db line = Some (text, line_words)
  <-> Song.line_text line = Some text /\ text <> []
      /\ Song.get_line_words db (Song.line_id line) = inr line_words.
Proof.
  unfold Song.usable. destruct (Song.line_text line) as [[|c t]|].
  - split; [discriminate | intros (H & Hne & _)].
    injection H as <-. congruence.
  - destruct (Song.get_line_words db (Song.line_id line)) as [m|ws].
    + split; [discriminate | intros (_ & _ & H); discriminate].
    + split.
      * intros H. injection H as <- <-. now repeat split.
      * intros (H & _ & Hw). injection H as <-. injection Hw as <-. reflexivity.
  - split; [discriminate | intros (H & _); discriminate].
Qed.

Lemma song_records_In (song_id : str) (existing : list (str * str))
    (terms : list Song.term) (lines : list Song.song_line) (r : Song.occurrence) :
  In r (Song.song_records db song_id existing terms lines)
  <-> exists line t text line_words span,
        In line lines /\ In t terms
        /\ Song.usable db line = Some (text, line_words)
        /\ Song.pair_mem (Song.term_id t, Song.line_id line) existing = false
        /\ locate text (Song.term_text t) line_words = Some span
        /\ r = Song.record_of song_id line t span.
Proof.
  unfold Song.song_records. rewrite in_flat_map. split.
  - intros (line & Hline & Hr).
    destruct (Song.usable db line) as [[text ws]|] eqn:Eu; [|destruct Hr].
    unfold Song.line_records in Hr. apply in_flat_map in Hr as (t & Ht & Hr).
    destruct (Song.pair_mem (Song.term_id t, Song.line_id line) existing) eqn:Ee;
      [destruct Hr|].
    destruct (locate text (Song.term_text t) ws) as [span|] eqn:El;
      [|destruct Hr].
    destruct Hr as [<-|[]].
    exists line, t, text, ws, span. now repeat split.
  - intros (line & t & text & ws & span & Hline & Ht & Eu & Ee & El & ->).
    exists line. split; [exact Hline|]. rewrite Eu.
    unfold Song.line_records. apply in_flat_map. exists t.
    split; [exact Ht|]. rewrite Ee, El. now left.
Qed.

Lemma song_hits_In (existing : list (str * str)) (terms : list Song.term)
    (lines : list Song.song_line) (x : str) :
  In x (Song.song_hits db existing terms lines)
  <-> exists line t text line_words,
        In line lines /\ In t terms
        /\ Song.usable db line = Some (text, line_words)
        /\ Song.hit existing line text line_words t = true
        /\ Song.term_id t = x.
Proof.
  unfold Song.song_hits. rewrite in_flat_map. split.
  - intros (line & Hline & Hx). apply in_rev in Hline.
    destruct (Song.usable db line) as [[text ws]|] eqn:Eu; [|destruct Hx].
    apply in_rev, in_map_iff in Hx as (t & Hid & Ht).
    apply filter_In in Ht as [Ht Hhit].
    exists line, t, text, ws. now repeat split.
  - intros (line & t & text & ws & Hline & Ht & Eu & Hhit & <-).
    exists line. split; [now apply in_rev in Hline|]. rewrite Eu.
    apply in_rev. rewrite rev_involutive. apply in_map.
    apply filter_In. now split.
Qed.

(** What a run has written, read off its log. *)
Lemma process_song_inserts (song_id song_title : str) (st : Song.stats)
    (calls : list Song.call) (t : Song.table) (recs : list Song.occurrence) :
  Song.process_song db song_id song_title = Ok (st, calls) ->
  In (Song.Insert t recs) calls ->
  exists terms lines,
    Song.terms_for db t song_id = inr terms
    /\ Song.get_song_lines db song_id = inr lines
    /\ recs = Song.song_records db song_id (Song.existing_for db t song_id)
                terms lines
    /\ recs <> [].
Proof.
  intros Hrun Hin.
  destruct (process_song_cases db song_id) as [Hearly|Hfull].
  - destruct (process_song_early db song_id song_title Hearly)
      as (st' & calls' & Hrun' & _ & _ & _ & _ & Hcalls).
    rewrite Hrun in Hrun'. injection Hrun' as <- <-.
    destruct (Hcalls _ Hin) as [H|[H|H]]; discriminate.
  - destruct Hfull as (phrases & slang_terms & lines & Hp & Hs & Hl & Hne).
    rewrite (process_song_full db song_id song_title _ _ _ Hp Hs Hl Hne) in Hrun.
    injection Hrun as _ <-.
    cbn [app In] in Hin.
    do 5 (destruct Hin as [Hin|Hin]; [discriminate|]).
    apply in_app_or in Hin as [Hin|Hin];
      [apply in_app_or in Hin as [Hin|Hin]|].
    + unfold Song.words_calls in Hin. apply in_map_iff in Hin as (l & Hl' & _).
      discriminate.
    + unfold Song.batch in Hin.
      destruct (Song.song_records db song_id
                  (Song.get_existing_phrase_occurrences db song_id)
                  phrases lines) as [|r0 rs] eqn:E; [destruct Hin|].
      destruct Hin as [Hin|[]]. injection Hin as <- <-.
      exists phrases, lines. simpl. rewrite E. now repeat split.
    + unfold Song.batch in Hin.
      destruct (Song.song_records db song_id
                  (Song.get_existing_slang_occurrences db song_id)
                  slang_terms lines) as [|r0 rs] eqn:E; [destruct Hin|].
      destruct Hin as [Hin|[]]. injection Hin as <- <-.
      exists slang_terms, lines. simpl. rewrite E. now repeat split.
Qed.

End Song_facts.

(** X1.  Resuming: [process_song] writes no occurrence for a pair of term and
    line that is in the set [get_existing_phrase_occurrences] (for a slang
    term, [get_existing_slang_occurrences]) returned for the song.  That set
    is empty when the table could not be read: nothing is skipped then. *)
Theorem process_song_skips_existing {U : Unicode} (db : Song.database)
    (song_id song_title : str) (st : Song.stats) (calls : list Song.call)
    (t : Song.table) (recs : list Song.occurrence) (r : Song.occurrence) :
  Song.process_song db song_id song_title = Ok (st, calls) ->
  In (Song.Insert t recs) calls -> In r recs ->
  Song.pair_mem (Song.occ_term_id r, Song.occ_line_id r)
    (Song.existing_for db t song_id) = false.
Proof.
  intros Hrun Hin Hr.
  destruct (process_song_inserts db _ _ _ _ _ _ Hrun Hin)
    as (terms & lines & _ & _ & -> & _).
  apply song_records_In in Hr
    as (line & tm & text & ws & span & _ & _ & _ & He & _ & ->).
  exact He.
Qed.

Lemma process_song_skips_existing_witness :
  exists st calls,
    @Song.process_song latin1 Song_scenario.resumed_db (lit "s1") (lit "Song")
    = Ok (st, calls)
    /\ In (Song.Insert Song.Phrase_occurrences [Song_scenario.record_casa])
         calls
    /\ Song.existing_for Song_scenario.resumed_db Song.Phrase_occurrences
         (lit "s1") = [(lit "p1", lit "l3")]
    /\ Song.pair_mem (lit "p1", lit "l1")
         (Song.existing_for Song_scenario.resumed_db Song.Phrase_occurrences
            (lit "s1")) = false.
Proof.
  destruct (@Song.process_song latin1 Song_scenario.resumed_db (lit "s1")
              (lit "Song")) as [[st calls]|e] eqn:Hrun;
    [|vm_compute in Hrun; discriminate].
  assert (Hin : In (Song.Insert Song.Phrase_occurrences
                      [Song_scenario.record_casa]) calls).
  { vm_compute in Hrun. injection Hrun as _ <-. simpl. tauto. }
  exists st, calls. split; [reflexivity|]. split; [exact Hin|].
  split; [reflexivity|].
  apply (@process_song_skips_existing latin1 Song_scenario.resumed_db
           (lit "s1") (lit "Song") st calls Song.Phrase_occurrences
           [Song_scenario.record_casa] Song_scenario.record_casa Hrun Hin).
  now left.
Defined.

(** X2.  Every occurrence [process_song] writes comes from a line of the song
    that has a text and whose words could be read, and from a term linked to
    the song; its positions are those the locator returns for that term on
    that line, so they are positions of words of the line with
    start <= end. *)
Theorem process_song_records_sound {U : Unicode} (db : Song.database)
    (song_id song_title : str) (st : Song.stats) (calls : list Song.call)
    (t : Song.table) (recs : list Song.occurrence) (r : Song.occurrence) :
  Song.process_song db song_id song_title = Ok (st, calls) ->
  In (Song.Insert t recs) calls -> In r recs ->
  exists terms lines line tm text line_words,
    Song.terms_for db t song_id = inr terms /\ In tm terms
    /\ Song.get_song_lines db song_id = inr lines /\ In line lines
    /\ Song.line_text line = Some text /\ text <> []
    /\ Song.get_line_words db (Song.line_id line) = inr line_words
    /\ find_phrase_positions text (Song.term_text tm) line_words
       = Ok (Some (Song.start_position r, Song.end_position r))
    /\ Song.occ_term_id r = Song.term_id tm
    /\ Song.occ_line_id r = Song.line_id line
    /\ Song.occ_song_id r = song_id
    /\ Song.occ_section_id r = Song.section_id line
    /\ (Song.start_position r <= Song.end_position r)%Z
    /\ In (Song.start_position r) (map word_position line_words)
    /\ In (Song.end_position r) (map word_position line_words).
Proof.
  intros Hrun Hin Hr.
  destruct (process_song_inserts db _ _ _ _ _ _ Hrun Hin)
    as (terms & lines & Ht & Hl & -> & _).
  apply song_records_In in Hr
    as (line & tm & text & ws & [s e] & Hline & Htm & Hu & _ & Hloc & ->).
  apply usable_spec in Hu as (Htext & Hne & Hws).
  destruct (locate_span _ _ _ _ _ Hloc) as (Hle & Hs & He).
  exists terms, lines, line, tm, text, ws. simpl.
  rewrite find_phrase_positions_locate, Hloc. now repeat split.
Qed.

Lemma process_song_records_sound_witness :
  exists tm text line_words,
    @find_phrase_positions latin1 text (Song.term_text tm) line_words
    = Ok (Some (5, 7)%Z)
    /\ Song.term_id tm = lit "p1"
    /\ In 5%Z (map word_position line_words).
Proof.
  destruct (@Song.process_song latin1 Song_scenario.db (lit "s1") (lit "Song"))
    as [[st calls]|e] eqn:Hrun; [|vm_compute in Hrun; discriminate].
  destruct (@process_song_records_sound latin1 Song_scenario.db (lit "s1")
              (lit "Song") st calls Song.Phrase_occurrences
              [Song_scenario.record_casa] Song_scenario.record_casa Hrun)
    as (terms & lines & line & tm & text & ws & _ & _ & _ & _ & _ & _ & _
        & Hfind & Hid & _ & _ & _ & _ & Hs & _).
  - vm_compute in Hrun. injection Hrun as _ <-. simpl. tauto.
  - now left.
  - exists tm, text, ws. split; [exact Hfind|]. split; [|exact Hs].
    symmetry. exact Hid.
Defined.

(** X3.  When the phrases, the slang terms and the lines of a song can be
    read, every line with a text and readable words and every linked term
    that the locator finds on it and that has no occurrence yet on that line
    is written: a failure to read the words of another line does not stop
    the run. *)
Theorem process_song_records_complete {U : Unicode} (db : Song.database)
    (song_id song_title : str) (t : Song.table) (terms : list Song.term)
    (lines : list Song.song_line) (line : Song.song_line) (tm : Song.term)
    (text : str) (line_words : list word_record) (s e : Z) :
  (forall t', exists terms', Song.terms_for db t' song_id = inr terms') ->
  Song.terms_for db t song_id = inr terms ->
  Song.get_song_lines db song_id = inr lines ->
  In line lines -> In tm terms ->
  Song.line_text line = Some text -> text <> [] ->
  Song.get_line_words db (Song.line_id line) = inr line_words ->
  Song.pair_mem (Song.term_id tm, Song.line_id line)
    (Song.existing_for db t song_id) = false ->
  find_phrase_positions text (Song.term_text tm) line_words = Ok (Some (s, e)) ->
  exists st calls recs,
    Song.process_song db song_id song_title = Ok (st, calls)
    /\ In (Song.Insert t recs) calls
    /\ In (Song.record_of song_id line tm (s, e)) recs.
Proof.
  intros Hall Ht Hl Hline Htm Htext Hne Hws Hex Hfind.
  destruct (Hall Song.Phrase_occurrences) as (phrases & Hp).
  destruct (Hall Song.Slang_occurrences) as (slang_terms & Hs).
  simpl in Hp, Hs.
  assert (Hlines : lines <> []) by (intros ->; destruct Hline).
  rewrite (process_song_full db song_id song_title _ _ _ Hp Hs Hl Hlines).
  rewrite find_phrase_positions_locate in Hfind. injection Hfind as Hloc.
  assert (Hrec : In (Song.record_of song_id line tm (s, e))
                   (Song.song_records db song_id
                      (Song.existing_for db t song_id) terms lines)).
  { apply song_records_In. exists line, tm, text, line_words, (s, e).
    repeat split; try assumption. now apply usable_spec. }
  eexists. eexists.
  exists (Song.song_records db song_id (Song.existing_for db t song_id)
            terms lines).
  split; [reflexivity|]. split; [|exact Hrec].
  assert (Hbatch : In (Song.Insert t
                         (Song.song_records db song_id
                            (Song.existing_for db t song_id) terms lines))
                     (Song.batch t
                        (Song.song_records db song_id
                           (Song.existing_for db t song_id) terms lines))).
  { unfold Song.batch.
    destruct (Song.song_records db song_id (Song.existing_for db t song_id)
                terms lines); [destruct Hrec | now left]. }
  destruct t; cbn [Song.existing_for Song.terms_for] in *.
  - rewrite Hp in Ht. injection Ht as <-.
    apply in_or_app. left. apply in_or_app. right. exact Hbatch.
  - rewrite Hs in Ht. injection Ht as <-.
    apply in_or_app. right. exact Hbatch.
Qed.

Lemma process_song_records_complete_witness :
  exists st calls recs,
    @Song.process_song latin1 Song_scenario.db (lit "s1") (lit "Song")
    = Ok (st, calls)
    /\ In (Song.Insert Song.Phrase_occurrences recs) calls
    /\ In Song_scenario.record_casa recs.
Proof.
  apply (@process_song_records_complete latin1 Song_scenario.db (lit "s1")
           (lit "Song") Song.Phrase_occurrences
           [Song_scenario.phrase_casa; Song_scenario.phrase_prisa]
           [Song_scenario.line_casa; Song_scenario.line_null]
           Song_scenario.line_casa Song_scenario.phrase_casa
           Scenario.casa_line Scenario.casa_tokens 5 7).
  - intros [|]; eexists; reflexivity.
  - reflexivity.
  - reflexivity.
  - now left.
  - now left.
  - reflexivity.
  - discriminate.
  - reflexivity.
  - reflexivity.
  - vm_compute. reflexivity.
Defined.

(** X4.  When the phrases, the slang terms and the lines of a song can be
    read, the text of a linked term is reported as not found exactly when,
    on no line with a text and readable words, a term with its identifier
    has an occurrence already or is found by the locator. *)
Theorem process_song_not_found {U : Unicode} (db : Song.database)
    (song_id song_title : str) (t : Song.table) (terms : list Song.term)
    (lines : list Song.song_line) :
  (forall t', exists terms', Song.terms_for db t' song_id = inr terms') ->
  Song.terms_for db t song_id = inr terms ->
  Song.get_song_lines db song_id = inr lines -> lines <> [] ->
  exists st calls,
    Song.process_song db song_id song_title = Ok (st, calls)
    /\ forall txt,
         In txt (Song.not_found_for t st)
         <-> exists tm,
               In tm terms /\ Song.term_text tm = txt
               /\ forall line tm' text line_words,
                    In line lines -> In tm' terms ->
                    Song.term_id tm' = Song.term_id tm ->
                    Song.line_text line = Some text -> text <> [] ->
                    Song.get_line_words db (Song.line_id line)
                    = inr line_words ->
                    Song.pair_mem (Song.term_id tm', Song.line_id line)
                      (Song.existing_for db t song_id) = false
                    /\ find_phrase_positions text (Song.term_text tm')
                         line_words = Ok None.
Proof.
  intros Hall Ht Hl Hne.
  destruct (Hall Song.Phrase_occurrences) as (phrases & Hp).
  destruct (Hall Song.Slang_occurrences) as (slang_terms & Hs).
  simpl in Hp, Hs.
  rewrite (process_song_full db song_id song_title _ _ _ Hp Hs Hl Hne).
  eexists. eexists. split; [reflexivity|]. intros txt.
  assert (Hnf : forall st,
    Song.not_found_for t st
    = match t with
      | Song.Phrase_occurrences => Song.phrases_not_found st
      | Song.Slang_occurrences => Song.slang_not_found st
      end) by reflexivity.
  rewrite Hnf. clear Hnf.
  assert (Hlist :
    match t with
    | Song.Phrase_occurrences =>
        Song.not_found phrases
          (Song.song_hits db (Song.get_existing_phrase_occurrences db song_id)
             phrases lines)
    | Song.Slang_occurrences =>
        Song.not_found slang_terms
          (Song.song_hits db (Song.get_existing_slang_occurrences db song_id)
             slang_terms lines)
    end
    = Song.not_found terms
        (Song.song_hits db (Song.existing_for db t song_id) terms lines)).
  { destruct t; simpl in Ht |- *; congruence. }
  cbn [Song.phrases_not_found Song.slang_not_found]. rewrite Hlist.
  unfold Song.not_found. rewrite in_map_iff. split.
  - intros (tm & Htxt & Hin). apply filter_In in Hin as [Htm Hmem].
    apply negb_true_iff in Hmem.
    exists tm. split; [exact Htm|]. split; [exact Htxt|].
    intros line tm' text ws Hline Htm' Hid Htext Hnet Hws.
    assert (Hhit : Song.hit (Song.existing_for db t song_id) line text ws tm'
                   = false).
    { destruct (Song.hit (Song.existing_for db t song_id) line text ws tm')
        eqn:E; [|reflexivity].
      exfalso. assert (Hin : In (Song.term_id tm)
                              (Song.song_hits db (Song.existing_for db t song_id)
                                 terms lines)).
      { apply song_hits_In. exists line, tm', text, ws.
        repeat split; try assumption. now apply usable_spec. }
      apply str_mem_In in Hin. congruence. }
    unfold Song.hit in Hhit. apply orb_false_iff in Hhit as [He Hloc].
    split; [exact He|]. rewrite find_phrase_positions_locate.
    now destruct (locate text (Song.term_text tm') ws).
  - intros (tm & Htm & Htxt & Hnone).
    exists tm. split; [exact Htxt|]. apply filter_In. split; [exact Htm|].
    apply negb_true_iff.
    destruct (Song.str_mem (Song.term_id tm)
                (Song.song_hits db (Song.existing_for db t song_id) terms lines))
      eqn:E; [|reflexivity].
    exfalso. apply str_mem_In, song_hits_In in E
      as (line & tm' & text & ws & Hline & Htm' & Hu & Hhit & Hid).
    apply usable_spec in Hu as (Htext & Hnet & Hws).
    destruct (Hnone line tm' text ws Hline Htm' Hid Htext Hnet Hws)
      as [He Hfind].
    rewrite find_phrase_positions_locate in Hfind. injection Hfind as Hloc.
    unfold Song.hit in Hhit. rewrite He, Hloc in Hhit. discriminate.
Qed.

Lemma process_song_not_found_witness :
  exists st calls,
    @Song.process_song latin1 Song_scenario.db (lit "s1") (lit "Song")
    = Ok (st, calls)
    /\ In (lit "tener prisa") (Song.phrases_not_found st).
Proof.
  destruct (@process_song_not_found latin1 Song_scenario.db (lit "s1")
              (lit "Song") Song.Phrase_occurrences
              [Song_scenario.phrase_casa; Song_scenario.phrase_prisa]
              [Song_scenario.line_casa; Song_scenario.line_null])
    as (st & calls & Hrun & Hnf).
  - intros [|]; eexists; reflexivity.
  - reflexivity.
  - reflexivity.
  - discriminate.
  - exists st, calls. split; [exact Hrun|].
    vm_compute in Hrun. injection Hrun as <- _. simpl. now left.
Defined.

Lemma process_song_count {U : Unicode} (db : Song.database)
    (song_id song_title : str) (st : Song.stats) (calls : list Song.call)
    (t : Song.table) :
  Song.process_song db song_id song_title = Ok (st, calls) ->
  Song.count_for t st = 0%nat
  \/ exists recs u,
       In (Song.Insert t recs) calls /\ Song.insert db t recs = inr u
       /\ Song.count_for t st = List.length recs.
Proof.
  intros Hrun.
  destruct (process_song_cases db song_id) as [Hearly|Hfull].
  - destruct (process_song_early db song_id song_title Hearly)
      as (st' & calls' & Hrun' & Hp & Hs & _).
    rewrite Hrun in Hrun'. injection Hrun' as <- <-.
    left. now destruct t.
  - destruct Hfull as (phrases & slang_terms & lines & Hp & Hs & Hl & Hne).
    rewrite (process_song_full db song_id song_title _ _ _ Hp Hs Hl Hne) in Hrun.
    injection Hrun as <- <-.
    assert (Hins : forall t' recs,
      Song.inserted db t' recs = 0%nat
      \/ exists u, In (Song.Insert t' recs) (Song.batch t' recs)
                   /\ Song.insert db t' recs = inr u
                   /\ Song.inserted db t' recs = List.length recs).
    { intros t' recs. unfold Song.inserted, Song.batch.
      destruct recs as [|r rs]; [now left|].
      destruct (Song.insert db t' (r :: rs)) as [m|u]; [now left|].
      right. exists u. repeat split. now left. }
    destruct t; cbn [Song.count_for Song.phrase_occurrences
                     Song.slang_occurrences].
    + destruct (Hins Song.Phrase_occurrences
                  (Song.song_records db song_id
                     (Song.get_existing_phrase_occurrences db song_id)
                     phrases lines)) as [H0|(u & Hin & Hok & Hn)];
        [now left|].
      right. eexists. exists u. split; [|split; [exact Hok | exact Hn]].
      cbn [app In]. do 5 right.
      apply in_or_app. left. apply in_or_app. right. exact Hin.
    + destruct (Hins Song.Slang_occurrences
                  (Song.song_records db song_id
                     (Song.get_existing_slang_occurrences db song_id)
                     slang_terms lines)) as [H0|(u & Hin & Hok & Hn)];
        [now left|].
      right. eexists. exists u. split; [|split; [exact Hok | exact Hn]].
      cbn [app In]. do 5 right.
      apply in_or_app. right. exact Hin.
Qed.

Lemma filter_none {A : Type} (f : A -> bool) (l : list A) :
  (forall x, In x l -> f x = false) -> filter f l = [].
Proof.
  induction l as [|x l IH]; intros H; [reflexivity|]. simpl.
  rewrite (H x (or_introl eq_refl)). apply IH. intros y Hy. apply H.
  now right.
Qed.

Lemma batch_inserts (t t' : Song.table) (recs : list Song.occurrence) :
  (List.length (filter (Song.is_insert t) (Song.batch t' recs))
   <= match t, t' with
      | Song.Phrase_occurrences, Song.Phrase_occurrences
      | Song.Slang_occurrences, Song.Slang_occurrences => 1
      | _, _ => 0
      end)%nat.
Proof.
  unfold Song.batch. destruct recs as [|r rs]; [destruct t, t'; simpl; lia|].
  destruct t, t'; simpl; lia.
Qed.

(** X5.  What [process_song] writes: never an empty batch, at most one batch
    for each of the two tables (one request at most, not only one content),
    and a count in the statistics that is not zero only when the batch of
    that table was accepted, in which case it is the number of its
    records. *)
Theorem process_song_writes {U : Unicode} (db : Song.database)
    (song_id song_title : str) (st : Song.stats) (calls : list Song.call) :
  Song.process_song db song_id song_title = Ok (st, calls) ->
  (forall t recs, In (Song.Insert t recs) calls -> recs <> [])
  /\ (forall t recs recs',
        In (Song.Insert t recs) calls -> In (Song.Insert t recs') calls ->
        recs = recs')
  /\ (forall t, Song.count_for t st <> 0%nat ->
        exists recs u,
          In (Song.Insert t recs) calls /\ Song.insert db t recs = inr u
          /\ Song.count_for t st = List.length recs)
  /\ (forall t,
        (List.length (filter (Song.is_insert t) calls) <= 1)%nat).
Proof.
  intros Hrun. split; [|split; [|split]].
  - intros t recs Hin.
    now destruct (process_song_inserts db _ _ _ _ _ _ Hrun Hin)
      as (terms & lines & _ & _ & _ & Hne).
  - intros t recs recs' Hin Hin'.
    destruct (process_song_inserts db _ _ _ _ _ _ Hrun Hin)
      as (terms & lines & Ht & Hl & -> & _).
    destruct (process_song_inserts db _ _ _ _ _ _ Hrun Hin')
      as (terms' & lines' & Ht' & Hl' & -> & _).
    congruence.
  - intros t Hcount.
    destruct (process_song_count db _ _ _ _ t Hrun) as [H0|H]; [congruence|].
    exact H.
  - intros t. destruct (process_song_cases db song_id) as [Hearly|Hfull].
    + destruct (process_song_early db song_id song_title Hearly)
        as (st' & calls' & Hrun' & _ & _ & _ & _ & Hcalls).
      rewrite Hrun in Hrun'. injection Hrun' as <- <-.
      rewrite filter_none; [simpl; lia|].
      intros c Hc. destruct (Hcalls c Hc) as [-> | [-> | ->]]; now destruct t.
    + destruct Hfull as (phrases & slang_terms & lines & Hp & Hs & Hl & Hne).
      rewrite (process_song_full db song_id song_title _ _ _ Hp Hs Hl Hne)
        in Hrun.
      injection Hrun as _ <-. cbn [app].
      assert (Hwords : filter (Song.is_insert t) (Song.words_calls lines) = []).
      { apply filter_none. intros c Hc. unfold Song.words_calls in Hc.
        apply in_map_iff in Hc as (l & <- & _). now destruct t. }
      pose proof (batch_inserts t Song.Phrase_occurrences
                    (Song.song_records db song_id
                       (Song.get_existing_phrase_occurrences db song_id)
                       phrases lines)) as H1.
      pose proof (batch_inserts t Song.Slang_occurrences
                    (Song.song_records db song_id
                       (Song.get_existing_slang_occurrences db song_id)
                       slang_terms lines)) as H2.
      destruct t; cbn [filter Song.is_insert];
        rewrite !filter_app, !length_app, Hwords; cbn [List.length]; lia.
Qed.

Lemma process_song_writes_witness :
  exists st calls,
    @Song.process_song latin1 Song_scenario.db (lit "s1") (lit "Song")
    = Ok (st, calls)
    /\ (forall t recs, In (Song.Insert t recs) calls -> recs <> []).
Proof.
  destruct (@Song.process_song latin1 Song_scenario.db (lit "s1") (lit "Song"))
    as [[st calls]|e] eqn:Hrun; [|vm_compute in Hrun; discriminate].
  exists st, calls. split; [reflexivity|].
  now destruct (@process_song_writes latin1 Song_scenario.db (lit "s1")
                  (lit "Song") st calls Hrun) as [H _].
Defined.

(** X6.  The words of a line are asked for exactly when the song's phrases,
    slang terms and lines could be read and the line has a text: never for a
    line whose text is null or empty. *)
Theorem process_song_word_requests {U : Unicode} (db : Song.database)
    (song_id song_title : str) (st : Song.stats) (calls : list Song.call)
    (l : str) :
  Song.process_song db song_id song_title = Ok (st, calls) ->
  In (Song.Get_line_words l) calls
  <-> exists phrases slang_terms lines line,
        Song.get_song_phrases db song_id = inr phrases
        /\ Song.get_song_slang db song_id = inr slang_terms
        /\ Song.get_song_lines db song_id = inr lines
        /\ In line lines /\ Song.line_id line = l
        /\ exists c text, Song.line_text line = Some (c :: text).
Proof.
  intros Hrun.
  assert (Htext : forall line,
    Song.has_text line = true
    <-> exists c text, Song.line_text line = Some (c :: text)).
  { intros line. unfold Song.has_text.
    destruct (Song.line_text line) as [[|c text]|]; split;
      try discriminate; try (intros (c' & text' & H); discriminate).
    - intros _. now exists c, text.
    - reflexivity. }
  destruct (process_song_cases db song_id) as [Hearly|Hfull].
  - destruct (process_song_early db song_id song_title Hearly)
      as (st' & calls' & Hrun' & _ & _ & _ & _ & Hcalls).
    rewrite Hrun in Hrun'. injection Hrun' as <- <-. split.
    + intros Hin. destruct (Hcalls _ Hin) as [H|[H|H]]; discriminate.
    + intros (phrases & slang_terms & lines & line & Hp & Hs & Hl & Hline & _).
      exfalso. unfold Song.stopped_early in Hearly.
      rewrite Hp, Hs, Hl in Hearly.
      destruct Hearly as [[m H]|[[m H]|[[m H]|H]]]; try discriminate.
      injection H as ->. destruct Hline.
  - destruct Hfull as (phrases & slang_terms & lines & Hp & Hs & Hl & Hne).
    rewrite (process_song_full db song_id song_title _ _ _ Hp Hs Hl Hne) in Hrun.
    injection Hrun as _ <-. split.
    + intros Hin. cbn [app In] in Hin.
      do 5 (destruct Hin as [Hin|Hin]; [discriminate|]).
      apply in_app_or in Hin as [Hin|Hin];
        [apply in_app_or in Hin as [Hin|Hin]|].
      * unfold Song.words_calls in Hin.
        apply in_map_iff in Hin as (line & Hid & Hline).
        injection Hid as Hid. apply filter_In in Hline as [Hline Ht].
        exists phrases, slang_terms, lines, line.
        repeat split; try assumption. now apply Htext.
      * unfold Song.batch in Hin.
        destruct (Song.song_records _ _ _ _ _); [destruct Hin|].
        destruct Hin as [Hin|[]]. discriminate.
      * unfold Song.batch in Hin.
        destruct (Song.song_records _ _ _ _ _); [destruct Hin|].
        destruct Hin as [Hin|[]]. discriminate.
    + intros (phrases' & slang' & lines' & line & _ & _ & Hl' & Hline & Hid & Ht).
      rewrite Hl in Hl'. injection Hl' as <-.
      cbn [app In]. do 5 right.
      apply in_or_app. left. apply in_or_app. left.
      unfold Song.words_calls. apply in_map_iff. exists line.
      split; [now rewrite Hid|]. apply filter_In. split; [exact Hline|].
      now apply Htext.
Qed.

Lemma process_song_word_requests_witness :
  exists st calls,
    @Song.process_song latin1 Song_scenario.db (lit "s1") (lit "Song")
    = Ok (st, calls)
    /\ In (Song.Get_line_words (lit "l1")) calls
    /\ ~ In (Song.Get_line_words (lit "l2")) calls.
Proof.
  destruct (@Song.process_song latin1 Song_scenario.db (lit "s1") (lit "Song"))
    as [[st calls]|e] eqn:Hrun; [|vm_compute in Hrun; discriminate].
  exists st, calls. split; [reflexivity|]. split.
  - apply (@process_song_word_requests latin1 Song_scenario.db (lit "s1")
             (lit "Song") st calls (lit "l1") Hrun).
    exists [Song_scenario.phrase_casa; Song_scenario.phrase_prisa],
      [Song_scenario.slang_pa],
      [Song_scenario.line_casa; Song_scenario.line_null],
      Song_scenario.line_casa.
    repeat split; [now left|]. now exists 84%N, (tl Scenario.casa_line).
  - intros Hin.
    apply (@process_song_word_requests latin1 Song_scenario.db (lit "s1")
             (lit "Song") st calls (lit "l2") Hrun) in Hin
      as (p & s & ls & line & _ & _ & Hl & Hline & Hid & c & text & Ht).
    injection Hl as <-.
    destruct Hline as [<-|[<-|[]]]; [discriminate Hid | discriminate Ht].
Defined.

Lemma process_song_returns {U : Unicode} (db : Song.database)
    (song_id song_title : str) :
  exists st calls, Song.process_song db song_id song_title = Ok (st, calls).
Proof.
  destruct (process_song_cases db song_id) as [Hearly|Hfull].
  - destruct (process_song_early db song_id song_title Hearly)
      as (st & calls & Hrun & _).
    now exists st, calls.
  - destruct Hfull as (phrases & slang_terms & lines & Hp & Hs & Hl & Hne).
    rewrite (process_song_full db song_id song_title _ _ _ Hp Hs Hl Hne).
    eexists. eexists. reflexivity.
Qed.

(** ** [detect_occurrences_for_song] *)

Lemma import_lyrics_find_locate {U : Unicode} (line_text phrase_text : str)
    (line_words : list word_record) :
  ImportLyrics.find_phrase_positions line_text phrase_text line_words
  = Ok (locate line_text phrase_text line_words).
Proof.
  rewrite <- find_phrase_positions_locate.
  unfold Backfill.find_phrase_positions, ImportLyrics.find_phrase_positions.
  destruct line_words as [|w0 ws]; [reflexivity|].
  change (ImportLyrics.normalize_for_search phrase_text)
    with (normalize_for_search phrase_text).
  change (ImportLyrics.phrase_exists_in_line line_text phrase_text)
    with (phrase_exists_in_line line_text phrase_text).
  destruct (Py.split isspace (normalize_for_search phrase_text))
    as [|target pws]; [reflexivity|].
  rewrite import_lyrics_normalized, length_map.
  destruct (List.length (target :: pws) =? 1)%nat.
  - unfold Py.index. cbn [nth_error bind].
    rewrite import_lyrics_first_exact.
    destruct (List.length target <? 3)%nat; [reflexivity|].
    destruct (phrase_exists_in_line line_text phrase_text) as [found|err];
      [|reflexivity].
    cbn [bind]. now rewrite import_lyrics_first_contraction.
  - destruct (phrase_exists_in_line line_text phrase_text) as [found|err];
      [|reflexivity].
    cbn [bind]. now rewrite import_lyrics_scan.
Qed.

Section Detect_facts.
Context {U : Unicode}.
Variable db : Detect.database.

Lemma detect_check_terms_spec (song_id : str) (line : Song.song_line)
    (text : str) (line_words : list word_record) (terms : list Song.term) :
  forall records,
    Detect.check_terms song_id line text line_words terms records
    = Ok (records ++ Detect.line_records song_id line text line_words terms).
Proof.
  induction terms as [|t rest IH]; intros records.
  - simpl. now rewrite app_nil_r.
  - cbn [Detect.check_terms Detect.line_records flat_map].
    rewrite import_lyrics_find_locate. cbn [bind].
    destruct (locate text (Song.term_text t) line_words) as [[s e]|].
    + rewrite IH. unfold Detect.line_records. now rewrite <- !app_assoc.
    + rewrite IH. reflexivity.
Qed.

Lemma detect_scan_lines_spec (song_id : str)
    (phrases slang_terms : list Song.term) (lines : list Song.song_line) :
  forall phrase_records slang_records calls,
    Detect.scan_lines db song_id phrases slang_terms lines phrase_records
      slang_records calls
    = Ok (phrase_records ++ Detect.song_records db song_id phrases lines,
          slang_records ++ Detect.song_records db song_id slang_terms lines,
          calls ++ Song.words_calls lines).
Proof.
  induction lines as [|line rest IH]; intros pr sr calls.
  - simpl. unfold Song.words_calls. simpl. now rewrite !app_nil_r.
  - assert (Hcalls : Song.words_calls (line :: rest)
                     = (if Song.has_text line
                        then [Song.Get_line_words (Song.line_id line)] else [])
                       ++ Song.words_calls rest).
    { unfold Song.words_calls. cbn [filter].
      now destruct (Song.has_text line). }
    rewrite Hcalls. clear Hcalls.
    cbn [Detect.scan_lines Detect.song_records flat_map].
    unfold Song.has_text.
    destruct (Song.line_text line) as [[|c text]|].
    + rewrite IH. reflexivity.
    + rewrite !detect_check_terms_spec. cbn [bind]. rewrite IH.
      unfold Detect.line_records. rewrite <- !app_assoc. reflexivity.
    + rewrite IH. reflexivity.
Qed.

End Detect_facts.

Section Detect_run.
Context {U : Unicode}.
Variable db : Detect.database.

(** The run of a song whose phrases and slang terms could be read. *)
Lemma detect_full (song_id song_title : str)
    (phrases slang_terms : list Song.term) (lines : list Song.song_line) :
  Detect.get_song_phrases_for_detection db song_id = inr phrases ->
  Detect.get_song_slang_for_detection db song_id = inr slang_terms ->
  let recs_p := Detect.song_records db song_id phrases lines in
  let recs_s := Detect.song_records db song_id slang_terms lines in
  let calls :=
    [Song.Get_song_phrases song_id; Song.Get_song_slang song_id]
    ++ Song.words_calls lines in
  Detect.detect_occurrences_for_song db song_id song_title lines
  = Ok (match Detect.phrase_failure db recs_p with
        | Some message =>
            ({| Detect.title := song_title;
                Detect.phrase_occurrences := 0;
                Detect.slang_occurrences := 0;
                Detect.error :=
                  Some (lit "Failed to insert phrase occurrences: "
                        ++ message) |},
             calls ++ Song.batch Song.Phrase_occurrences recs_p)
        | None =>
            ({| Detect.title := song_title;
                Detect.phrase_occurrences := List.length recs_p;
                Detect.slang_occurrences :=
                  match Detect.slang_failure db recs_s with
                  | Some _ => 0%nat
                  | None => List.length recs_s
                  end;
                Detect.error :=
                  match Detect.slang_failure db recs_s with
                  | Some message =>
                      Some (lit "Failed to insert slang occurrences: "
                            ++ message)
                  | None => None
                  end |},
             (calls ++ Song.batch Song.Phrase_occurrences recs_p)
             ++ Song.batch Song.Slang_occurrences recs_s)
        end).
Proof.
  intros Hp Hs. cbv zeta. unfold Detect.detect_occurrences_for_song.
  rewrite Hp, Hs, detect_scan_lines_spec. cbn [bind app].
  unfold Detect.phrase_failure, Detect.slang_failure, Song.batch.
  destruct (Detect.song_records db song_id phrases lines) as [|p ps];
    [|destruct (Detect.insert db Song.Phrase_occurrences (p :: ps))];
    try reflexivity;
    (destruct (Detect.song_records db song_id slang_terms lines) as [|s ss];
     [|destruct (Detect.insert db Song.Slang_occurrences (s :: ss))]);
    cbn [List.length]; rewrite ?app_nil_r; reflexivity.
Qed.

Lemma detect_song_records_In (song_id : str) (terms : list Song.term)
    (lines : list Song.song_line) (r : Song.occurrence) :
  In r (Detect.song_records db song_id terms lines)
  <-> exists line tm c text span,
        In line lines /\ In tm terms
        /\ Song.line_text line = Some (c :: text)
        /\ locate (c :: text) (Song.term_text tm)
             (Detect.get_line_words_for_detection db (Song.line_id line))
           = Some span
        /\ r = Song.record_of song_id line tm span.
Proof.
  unfold Detect.song_records. rewrite in_flat_map. split.
  - intros (line & Hline & Hr).
    destruct (Song.line_text line) as [[|c text]|] eqn:Et;
      [destruct Hr| |destruct Hr].
    apply in_flat_map in Hr as (tm & Htm & Hr).
    destruct (locate (c :: text) (Song.term_text tm)
                (Detect.get_line_words_for_detection db (Song.line_id line)))
      as [span|] eqn:El; [|destruct Hr].
    destruct Hr as [<-|[]]. exists line, tm, c, text, span. now repeat split.
  - intros (line & tm & c & text & span & Hline & Htm & Et & El & ->).
    exists line. split; [exact Hline|]. rewrite Et.
    apply in_flat_map. exists tm. split; [exact Htm|]. rewrite El. now left.
Qed.

End Detect_run.

Lemma detect_inserts {U : Unicode} (db : Detect.database)
    (song_id song_title : str) (lines : list Song.song_line)
    (st : Detect.stats) (calls : list Song.call) (t : Song.table)
    (recs : list Song.occurrence) :
  Detect.detect_occurrences_for_song db song_id song_title lines
  = Ok (st, calls) ->
  In (Song.Insert t recs) calls ->
  exists phrases slang_terms terms,
    Detect.get_song_phrases_for_detection db song_id = inr phrases
    /\ Detect.get_song_slang_for_detection db song_id = inr slang_terms
    /\ Detect.terms_for db t song_id = inr terms
    /\ recs = Detect.song_records db song_id terms lines
    /\ recs <> []
    /\ (t = Song.Slang_occurrences ->
        Detect.phrase_failure db
          (Detect.song_records db song_id phrases lines) = None).
Proof.
  intros Hrun Hin.
  destruct (Detect.get_song_phrases_for_detection db song_id)
    as [m|phrases] eqn:Hp.
  { unfold Detect.detect_occurrences_for_song in Hrun. rewrite Hp in Hrun.
    injection Hrun as _ <-. destruct Hin as [Hin|[]]. discriminate. }
  destruct (Detect.get_song_slang_for_detection db song_id)
    as [m|slang_terms] eqn:Hs.
  { unfold Detect.detect_occurrences_for_song in Hrun. rewrite Hp, Hs in Hrun.
    injection Hrun as _ <-. destruct Hin as [Hin|[Hin|[]]]; discriminate. }
  rewrite (detect_full db song_id song_title _ _ lines Hp Hs) in Hrun.
  assert (Hbatch : forall t' rs,
    In (Song.Insert t recs) (Song.batch t' rs) ->
    t = t' /\ recs = rs /\ rs <> []).
  { intros t' rs H. unfold Song.batch in H. destruct rs; [destruct H|].
    destruct H as [H|[]]. injection H as <- <-. now repeat split. }
  assert (Hwords : ~ In (Song.Insert t recs) (Song.words_calls lines)).
  { intros H. unfold Song.words_calls in H.
    apply in_map_iff in H as (l & H & _). discriminate. }
  exists phrases, slang_terms.
  destruct (Detect.phrase_failure db
              (Detect.song_records db song_id phrases lines)) as [m|] eqn:Hf;
    injection Hrun as _ <-; cbn [app In] in Hin;
    do 2 (destruct Hin as [Hin|Hin]; [discriminate|]).
  - apply in_app_or in Hin as [Hin|Hin]; [contradiction|].
    apply Hbatch in Hin as (-> & -> & Hne).
    exists phrases. repeat split; try assumption. discriminate.
  - apply in_app_or in Hin as [Hin|Hin];
      [apply in_app_or in Hin as [Hin|Hin]; [contradiction|]|].
    + apply Hbatch in Hin as (-> & -> & Hne).
      exists phrases. repeat split; try assumption.
    + apply Hbatch in Hin as (-> & -> & Hne).
      exists slang_terms. now repeat split.
Qed.

(** X8.  [detect_occurrences_for_song] stops at a failed insertion of the
    phrase occurrences: the error is recorded, both counts stay 0 and the
    slang occurrences are not sent at all. *)
Theorem detect_stops_at_failed_insert {U : Unicode} (db : Detect.database)
    (song_id song_title : str) (lines : list Song.song_line)
    (st : Detect.stats) (calls : list Song.call)
    (recs : list Song.occurrence) (message : str) :
  Detect.detect_occurrences_for_song db song_id song_title lines
  = Ok (st, calls) ->
  In (Song.Insert Song.Phrase_occurrences recs) calls ->
  Detect.insert db Song.Phrase_occurrences recs = inl message ->
  Detect.error st
  = Some (lit "Failed to insert phrase occurrences: " ++ message)
  /\ Detect.phrase_occurrences st = 0%nat
  /\ Detect.slang_occurrences st = 0%nat
  /\ forall recs', ~ In (Song.Insert Song.Slang_occurrences recs') calls.
Proof.
  intros Hrun Hin Hfail.
  destruct (detect_inserts db _ _ _ _ _ _ _ Hrun Hin)
    as (phrases & slang_terms & terms & Hp & Hs & Ht & -> & Hne & _).
  simpl in Ht. rewrite Hp in Ht. injection Ht as <-.
  assert (Hf : Detect.phrase_failure db
                 (Detect.song_records db song_id phrases lines) = Some message).
  { unfold Detect.phrase_failure.
    destruct (Detect.song_records db song_id phrases lines); [congruence|].
    now rewrite Hfail. }
  split; [|split; [|split]].
  - rewrite (detect_full db song_id song_title _ _ lines Hp Hs), Hf in Hrun.
    now injection Hrun as <- _.
  - rewrite (detect_full db song_id song_title _ _ lines Hp Hs), Hf in Hrun.
    now injection Hrun as <- _.
  - rewrite (detect_full db song_id song_title _ _ lines Hp Hs), Hf in Hrun.
    now injection Hrun as <- _.
  - intros recs' Hin'.
    destruct (detect_inserts db _ _ _ _ _ _ _ Hrun Hin')
      as (phrases' & _ & _ & Hp' & _ & _ & _ & _ & Hnone).
    rewrite Hp in Hp'. injection Hp' as <-.
    rewrite Hnone in Hf by reflexivity. discriminate.
Qed.

Lemma detect_stops_at_failed_insert_witness :
  exists st calls,
    @Detect.detect_occurrences_for_song latin1
      (Detect.of_song Song_scenario.failing_db) (lit "s1") (lit "Song")
      [Song_scenario.line_casa; Song_scenario.line_null] = Ok (st, calls)
    /\ Detect.slang_occurrences st = 0%nat
    /\ forall recs', ~ In (Song.Insert Song.Slang_occurrences recs') calls.
Proof.
  destruct (@Detect.detect_occurrences_for_song latin1
              (Detect.of_song Song_scenario.failing_db) (lit "s1") (lit "Song")
              [Song_scenario.line_casa; Song_scenario.line_null])
    as [[st calls]|e] eqn:Hrun; [|vm_compute in Hrun; discriminate].
  exists st, calls. split; [reflexivity|].
  destruct (@detect_stops_at_failed_insert latin1
              (Detect.of_song Song_scenario.failing_db) (lit "s1") (lit "Song")
              [Song_scenario.line_casa; Song_scenario.line_null] st calls
              [Song_scenario.record_casa] (lit "HTTP 500: ") Hrun)
    as (_ & _ & H1 & H2).
  - vm_compute in Hrun. injection Hrun as _ <-. simpl. tauto.
  - reflexivity.
  - now split.
Defined.

(** X9.  The occurrences [detect_occurrences_for_song] sends for a table are
    exactly these: one for each line with a text, in order, and each term
    linked to the song that the locator finds in the words read for that
    line. *)
Theorem detect_records_exact {U : Unicode} (db : Detect.database)
    (song_id song_title : str) (lines : list Song.song_line)
    (st : Detect.stats) (calls : list Song.call) (t : Song.table)
    (recs : list Song.occurrence) (r : Song.occurrence) :
  Detect.detect_occurrences_for_song db song_id song_title lines
  = Ok (st, calls) ->
  In (Song.Insert t recs) calls ->
  In r recs
  <-> exists terms line tm c text s e,
        Detect.terms_for db t song_id = inr terms
        /\ In line lines /\ In tm terms
        /\ Song.line_text line = Some (c :: text)
        /\ ImportLyrics.find_phrase_positions (c :: text) (Song.term_text tm)
             (Detect.get_line_words_for_detection db (Song.line_id line))
           = Ok (Some (s, e))
        /\ r = Song.record_of song_id line tm (s, e).
Proof.
  intros Hrun Hin.
  destruct (detect_inserts db _ _ _ _ _ _ _ Hrun Hin)
    as (phrases & slang_terms & terms & _ & _ & Ht & -> & _ & _).
  rewrite detect_song_records_In. split.
  - intros (line & tm & c & text & [s e] & Hline & Htm & Et & El & ->).
    exists terms, line, tm, c, text, s, e.
    rewrite import_lyrics_find_locate, El. now repeat split.
  - intros (terms' & line & tm & c & text & s & e & Ht' & Hline & Htm & Et
            & Hfind & ->).
    rewrite Ht in Ht'. injection Ht' as <-.
    rewrite import_lyrics_find_locate in Hfind. injection Hfind as El.
    exists line, tm, c, text, (s, e). now repeat split.
Qed.

Lemma detect_records_exact_witness :
  exists st calls,
    @Detect.detect_occurrences_for_song latin1
      (Detect.of_song Song_scenario.db) (lit "s1") (lit "Song")
      [Song_scenario.line_casa; Song_scenario.line_null] = Ok (st, calls)
    /\ exists tm, In tm [Song_scenario.phrase_casa; Song_scenario.phrase_prisa]
                  /\ Song.term_id tm = lit "p1".
Proof.
  destruct (@Detect.detect_occurrences_for_song latin1
              (Detect.of_song Song_scenario.db) (lit "s1") (lit "Song")
              [Song_scenario.line_casa; Song_scenario.line_null])
    as [[st calls]|e] eqn:Hrun; [|vm_compute in Hrun; discriminate].
  exists st, calls. split; [reflexivity|].
  destruct (proj1 (@detect_records_exact latin1
              (Detect.of_song Song_scenario.db) (lit "s1") (lit "Song")
              [Song_scenario.line_casa; Song_scenario.line_null] st calls
              Song.Phrase_occurrences [Song_scenario.record_casa]
              Song_scenario.record_casa Hrun
              ltac:(vm_compute in Hrun; injection Hrun as _ <-; simpl; tauto))
              (or_introl eq_refl))
    as (terms & line & tm & c & text & s & e & Ht & _ & Htm & _ & _ & Hr).
  injection Ht as <-. exists tm. split; [exact Htm|].
  apply (f_equal Song.occ_term_id) in Hr. simpl in Hr. now symmetry.
Defined.

(** ** The two scripts on the same data base *)

Lemma pair_mem_nil (p : str * str) : Song.pair_mem p [] = false.
Proof. reflexivity. Qed.

(** With no occurrence recorded yet, both scripts compute the same records
    for a list of terms: a line whose words cannot be read gives none in
    either. *)
Lemma detect_song_records_backfill {U : Unicode} (db : Song.database)
    (song_id : str) (terms : list Song.term) (lines : list Song.song_line) :
  Detect.song_records (Detect.of_song db) song_id terms lines
  = Song.song_records db song_id [] terms lines.
Proof.
  unfold Detect.song_records, Song.song_records.
  apply flat_map_ext. intros line. unfold Song.usable. cbn [Detect.of_song
    Detect.get_line_words_for_detection].
  destruct (Song.line_text line) as [[|c text]|]; try reflexivity.
  destruct (Song.get_line_words db (Song.line_id line)) as [m|ws].
  - induction terms as [|t rest IH]; [reflexivity|]. simpl. exact IH.
  - unfold Song.line_records. apply flat_map_ext. intros t.
    now rewrite pair_mem_nil.
Qed.

(** With no occurrence recorded yet and the lines in the same order, the
    batches are equal. *)
Lemma detect_batches_same_order {U : Unicode} (db : Song.database)
    (song_id song_title : str) (lines : list Song.song_line)
    (st : Song.stats) (calls : list Song.call)
    (st' : Detect.stats) (calls' : list Song.call) :
  Song.get_song_lines db song_id = inr lines ->
  Song.get_existing_phrase_occurrences db song_id = [] ->
  Song.get_existing_slang_occurrences db song_id = [] ->
  Song.process_song db song_id song_title = Ok (st, calls) ->
  Detect.detect_occurrences_for_song (Detect.of_song db) song_id song_title
    lines = Ok (st', calls') ->
  (forall t recs, In (Song.Insert t recs) calls' -> In (Song.Insert t recs) calls)
  /\ (forall recs,
        In (Song.Insert Song.Phrase_occurrences recs) calls ->
        In (Song.Insert Song.Phrase_occurrences recs) calls').
Proof.
  intros Hl Hep Hes Hrun Hrun'. split.
  - intros t recs Hin.
    destruct (detect_inserts _ _ _ _ _ _ _ _ Hrun' Hin)
      as (phrases & slang_terms & terms & Hp & Hs & Ht & -> & Hne & _).
    cbn [Detect.of_song Detect.get_song_phrases_for_detection
         Detect.get_song_slang_for_detection] in Hp, Hs.
    assert (Hlines : lines <> []).
    { intros ->. apply Hne. reflexivity. }
    rewrite (process_song_full db song_id song_title _ _ _ Hp Hs Hl Hlines)
      in Hrun.
    injection Hrun as _ <-. rewrite Hep, Hes.
    rewrite detect_song_records_backfill in Hne |- *.
    assert (Hb : In (Song.Insert t (Song.song_records db song_id [] terms lines))
                   (Song.batch t (Song.song_records db song_id [] terms lines))).
    { unfold Song.batch.
      destruct (Song.song_records db song_id [] terms lines);
        [congruence | now left]. }
    cbn [app In]. do 5 right.
    destruct t; cbn [Detect.terms_for Detect.of_song
                     Detect.get_song_phrases_for_detection
                     Detect.get_song_slang_for_detection] in Ht.
    + rewrite Hp in Ht. injection Ht as <-.
      apply in_or_app. left. apply in_or_app. right. exact Hb.
    + rewrite Hs in Ht. injection Ht as <-.
      apply in_or_app. right. exact Hb.
  - intros recs Hin.
    destruct (process_song_inserts db _ _ _ _ _ _ Hrun Hin)
      as (phrases & lines0 & Hp & Hl0 & -> & Hne).
    rewrite Hl in Hl0. injection Hl0 as <-. simpl in Hp.
    cbn [Song.existing_for] in *. rewrite Hep in *.
    destruct (process_song_cases db song_id) as [Hearly|Hfull].
    { destruct (process_song_early db song_id song_title Hearly)
        as (st0 & calls0 & Hrun0 & _ & _ & _ & _ & Hcalls).
      rewrite Hrun in Hrun0. injection Hrun0 as <- <-.
      destruct (Hcalls _ Hin) as [H|[H|H]]; discriminate. }
    destruct Hfull as (phrases0 & slang_terms & lines0 & Hp0 & Hs & _).
    rewrite Hp in Hp0. injection Hp0 as <-.
    assert (Hp' : Detect.get_song_phrases_for_detection (Detect.of_song db)
                    song_id = inr phrases) by exact Hp.
    assert (Hs' : Detect.get_song_slang_for_detection (Detect.of_song db)
                    song_id = inr slang_terms) by exact Hs.
    rewrite (detect_full (Detect.of_song db) song_id song_title _ _ lines
               Hp' Hs') in Hrun'.
    rewrite !detect_song_records_backfill in Hrun'.
    assert (Hb : In (Song.Insert Song.Phrase_occurrences
                       (Song.song_records db song_id [] phrases lines))
                   (Song.batch Song.Phrase_occurrences
                      (Song.song_records db song_id [] phrases lines))).
    { unfold Song.batch.
      destruct (Song.song_records db song_id [] phrases lines);
        [congruence | now left]. }
    destruct (Detect.phrase_failure (Detect.of_song db)
                (Song.song_records db song_id [] phrases lines));
      injection Hrun' as _ <-; cbn [app In]; do 2 right.
    + apply in_or_app. right. exact Hb.
    + apply in_or_app. left. apply in_or_app. right. exact Hb.
Qed.

Lemma song_records_same_lines {U : Unicode} (db : Song.database)
    (song_id : str) (existing : list (str * str)) (terms : list Song.term)
    (lines lines' : list Song.song_line) (r : Song.occurrence) :
  (forall l, In l lines' <-> In l lines) ->
  In r (Song.song_records db song_id existing terms lines')
  <-> In r (Song.song_records db song_id existing terms lines).
Proof.
  intros Hsame. rewrite !song_records_In.
  split; intros (line & t & text & ws & span & Hl & Hrest);
    exists line, t, text, ws, span; (split; [now apply Hsame | exact Hrest]).
Qed.

Lemma In_batch (t : Song.table) (recs : list Song.occurrence) :
  recs <> [] -> In (Song.Insert t recs) (Song.batch t recs).
Proof. unfold Song.batch. destruct recs; [congruence | now left]. Qed.

(** X10.  On a song that has no occurrence recorded yet, the two scripts
    write the same occurrences when [detect_occurrences_for_song] is given
    the lines that [get_song_lines] returns to [process_song], in whatever
    order: for every batch the first sends, the second sends a batch to the
    same table with the same records, and the phrase batch of [process_song]
    has such a batch of [detect_occurrences_for_song].  With the lines in
    the same order the batches are equal. *)
Theorem detect_agrees_with_backfill {U : Unicode} (db : Song.database)
    (song_id song_title : str) (lines lines' : list Song.song_line)
    (st : Song.stats) (calls : list Song.call)
    (st' : Detect.stats) (calls' : list Song.call) :
  Song.get_song_lines db song_id = inr lines ->
  (forall l, In l lines' <-> In l lines) ->
  Song.get_existing_phrase_occurrences db song_id = [] ->
  Song.get_existing_slang_occurrences db song_id = [] ->
  Song.process_song db song_id song_title = Ok (st, calls) ->
  Detect.detect_occurrences_for_song (Detect.of_song db) song_id song_title
    lines' = Ok (st', calls') ->
  (forall t recs',
     In (Song.Insert t recs') calls' ->
     exists recs, In (Song.Insert t recs) calls
                  /\ forall r, In r recs' <-> In r recs)
  /\ (forall recs,
        In (Song.Insert Song.Phrase_occurrences recs) calls ->
        exists recs', In (Song.Insert Song.Phrase_occurrences recs') calls'
                      /\ forall r, In r recs <-> In r recs')
  /\ (lines' = lines ->
      (forall t recs,
         In (Song.Insert t recs) calls' -> In (Song.Insert t recs) calls)
      /\ (forall recs,
            In (Song.Insert Song.Phrase_occurrences recs) calls ->
            In (Song.Insert Song.Phrase_occurrences recs) calls')).
Proof.
  intros Hl Hsame Hep Hes Hrun Hrun'.
  assert (Hnonempty : forall (a b : list Song.occurrence),
            (forall r, In r a <-> In r b) -> a <> [] -> b <> []).
  { intros a b H Ha ->. destruct a as [|r a]; [congruence|].
    exact (proj1 (H r) (or_introl eq_refl)). }
  split; [|split].
  - intros t recs' Hin.
    destruct (detect_inserts _ _ _ _ _ _ _ _ Hrun' Hin)
      as (phrases & slang_terms & terms & Hp & Hs & Ht & -> & Hne & _).
    cbn [Detect.of_song Detect.get_song_phrases_for_detection
         Detect.get_song_slang_for_detection] in Hp, Hs.
    rewrite detect_song_records_backfill in Hne |- *.
    exists (Song.song_records db song_id [] terms lines).
    assert (Hmem : forall r,
              In r (Song.song_records db song_id [] terms lines')
              <-> In r (Song.song_records db song_id [] terms lines))
      by (intros r; now apply song_records_same_lines).
    split; [|exact Hmem].
    pose proof (Hnonempty _ _ Hmem Hne) as Hne0.
    assert (Hlines : lines <> []).
    { intros ->. apply Hne0. reflexivity. }
    rewrite (process_song_full db song_id song_title _ _ _ Hp Hs Hl Hlines)
      in Hrun.
    injection Hrun as _ <-. rewrite Hep, Hes.
    pose proof (In_batch t _ Hne0) as Hb.
    cbn [app In]. do 5 right.
    destruct t; cbn [Detect.terms_for Detect.of_song
                     Detect.get_song_phrases_for_detection
                     Detect.get_song_slang_for_detection] in Ht.
    + rewrite Hp in Ht. injection Ht as <-.
      apply in_or_app. left. apply in_or_app. right. exact Hb.
    + rewrite Hs in Ht. injection Ht as <-.
      apply in_or_app. right. exact Hb.
  - intros recs Hin.
    destruct (process_song_inserts db _ _ _ _ _ _ Hrun Hin)
      as (phrases & lines0 & Hp & Hl0 & -> & Hne).
    rewrite Hl in Hl0. injection Hl0 as <-. simpl in Hp.
    cbn [Song.existing_for] in *. rewrite Hep in *.
    destruct (process_song_cases db song_id) as [Hearly|Hfull].
    { destruct (process_song_early db song_id song_title Hearly)
        as (st0 & calls0 & Hrun0 & _ & _ & _ & _ & Hcalls).
      rewrite Hrun in Hrun0. injection Hrun0 as <- <-.
      destruct (Hcalls _ Hin) as [H|[H|H]]; discriminate. }
    destruct Hfull as (phrases0 & slang_terms & lines0 & Hp0 & Hs & _).
    rewrite Hp in Hp0. injection Hp0 as <-.
    exists (Song.song_records db song_id [] phrases lines').
    assert (Hmem : forall r,
              In r (Song.song_records db song_id [] phrases lines)
              <-> In r (Song.song_records db song_id [] phrases lines')).
    { intros r. symmetry. now apply song_records_same_lines. }
    split; [|exact Hmem].
    pose proof (In_batch Song.Phrase_occurrences _
                  (Hnonempty _ _ Hmem Hne)) as Hb.
    assert (Hp' : Detect.get_song_phrases_for_detection (Detect.of_song db)
                    song_id = inr phrases) by exact Hp.
    assert (Hs' : Detect.get_song_slang_for_detection (Detect.of_song db)
                    song_id = inr slang_terms) by exact Hs.
    rewrite (detect_full (Detect.of_song db) song_id song_title _ _ lines'
               Hp' Hs') in Hrun'.
    rewrite !detect_song_records_backfill in Hrun'.
    destruct (Detect.phrase_failure (Detect.of_song db)
                (Song.song_records db song_id [] phrases lines'));
      injection Hrun' as _ <-; cbn [app In]; do 2 right.
    + apply in_or_app. right. exact Hb.
    + apply in_or_app. left. apply in_or_app. right. exact Hb.
  - intros ->.
    exact (detect_batches_same_order db song_id song_title lines st calls
             st' calls' Hl Hep Hes Hrun Hrun').
Qed.

Lemma detect_agrees_with_backfill_witness :
  exists calls calls' recs',
    In (Song.Insert Song.Phrase_occurrences [Song_scenario.record_casa]) calls
    /\ In (Song.Insert Song.Phrase_occurrences recs') calls'
    /\ In Song_scenario.record_casa recs'.
Proof.
  destruct (@Song.process_song latin1 Song_scenario.failing_db (lit "s1")
              (lit "Song")) as [[st calls]|e] eqn:Hrun;
    [|vm_compute in Hrun; discriminate].
  destruct (@Detect.detect_occurrences_for_song latin1
              (Detect.of_song Song_scenario.failing_db) (lit "s1") (lit "Song")
              [Song_scenario.line_null; Song_scenario.line_casa])
    as [[st' calls']|e] eqn:Hrun'; [|vm_compute in Hrun'; discriminate].
  assert (Hsame : forall l,
            In l [Song_scenario.line_null; Song_scenario.line_casa]
            <-> In l [Song_scenario.line_casa; Song_scenario.line_null])
    by (intros l; simpl; tauto).
  destruct (@detect_agrees_with_backfill latin1 Song_scenario.failing_db
              (lit "s1") (lit "Song")
              [Song_scenario.line_casa; Song_scenario.line_null]
              [Song_scenario.line_null; Song_scenario.line_casa]
              st calls st' calls' eq_refl Hsame eq_refl eq_refl Hrun Hrun')
    as (_ & H & _).
  assert (Hin : In (Song.Insert Song.Phrase_occurrences
                      [Song_scenario.record_casa]) calls).
  { vm_compute in Hrun. injection Hrun as _ <-. simpl. tauto. }
  destruct (H _ Hin) as (recs' & Hin' & Hmem).
  exists calls, calls', recs'. split; [exact Hin|]. split; [exact Hin'|].
  apply Hmem. now left.
Defined.

(** ** The loop over the songs of the backfill script *)

Lemma add_new_In (found all : list str) (p : str) :
  In p (Main.add_new all found) <-> In p all \/ In p found.
Proof.
  revert all. induction found as [|q rest IH]; intros all; simpl; [tauto|].
  rewrite IH. destruct (Song.str_mem q all) eqn:E.
  - apply str_mem_In in E. split; [tauto|].
    intros [H|[<-|H]]; tauto.
  - rewrite in_app_iff. simpl. tauto.
Qed.

Lemma add_new_NoDup (found all : list str) :
  NoDup all -> NoDup (Main.add_new all found).
Proof.
  revert all. induction found as [|q rest IH]; intros all Hall; simpl;
    [exact Hall|].
  apply IH. destruct (Song.str_mem q all) eqn:E; [exact Hall|].
  apply NoDup_app; [exact Hall | repeat constructor; intros [] |].
  intros x Hx [<-|[]]. apply str_mem_In in Hx. congruence.
Qed.

Lemma process_songs_spec {U : Unicode} (db : Song.database)
    (songs : list (str * str)) :
  forall t calls,
    exists t' calls',
      Main.process_songs db songs t calls = Ok (t', calls')
      /\ Main.songs_processed t'
         = (Main.songs_processed t + List.length songs)%nat
      /\ (NoDup (Main.all_phrases_not_found t) ->
          NoDup (Main.all_phrases_not_found t'))
      /\ (NoDup (Main.all_slang_not_found t) ->
          NoDup (Main.all_slang_not_found t'))
      /\ (forall p,
            In p (Main.all_phrases_not_found t')
            <-> In p (Main.all_phrases_not_found t)
                \/ exists id title st made,
                     In (id, title) songs
                     /\ Song.process_song db id title = Ok (st, made)
                     /\ In p (Song.phrases_not_found st))
      /\ (forall p,
            In p (Main.all_slang_not_found t')
            <-> In p (Main.all_slang_not_found t)
                \/ exists id title st made,
                     In (id, title) songs
                     /\ Song.process_song db id title = Ok (st, made)
                     /\ In p (Song.slang_not_found st)).
Proof.
  induction songs as [|[id title] rest IH]; intros t calls.
  - exists t, calls. simpl. repeat split; try tauto; try lia.
    + intros [H|(i & ti & st & made & [] & _)]. exact H.
    + intros [H|(i & ti & st & made & [] & _)]. exact H.
  - destruct (process_song_returns db id title) as (st & made & Hrun).
    cbn [Main.process_songs]. rewrite Hrun. cbn [bind fst snd].
    destruct (IH (Main.add_song t st) (calls ++ made))
      as (t' & calls' & Hloop & Hn & Hdp & Hds & Hp & Hs).
    exists t', calls'. split; [exact Hloop|].
    cbn [Main.add_song Main.songs_processed Main.all_phrases_not_found
         Main.all_slang_not_found] in Hn, Hdp, Hds, Hp, Hs.
    split; [simpl; lia|].
    split; [intros H; now apply Hdp, add_new_NoDup|].
    split; [intros H; now apply Hds, add_new_NoDup|].
    split.
    + intros p. rewrite Hp, add_new_In. split.
      * intros [[H|H]|(i & ti & st0 & m0 & Hin & Hr & Hp0)].
        -- now left.
        -- right. exists id, title, st, made. repeat split; [now left|..];
             assumption.
        -- right. exists i, ti, st0, m0. repeat split; [now right|..];
             assumption.
      * intros [H|(i & ti & st0 & m0 & [Hin|Hin] & Hr & Hp0)].
        -- now left; left.
        -- injection Hin as <- <-. rewrite Hrun in Hr. injection Hr as <- <-.
           left. now right.
        -- right. now exists i, ti, st0, m0.
    + intros p. rewrite Hs, add_new_In. split.
      * intros [[H|H]|(i & ti & st0 & m0 & Hin & Hr & Hp0)].
        -- now left.
        -- right. exists id, title, st, made. repeat split; [now left|..];
             assumption.
        -- right. exists i, ti, st0, m0. repeat split; [now right|..];
             assumption.
      * intros [H|(i & ti & st0 & m0 & [Hin|Hin] & Hr & Hp0)].
        -- now left; left.
        -- injection Hin as <- <-. rewrite Hrun in Hr. injection Hr as <- <-.
           left. now right.
        -- right. now exists i, ti, st0, m0.
Qed.

(** X7.  The loop over the songs of the backfill script never raises and
    counts every song; the two lists of expressions not found that it builds
    have no duplicates, and a text is in the list of phrases (of slang terms)
    not found exactly when [process_song] reports it for one of the songs. *)
Theorem main_totals {U : Unicode} (db : Song.database)
    (songs : list (str * str)) :
  exists t calls,
    Main.process_songs db songs Main.initial [] = Ok (t, calls)
    /\ Main.songs_processed t = List.length songs
    /\ NoDup (Main.all_phrases_not_found t)
    /\ NoDup (Main.all_slang_not_found t)
    /\ (forall p,
          In p (Main.all_phrases_not_found t)
          <-> exists id title st made,
                In (id, title) songs
                /\ Song.process_song db id title = Ok (st, made)
                /\ In p (Song.phrases_not_found st))
    /\ (forall p,
          In p (Main.all_slang_not_found t)
          <-> exists id title st made,
                In (id, title) songs
                /\ Song.process_song db id title = Ok (st, made)
                /\ In p (Song.slang_not_found st)).
Proof.
  destruct (process_songs_spec db songs Main.initial [])
    as (t & calls & Hloop & Hn & Hdp & Hds & Hp & Hs).
  exists t, calls. split; [exact Hloop|]. split; [exact Hn|].
  split; [apply Hdp; constructor|]. split; [apply Hds; constructor|].
  split; intros p; [rewrite Hp | rewrite Hs]; simpl; tauto.
Qed.

(** ** [detect_occurrences]: the lines grouped by song *)

Lemma key_eqb_eq (a b : option str) : Driver.key_eqb a b = true <-> a = b.
Proof.
  destruct a as [x|], b as [y|]; simpl; try (split; congruence).
  rewrite str_eqb_eq. split; congruence.
Qed.

Lemma key_eqb_refl (a : option str) : Driver.key_eqb a a = true.
Proof. now apply key_eqb_eq. Qed.

Lemma get_no_key (k : option str) (d : Driver.songs_lines) :
  Driver.has_key k d = false -> Driver.get k d = [].
Proof.
  induction d as [|[k' v] rest IH]; simpl; [reflexivity|].
  destruct (Driver.key_eqb k k'); simpl; [discriminate | exact IH].
Qed.

Lemma get_new_key (k k' : option str) (d : Driver.songs_lines) :
  Driver.has_key k' d = false ->
  Driver.get k (d ++ [(k', [])]) = Driver.get k d.
Proof.
  induction d as [|[k0 v] rest IH]; simpl.
  - intros _. now destruct (Driver.key_eqb k k').
  - destruct (Driver.key_eqb k' k0) eqn:E; simpl; [discriminate|].
    intros H. destruct (Driver.key_eqb k k0); [reflexivity | now apply IH].
Qed.

Lemma has_key_new (k : option str) (d : Driver.songs_lines) :
  Driver.has_key k (d ++ [(k, [])]) = true.
Proof.
  induction d as [|[k0 v] rest IH]; simpl.
  - now rewrite key_eqb_refl.
  - rewrite IH. apply orb_true_r.
Qed.

Lemma get_append_to (k k' : option str) (x : Song.song_line)
    (d : Driver.songs_lines) :
  Driver.has_key k' d = true ->
  Driver.get k (Driver.append_to k' x d)
  = if Driver.key_eqb k k' then Driver.get k d ++ [x] else Driver.get k d.
Proof.
  induction d as [|[k0 v] rest IH]; simpl; [discriminate|].
  destruct (Driver.key_eqb k' k0) eqn:E; simpl.
  - intros _. apply key_eqb_eq in E. subst k0.
    now destruct (Driver.key_eqb k k').
  - intros H. destruct (Driver.key_eqb k k0) eqn:E0.
    + destruct (Driver.key_eqb k k') eqn:E1; [|reflexivity].
      apply key_eqb_eq in E0, E1. subst. now rewrite key_eqb_refl in E.
    + now apply IH.
Qed.

Lemma group_get (k : option str) (all_lines : list Driver.learnable_line) :
  forall d,
    Driver.get k (Driver.group all_lines d)
    = Driver.get k d
      ++ map Driver.line
           (filter (fun l => Driver.key_eqb k (Driver.song_id l)) all_lines).
Proof.
  induction all_lines as [|l rest IH]; intros d; simpl;
    [now rewrite app_nil_r|].
  rewrite IH. destruct (Driver.has_key (Driver.song_id l) d) eqn:E.
  - rewrite get_append_to by exact E.
    destruct (Driver.key_eqb k (Driver.song_id l)); simpl;
      [now rewrite <- app_assoc | reflexivity].
  - rewrite get_append_to by apply has_key_new.
    rewrite get_new_key by exact E.
    destruct (Driver.key_eqb k (Driver.song_id l)); simpl;
      [now rewrite <- app_assoc | reflexivity].
Qed.

(** X11.  The grouping loop of [detect_occurrences] followed by the lookup
    [songs_lines.get(song_id, [])], as a piece of code on any list of lines
    (in the source as it is the loop is not reached, see X21): the lines
    found for a song are the lines of the list that carry its identifier
    and no others, in the order of the list; a line whose song is null
    belongs to no song. *)
Theorem grouped_lines_of_song (all_lines : list Driver.learnable_line)
    (id : str) (l : Song.song_line) :
  Driver.get (Some id) (Driver.group all_lines [])
  = map Driver.line
      (filter (fun x => Driver.key_eqb (Some id) (Driver.song_id x)) all_lines)
  /\ (In l (Driver.get (Some id) (Driver.group all_lines []))
      <-> In {| Driver.song_id := Some id; Driver.line := l |} all_lines).
Proof.
  assert (Hget : Driver.get (Some id) (Driver.group all_lines [])
                 = map Driver.line
                     (filter (fun x => Driver.key_eqb (Some id)
                                         (Driver.song_id x)) all_lines))
    by (now rewrite group_get).
  split; [exact Hget|]. rewrite Hget, in_map_iff. split.
  - intros ([k x] & <- & Hx). apply filter_In in Hx as [Hx Hk].
    cbn [Driver.song_id] in Hk. apply key_eqb_eq in Hk. now subst k.
  - intros H. exists {| Driver.song_id := Some id; Driver.line := l |}.
    split; [reflexivity|]. apply filter_In. split; [exact H|].
    apply key_eqb_refl.
Qed.

Lemma grouped_lines_of_song_witness :
  In Song_scenario.line_casa
    (Driver.get (Some (lit "s1"))
       (Driver.group
          [{| Driver.song_id := Some (lit "s2");
              Driver.line := Song_scenario.line_null |};
           {| Driver.song_id := Some (lit "s1");
              Driver.line := Song_scenario.line_casa |}] [])).
Proof.
  apply (grouped_lines_of_song
           [{| Driver.song_id := Some (lit "s2");
               Driver.line := Song_scenario.line_null |};
            {| Driver.song_id := Some (lit "s1");
               Driver.line := Song_scenario.line_casa |}]
           (lit "s1") Song_scenario.line_casa).
  right. now left.
Defined.

Lemma main_totals_witness :
  exists t calls,
    @Main.process_songs latin1 Song_scenario.db [(lit "s1", lit "Song")]
      Main.initial [] = Ok (t, calls)
    /\ In (lit "tener prisa") (Main.all_phrases_not_found t).
Proof.
  destruct (@main_totals latin1 Song_scenario.db [(lit "s1", lit "Song")])
    as (t & calls & Hloop & _ & _ & _ & Hp & _).
  exists t, calls. split; [exact Hloop|]. apply Hp.
  destruct (@Song.process_song latin1 Song_scenario.db (lit "s1") (lit "Song"))
    as [[st made]|e] eqn:Hrun; [|vm_compute in Hrun; discriminate].
  exists (lit "s1"), (lit "Song"), st, made.
  split; [now left|]. split; [exact Hrun|].
  vm_compute in Hrun. injection Hrun as <- _. simpl. now left.
Defined.

(** ** [detect_occurrences]: the loop over the songs *)

Lemma detect_returns {U : Unicode} (db : Detect.database)
    (song_id song_title : str) (lines : list Song.song_line) :
  exists st calls,
    Detect.detect_occurrences_for_song db song_id song_title lines
    = Ok (st, calls).
Proof.
  destruct (Detect.get_song_phrases_for_detection db song_id)
    as [m|phrases] eqn:Hp.
  { unfold Detect.detect_occurrences_for_song. rewrite Hp. now eexists; eexists. }
  destruct (Detect.get_song_slang_for_detection db song_id)
    as [m|slang_terms] eqn:Hs.
  { unfold Detect.detect_occurrences_for_song. rewrite Hp, Hs.
    now eexists; eexists. }
  rewrite (detect_full db song_id song_title _ _ lines Hp Hs).
  destruct (Detect.phrase_failure db _); now eexists; eexists.
Qed.

Lemma detect_songs_spec {U : Unicode} (db : Detect.database)
    (completed : list str) (d : Driver.songs_lines)
    (songs : list (str * str)) :
  forall r calls,
    exists r' calls',
      Driver.detect_songs db completed d songs r calls = Ok (r', calls')
      /\ (Driver.songs_processed r' + Driver.songs_skipped r'
          + List.length (Driver.errors r')
          = Driver.songs_processed r + Driver.songs_skipped r
            + List.length (Driver.errors r) + List.length songs)%nat
      /\ (forall c, In c calls' ->
            In c calls
            \/ exists id title st made,
                 In (id, title) songs
                 /\ Song.str_mem id completed = false
                 /\ Driver.get (Some id) d <> []
                 /\ Detect.detect_occurrences_for_song db id title
                      (Driver.get (Some id) d) = Ok (st, made)
                 /\ In c made).
Proof.
  induction songs as [|[id title] rest IH]; intros r calls.
  - exists r, calls. simpl. repeat split; [lia | tauto].
  - cbn [Driver.detect_songs].
    assert (Hskip : forall r0,
      exists r' calls',
        Driver.detect_songs db completed d rest (Driver.skip r0) calls
        = Ok (r', calls')
        /\ (Driver.songs_processed r' + Driver.songs_skipped r'
            + List.length (Driver.errors r')
            = Driver.songs_processed r0 + Driver.songs_skipped r0
              + List.length (Driver.errors r0)
              + List.length ((id, title) :: rest))%nat
        /\ (forall c, In c calls' ->
              In c calls
              \/ exists id0 title0 st made,
                   In (id0, title0) ((id, title) :: rest)
                   /\ Song.str_mem id0 completed = false
                   /\ Driver.get (Some id0) d <> []
                   /\ Detect.detect_occurrences_for_song db id0 title0
                        (Driver.get (Some id0) d) = Ok (st, made)
                   /\ In c made)).
    { intros r0. destruct (IH (Driver.skip r0) calls)
        as (r' & calls' & Hloop & Hn & Hc).
      exists r', calls'. split; [exact Hloop|]. split.
      - simpl in Hn |- *. lia.
      - intros c Hin. destruct (Hc c Hin)
          as [H|(i & ti & st & made & Hs & Hrest)]; [now left|].
        right. exists i, ti, st, made. split; [now right | exact Hrest]. }
    destruct (Song.str_mem id completed) eqn:Hdone; [apply Hskip|].
    destruct (Driver.get (Some id) d) as [|l0 ls] eqn:Hlines; [apply Hskip|].
    destruct (detect_returns db id title (l0 :: ls)) as (st & made & Hrun).
    rewrite Hrun. cbn [bind].
    assert (Hstep : forall r0,
      (Driver.songs_processed r0 + Driver.songs_skipped r0
       + List.length (Driver.errors r0)
       = Driver.songs_processed r + Driver.songs_skipped r
         + List.length (Driver.errors r) + 1)%nat ->
      exists r' calls',
        Driver.detect_songs db completed d rest r0 (calls ++ made)
        = Ok (r', calls')
        /\ (Driver.songs_processed r' + Driver.songs_skipped r'
            + List.length (Driver.errors r')
            = Driver.songs_processed r + Driver.songs_skipped r
              + List.length (Driver.errors r)
              + List.length ((id, title) :: rest))%nat
        /\ (forall c, In c calls' ->
              In c calls
              \/ exists id0 title0 st0 made0,
                   In (id0, title0) ((id, title) :: rest)
                   /\ Song.str_mem id0 completed = false
                   /\ Driver.get (Some id0) d <> []
                   /\ Detect.detect_occurrences_for_song db id0 title0
                        (Driver.get (Some id0) d) = Ok (st0, made0)
                   /\ In c made0)).
    { intros r0 Hr0. destruct (IH r0 (calls ++ made))
        as (r' & calls' & Hloop & Hn & Hc).
      exists r', calls'. split; [exact Hloop|]. split.
      - simpl. lia.
      - intros c Hin. destruct (Hc c Hin)
          as [H|(i & ti & st0 & made0 & Hs & Hrest)].
        + apply in_app_or in H as [H|H]; [now left|].
          right. exists id, title, st, made. rewrite Hlines.
          repeat split; try assumption; [now left | discriminate].
        + right. exists i, ti, st0, made0. split; [now right | exact Hrest]. }
    destruct (Detect.error st) as [[|c m]|]; apply Hstep; simpl;
      rewrite ?length_app; simpl; lia.
Qed.

Lemma detect_calls_shape {U : Unicode} (db : Detect.database)
    (song_id song_title : str) (lines : list Song.song_line)
    (st : Detect.stats) (calls : list Song.call) (c : Song.call) :
  Detect.detect_occurrences_for_song db song_id song_title lines
  = Ok (st, calls) ->
  In c calls ->
  c = Song.Get_song_phrases song_id \/ c = Song.Get_song_slang song_id
  \/ In c (Song.words_calls lines)
  \/ exists t recs, c = Song.Insert t recs.
Proof.
  intros Hrun Hin.
  destruct (Detect.get_song_phrases_for_detection db song_id)
    as [m|phrases] eqn:Hp.
  { unfold Detect.detect_occurrences_for_song in Hrun. rewrite Hp in Hrun.
    injection Hrun as _ <-. destruct Hin as [<-|[]]. now left. }
  destruct (Detect.get_song_slang_for_detection db song_id)
    as [m|slang_terms] eqn:Hs.
  { unfold Detect.detect_occurrences_for_song in Hrun. rewrite Hp, Hs in Hrun.
    injection Hrun as _ <-. destruct Hin as [<-|[<-|[]]]; tauto. }
  rewrite (detect_full db song_id song_title _ _ lines Hp Hs) in Hrun.
  assert (Hbatch : forall t rs, In c (Song.batch t rs) ->
                   exists t' recs, c = Song.Insert t' recs).
  { intros t rs H. unfold Song.batch in H. destruct rs; [destruct H|].
    destruct H as [<-|[]]. eauto. }
  destruct (Detect.phrase_failure db
              (Detect.song_records db song_id phrases lines)) as [m|];
    injection Hrun as _ <-; cbn [app In] in Hin;
    (destruct Hin as [<-|Hin]; [now left|]);
    (destruct Hin as [<-|Hin]; [now right; left|]);
    repeat (apply in_app_or in Hin as [Hin|Hin]);
    try (right; right; left; exact Hin);
    right; right; right; exact (Hbatch _ _ Hin).
Qed.

(** Every request of a run of [detect_occurrences_for_song] is for the song
    and its lines. *)
Lemma detect_calls_of_song {U : Unicode} (db : Detect.database)
    (song_id song_title : str) (lines : list Song.song_line)
    (st : Detect.stats) (calls : list Song.call) (c : Song.call) :
  Detect.detect_occurrences_for_song db song_id song_title lines
  = Ok (st, calls) ->
  In c calls -> Driver.request_of song_id lines c.
Proof.
  intros Hrun Hin.
  destruct (detect_calls_shape db _ _ _ _ _ c Hrun Hin)
    as [->|[->|[Hw|(t & recs & ->)]]]; try reflexivity.
  - unfold Song.words_calls in Hw. apply in_map_iff in Hw as (l & <- & Hl).
    apply filter_In in Hl as [Hl _]. cbn [Driver.request_of]. eauto.
  - destruct (detect_inserts db _ _ _ _ _ t recs Hrun Hin)
      as (phrases & slang_terms & terms & _ & _ & _ & E & Hne & _).
    cbn [Driver.request_of]. split; [exact Hne|]. intros rec Hrec.
    rewrite E in Hrec. apply detect_song_records_In in Hrec
      as (line & tm & ch & text & span & _ & _ & _ & _ & ->).
    reflexivity.
Qed.

Lemma group_get_In (all_lines : list Driver.learnable_line) (id : str)
    (l : Song.song_line) :
  In l (Driver.get (Some id) (Driver.group all_lines [])) ->
  In {| Driver.song_id := Some id; Driver.line := l |} all_lines.
Proof.
  rewrite group_get. cbn [Driver.get app]. rewrite in_map_iff.
  intros ([k x] & <- & Hx). apply filter_In in Hx as [Hx Hk].
  cbn [Driver.song_id] in Hk. apply key_eqb_eq in Hk. now subst k.
Qed.

(** X12.  The loop over the songs of [detect_occurrences], as a piece of
    code run on the grouped lines (in the source as it is the loop is not
    reached, see X21): it raises nothing and counts every song once, as
    processed, skipped or failed; it resumes, every request it makes, be it
    a read of phrases, of slang terms or of the words of a line, or a write
    of occurrences, being for a song of the list that has no occurrence yet
    and has learnable lines, for a line of that song, and for records of
    that song. *)
Theorem song_loop_resumes {U : Unicode} (db : Detect.database)
    (completed : list str) (songs : list (str * str))
    (all_lines : list Driver.learnable_line) :
  exists r calls,
    Driver.detect_songs db completed (Driver.group all_lines []) songs
      Driver.initial [] = Ok (r, calls)
    /\ (Driver.songs_processed r + Driver.songs_skipped r
        + List.length (Driver.errors r) = List.length songs)%nat
    /\ (forall c, In c calls ->
          exists id title,
            In (id, title) songs
            /\ Song.str_mem id completed = false
            /\ (exists l, In {| Driver.song_id := Some id; Driver.line := l |}
                            all_lines)
            /\ Driver.request_of id
                 (map Driver.line
                    (filter (fun x => Driver.key_eqb (Some id)
                                        (Driver.song_id x)) all_lines)) c).
Proof.
  destruct (detect_songs_spec db completed (Driver.group all_lines []) songs
              Driver.initial []) as (r & calls & Hloop & Hn & Hc).
  exists r, calls. split; [exact Hloop|]. split; [simpl in Hn; lia|].
  intros c Hin.
  destruct (Hc _ Hin)
    as [[]|(id & title & st & made & Hs & Hdone & Hl & Hrun & Hm)].
  exists id, title. split; [exact Hs|]. split; [exact Hdone|]. split.
  - destruct (Driver.get (Some id) (Driver.group all_lines []))
      as [|l ls] eqn:E; [congruence|].
    exists l. apply group_get_In. rewrite E. now left.
  - pose proof (detect_calls_of_song db id title _ st made c Hrun Hm) as H.
    rewrite group_get in H. exact H.
Qed.

Lemma song_loop_resumes_witness :
  exists r calls,
    @Driver.detect_songs latin1 (Detect.of_song Song_scenario.db)
      [lit "s2"]
      (Driver.group
         [{| Driver.song_id := Some (lit "s1");
             Driver.line := Song_scenario.line_casa |};
          {| Driver.song_id := Some (lit "s2");
             Driver.line := Song_scenario.line_casa |}] [])
      [(lit "s1", lit "Song"); (lit "s2", lit "Other")]
      Driver.initial [] = Ok (r, calls)
    /\ In (Song.Insert Song.Phrase_occurrences [Song_scenario.record_casa])
         calls
    /\ forall t recs rec,
         In (Song.Insert t recs) calls -> In rec recs ->
         Song.occ_song_id rec <> lit "s2".
Proof.
  destruct (@song_loop_resumes latin1 (Detect.of_song Song_scenario.db)
              [lit "s2"] [(lit "s1", lit "Song"); (lit "s2", lit "Other")]
              [{| Driver.song_id := Some (lit "s1");
                  Driver.line := Song_scenario.line_casa |};
               {| Driver.song_id := Some (lit "s2");
                  Driver.line := Song_scenario.line_casa |}])
    as (r & calls & Hrun & _ & Hcalls).
  exists r, calls. split; [exact Hrun|]. split.
  - vm_compute in Hrun. injection Hrun as _ <-. simpl. tauto.
  - intros t recs rec Hin Hrec E.
    destruct (Hcalls _ Hin) as (id & title & _ & Hdone & _ & _ & Hid).
    rewrite (Hid rec Hrec) in E. subst id. vm_compute in Hdone.
    discriminate.
Defined.

Lemma select_has_no_order (positional : nat) :
  Detection.name_mem "order" (skipn positional Detection.select_parameters)
  = false.
Proof.
  do 5 (destruct positional as [|positional]; [reflexivity|]). reflexivity.
Qed.

(** X21.  [detect_occurrences] as it is always ends in [TypeError]: it reads
    the songs with [select(..., order='title')], and [select] of this script
    has no parameter [order], so that no call of it with that keyword binds
    its arguments.  Before that it has made the two reads of
    [get_songs_with_occurrences] only; no song is read and nothing is
    written, whatever the data base holds. *)
Theorem detect_occurrences_type_error {U : Unicode} (c : Detection.client) :
  Detection.detect_occurrences c
  = ([Detection.Read_occurrence_songs Song.Phrase_occurrences;
      Detection.Read_occurrence_songs Song.Slang_occurrences],
     inl Detection.TypeError)
  /\ (forall positional keywords,
        In "order"%string keywords ->
        Detection.binds Detection.select_parameters Detection.select_required
          positional keywords = false)
  /\ forall call, ~ In (Detection.For_song call)
                      (fst (Detection.detect_occurrences c)).
Proof.
  assert (H : Detection.detect_occurrences c
              = ([Detection.Read_occurrence_songs Song.Phrase_occurrences;
                  Detection.Read_occurrence_songs Song.Slang_occurrences],
                 inl Detection.TypeError)) by reflexivity.
  split; [exact H|]. split.
  - intros positional keywords Hin. unfold Detection.binds.
    assert (Hk : forallb
                   (fun k => Detection.name_mem k
                               (skipn positional Detection.select_parameters))
                   keywords = false).
    { destruct (forallb _ keywords) eqn:E; [|reflexivity].
      rewrite forallb_forall in E. specialize (E _ Hin).
      now rewrite select_has_no_order in E. }
    rewrite Hk. now rewrite andb_false_r.
  - rewrite H. intros call [E|[E|[]]]; discriminate.
Qed.

(** * The gender of a noun *)

Ltac eval_eqb :=
  repeat match goal with
         | |- context [N.eqb ?a ?b] =>
             let v := eval vm_compute in (N.eqb a b) in
             match v with
             | true => change (N.eqb a b) with true
             | false => change (N.eqb a b) with false
             end
         end.

Ltac case_char c n :=
  let E := fresh "E" in
  destruct (N.eqb n c) eqn:E; [apply N.eqb_eq in E; subst c|].

Ltac case_atoms :=
  repeat match goal with
         | |- context [Py.startswith ?p ?s] => destruct (Py.startswith p s)
         | |- context [Nat.ltb ?a ?b] => destruct (Nat.ltb a b)
         end.

Lemma startswith_cons (x y : char) (p s : str) :
  Py.startswith (x :: p) (y :: s) = N.eqb x y && Py.startswith p s.
Proof. reflexivity. Qed.

Lemma startswith_nil (s : str) : Py.startswith [] s = true.
Proof. now destruct s. Qed.

(** The guess on the reversed lower-case noun. *)
Lemma guess_reversed (r : str) (long : bool) :
  (if existsb (fun suffix => Py.startswith (rev suffix) r)
        Gender.feminine_endings
   then lit "F"
   else if Py.startswith (rev (lit "a")) r then
     if Py.startswith (rev (lit "ma")) r && long then lit "M" else lit "F"
   else if existsb (fun suffix => Py.startswith (rev suffix) r)
             [lit "o"; lit "or"; lit "aje"] then lit "M"
   else if Py.startswith (rev (Gender.O_ACUTE :: lit "n")) r then lit "M"
   else if Py.startswith (rev (lit "d")) r then lit "F"
   else lit "M")
  = if existsb (fun suffix => Py.startswith (rev suffix) r)
         Gender.deciding_endings
       && negb (Py.startswith (rev (lit "ma")) r && long)
    then lit "F" else lit "M".
Proof.
  unfold Gender.feminine_endings, Gender.deciding_endings, Gender.O_ACUTE.
  cbn [existsb].
  repeat match goal with
         | |- context [rev ?l] =>
             let v := eval vm_compute in (rev l) in change (rev l) with v
         end.
  destruct r as [|c1 r1]; [reflexivity|].
  rewrite ?startswith_cons, ?startswith_nil.
  case_char c1 110%N; [eval_eqb; cbn [andb orb]; case_atoms; reflexivity|].
  case_char c1 100%N; [eval_eqb; cbn [andb orb]; case_atoms; reflexivity|].
  case_char c1 101%N; [eval_eqb; cbn [andb orb]; case_atoms; reflexivity|].
  case_char c1 111%N; [eval_eqb; cbn [andb orb]; case_atoms; reflexivity|].
  case_char c1 114%N; [eval_eqb; cbn [andb orb]; case_atoms; reflexivity|].
  case_char c1 97%N; [|cbn [andb orb]; reflexivity].
  eval_eqb. cbn [andb orb].
  destruct r1 as [|c2 r2]; [reflexivity|].
  rewrite ?startswith_cons, ?startswith_nil.
  case_char c2 122%N; [eval_eqb; cbn [andb orb]; case_atoms; reflexivity|].
  cbn [andb orb]. destruct (N.eqb 109 c2), long; reflexivity.
Qed.

(** X13.  The gender [guess_gender_by_ending] gives a noun is decided by six
    endings of its lower-case form: feminine when it ends in -ción, -sión,
    -umbre, -ie, -a or -d, unless it ends in -ma and has more than three
    characters; masculine otherwise.  The list of Greek words in -ma, the
    endings -dad, -tad, -tud and -eza, and the masculine endings -o, -or,
    -aje and -ón never change the result. *)
Theorem guess_gender_deciding_endings {U : Unicode} (noun : str) :
  Gender.guess_gender_by_ending noun
  = if Gender.endswith_any Gender.deciding_endings (lower noun)
       && negb (Gender.endswith (lit "ma") (lower noun)
                && (3 <? List.length (lower noun))%nat)
    then lit "F" else lit "M".
Proof.
  unfold Gender.guess_gender_by_ending.
  generalize (lower noun). intros w.
  destruct (Song.str_mem w Gender.greek_ma_words) eqn:Hgreek.
  - apply str_mem_In in Hgreek. unfold Gender.greek_ma_words in Hgreek.
    cbn [In] in Hgreek.
    repeat (destruct Hgreek as [<-|Hgreek]; [vm_compute; reflexivity|]).
    destruct Hgreek.
  - unfold Gender.endswith_any, Gender.endswith.
    apply (guess_reversed (rev w) (3 <? List.length w)%nat).
Qed.

(** * Lines that are only sung syllables *)

Section Vocalization_facts.
Context {U : Unicode}.

Lemma syllable_vocal (part : str) :
  Song.str_mem part Vocalization.VOCALIZATION_SYLLABLES = true ->
  Vocalization.vocal part = true.
Proof. unfold Vocalization.vocal. now intros ->. Qed.

(** A list whose set has one element repeats that element. *)
Lemma unique_single (parts : list str) (x : str) :
  List.length (Vocalization.unique parts) = 1%nat ->
  In x parts -> forall p, In p parts -> p = x.
Proof.
  unfold Vocalization.unique. intros Hlen Hx p Hp.
  assert (Hin : forall q, In q parts -> In q (Main.add_new [] parts))
    by (intros q Hq; apply add_new_In; now right).
  apply Hin in Hx, Hp.
  destruct (Main.add_new [] parts) as [|a [|b l]]; try discriminate.
  destruct Hx as [<-|[]], Hp as [<-|[]]. reflexivity.
Qed.

(** The rule for one syllable repeated three times or more never decides:
    such a line has already been accepted part by part. *)
Lemma repeated_syllable_vocal (first : str) (rest : list str) :
  List.length (Vocalization.unique (first :: rest)) = 1%nat ->
  Song.str_mem first Vocalization.VOCALIZATION_SYLLABLES = true ->
  forallb Vocalization.vocal (first :: rest) = true.
Proof.
  intros Hlen Hsyl. apply forallb_forall. intros p Hp.
  rewrite (unique_single (first :: rest) first Hlen (or_introl eq_refl) p Hp).
  now apply syllable_vocal.
Qed.

Lemma is_vocalization_line_cases (t : str) :
  t <> [] ->
  Vocalization.is_vocalization_line (Some t)
  = Song.str_mem (Vocalization.cleaned_of t)
      Vocalization.STANDALONE_INTERJECTIONS
    || forallb Vocalization.vocal
         (Vocalization.parts_of (Vocalization.cleaned_of t)).
Proof.
  destruct t as [|c t']; [congruence|]. intros _.
  unfold Vocalization.is_vocalization_line.
  destruct (lower (Py.strip isspace (c :: t'))) as [|c1 text] eqn:Etext.
  { unfold Vocalization.cleaned_of. rewrite Etext. reflexivity. }
  destruct (Vocalization.cleaned_of (c :: t')) as [|c0 cl] eqn:Ecl;
    [reflexivity|].
  destruct (Song.str_mem (c0 :: cl) Vocalization.STANDALONE_INTERJECTIONS);
    [reflexivity|].
  cbn [orb].
  destruct (Vocalization.parts_of (c0 :: cl)) as [|first rest] eqn:Ep;
    [reflexivity|].
  destruct (forallb Vocalization.vocal (first :: rest)) eqn:Ef;
    [reflexivity|].
  destruct ((3 <=? List.length (first :: rest))%nat
            && (List.length (Vocalization.unique (first :: rest)) =? 1)%nat
            && Song.str_mem first Vocalization.VOCALIZATION_SYLLABLES)
    eqn:Erule; [|reflexivity].
  apply andb_true_iff in Erule as [Erule Hsyl].
  apply andb_true_iff in Erule as [_ Hlen]. apply Nat.eqb_eq in Hlen.
  now rewrite (repeated_syllable_vocal first rest Hlen Hsyl) in Ef.
Qed.

Lemma vocal_spec (part : str) :
  Vocalization.vocal part = true
  <-> In part Vocalization.VOCALIZATION_SYLLABLES
      \/ ((List.length part <= 6)%nat
          /\ exists syl, In syl Vocalization.VOCALIZATION_SYLLABLES
                         /\ (part = syl ++ syl \/ part = syl ++ syl ++ syl)).
Proof.
  unfold Vocalization.vocal.
  rewrite orb_true_iff, andb_true_iff, str_mem_In, Nat.leb_le, existsb_exists.
  split.
  - intros [H|[Hlen (syl & Hsyl & H)]]; [now left|]. right.
    split; [exact Hlen|]. exists syl. split; [exact Hsyl|].
    apply orb_true_iff in H as [H|H]; apply str_eqb_eq in H; tauto.
  - intros [H|[Hlen (syl & Hsyl & H)]]; [now left|]. right.
    split; [exact Hlen|]. exists syl. split; [exact Hsyl|].
    apply orb_true_iff. destruct H as [->| ->]; [left|right];
      apply str_eqb_refl.
Qed.

End Vocalization_facts.

Lemma split_run_length (class : char -> bool) (s : str) (part : str) :
  In part (Vocalization.split class s) ->
  (List.length part + List.length (filter class s) <= List.length s)%nat.
Proof.
  unfold Vocalization.split. revert part.
  induction s as [|c r IH]; intros part.
  - simpl. intros [<-|[]]. simpl. lia.
  - cbn [Vocalization.split_run filter].
    destruct (Vocalization.split_run class r) as [w ws] eqn:Er.
    assert (Hw : (List.length w + List.length (filter class r)
                  <= List.length r)%nat) by (apply IH; now left).
    assert (Hws : forall p, In p ws ->
                  (List.length p + List.length (filter class r)
                   <= List.length r)%nat) by (intros p Hp; apply IH; now right).
    destruct (class c).
    + destruct r as [|c' r'].
      * simpl. intros [<-|[<-|[]]]; simpl; lia.
      * destruct (class c').
        -- intros [<-|Hp]; cbn [List.length] in *; [lia|].
           specialize (Hws _ Hp). lia.
        -- intros [<-|[<-|Hp]]; cbn [List.length] in *; [lia|lia|].
           specialize (Hws _ Hp). lia.
    + intros [<-|Hp]; cbn [List.length]; [lia|].
      specialize (Hws _ Hp). lia.
Qed.

Lemma filter_length_pos {A : Type} (f : A -> bool) (l : list A) (x : A) :
  In x l -> f x = true -> (1 <= List.length (filter f l))%nat.
Proof.
  intros Hx Hf. assert (H : In x (filter f l)) by (apply filter_In; tauto).
  destruct (filter f l); [destruct H | simpl; lia].
Qed.

Section Vocalization_parts.
Context {U : Unicode}.

Lemma parts_of_length (cleaned part : str) :
  In part (Vocalization.parts_of cleaned) ->
  (List.length part + List.length (filter Vocalization.separator cleaned)
   <= List.length cleaned)%nat.
Proof.
  unfold Vocalization.parts_of. intros H. apply filter_In in H as [H _].
  now apply split_run_length.
Qed.

Lemma syllable_length (syl : str) :
  In syl Vocalization.VOCALIZATION_SYLLABLES -> (List.length syl <= 4)%nat.
Proof.
  unfold Vocalization.VOCALIZATION_SYLLABLES. cbn [In]. intros H.
  repeat (destruct H as [<-|H]; [vm_compute; repeat constructor|]).
  destruct H.
Qed.

Lemma interjection_parts_short (cleaned part : str) :
  In cleaned Vocalization.STANDALONE_INTERJECTIONS ->
  In part (Vocalization.parts_of cleaned) -> (List.length part <= 6)%nat.
Proof.
  intros Hc Hp. apply parts_of_length in Hp.
  unfold Vocalization.STANDALONE_INTERJECTIONS in Hc. cbn [In] in Hc.
  do 15 (destruct Hc as [<-|Hc];
         [change (List.length (lit _)) with 2%nat in Hp
          || change (List.length (lit _)) with 3%nat in Hp
          || change (List.length (lit _)) with 4%nat in Hp; lia|]).
  destruct Hc as [<-|[<-|[]]].
  - assert (H : (1 <= List.length
                        (filter Vocalization.separator (lit "woo-hoo")))%nat).
    { apply (filter_length_pos _ _ Vocalization.HYPHEN).
      - vm_compute. tauto.
      - unfold Vocalization.separator. rewrite N.eqb_refl. apply orb_true_r. }
    change (List.length (lit "woo-hoo")) with 7%nat in Hp. lia.
  - change (List.length (lit "woohoo")) with 6%nat in Hp. lia.
Qed.

End Vocalization_parts.

(** X14.  What makes a line a vocalization: a line without text always is
    one; a line with text is one exactly when what is left of it (lower
    case, without the punctuation) is one of the interjections, or splits
    at blanks and hyphens into parts that are each a syllable of the list or
    such a syllable written two or three times in at most six characters.
    The rule for one syllable repeated from three times on adds nothing. *)
Theorem vocalization_line_decided {U : Unicode} (line_text : option str) :
  Vocalization.is_vocalization_line line_text = true
  <-> match line_text with
      | None | Some [] => True
      | Some t =>
          In (Vocalization.cleaned_of t) Vocalization.STANDALONE_INTERJECTIONS
          \/ forall part,
               In part (Vocalization.parts_of (Vocalization.cleaned_of t)) ->
               In part Vocalization.VOCALIZATION_SYLLABLES
               \/ ((List.length part <= 6)%nat
                   /\ exists syl,
                        In syl Vocalization.VOCALIZATION_SYLLABLES
                        /\ (part = syl ++ syl \/ part = syl ++ syl ++ syl))
      end.
Proof.
  destruct line_text as [[|c t]|]; [now split | | now split].
  rewrite is_vocalization_line_cases by discriminate.
  rewrite orb_true_iff, str_mem_In, forallb_forall.
  split; (intros [H|H]; [now left | right]); intros part Hp;
    apply vocal_spec; now apply H.
Qed.

Lemma vocalization_line_decided_witness :
  @Vocalization.is_vocalization_line latin1 (Some (lit "La-la, la!")) = true.
Proof.
  apply (@vocalization_line_decided latin1 (Some (lit "La-la, la!"))).
  right. intros part Hp. left. vm_compute in Hp. vm_compute. tauto.
Defined.

(** X15.  A line with a long word is kept: when [is_vocalization_line]
    accepts a line with text, none of the parts of the line, cut at blanks
    and hyphens after the punctuation is removed, has more than six
    characters. *)
Theorem vocalization_line_has_no_long_word {U : Unicode} (t part : str) :
  t <> [] ->
  Vocalization.is_vocalization_line (Some t) = true ->
  In part (Vocalization.parts_of (Vocalization.cleaned_of t)) ->
  (List.length part <= 6)%nat.
Proof.
  intros Hne Hv Hp. rewrite is_vocalization_line_cases in Hv by exact Hne.
  apply orb_true_iff in Hv as [Hv|Hv].
  - apply str_mem_In in Hv. now apply (interjection_parts_short _ part Hv).
  - rewrite forallb_forall in Hv. apply Hv, vocal_spec in Hp.
    destruct Hp as [Hp|[Hp _]]; [|exact Hp].
    apply syllable_length in Hp. lia.
Qed.

Lemma vocalization_line_has_no_long_word_witness :
  (List.length (lit "hoo") <= 6)%nat.
Proof.
  apply (@vocalization_line_has_no_long_word latin1 (lit "Woo-hoo!")
           (lit "hoo")).
  - discriminate.
  - vm_compute. reflexivity.
  - vm_compute. tauto.
Defined.

(** ** [flag_skippable_lines] *)

Section Flagging_facts.
Context {U : Unicode}.
Variable update : str -> str + unit.

Lemma update_lines_spec (to_flag : list Vocalization.line) :
  forall flagged_count errs sent,
    Vocalization.update_lines update to_flag flagged_count errs sent
    = ((flagged_count
        + Z.of_nat (List.length (filter Vocalization.is_skippable to_flag))
        + Z.of_nat (List.length (filter (Vocalization.updated update)
                               (Vocalization.to_update to_flag))))%Z,
       errs ++ Vocalization.update_errors update
                 (Vocalization.to_update to_flag),
       sent ++ Vocalization.to_update to_flag).
Proof.
  unfold Vocalization.to_update, Vocalization.update_errors.
  induction to_flag as [|l rest IH]; intros n errs sent.
  - simpl. rewrite !app_nil_r. f_equal. f_equal. lia.
  - cbn [Vocalization.update_lines filter].
    destruct (Vocalization.is_skippable l); cbn [negb].
    + rewrite IH. cbn [List.length]. f_equal. f_equal. lia.
    + cbn [map filter flat_map]. unfold Vocalization.updated at 1.
      destruct (update (Vocalization.line_id l)) as [msg|[]]; rewrite IH.
      * rewrite <- !app_assoc. cbn [app]. reflexivity.
      * cbn [List.length app]. rewrite <- !app_assoc. cbn [app].
        f_equal. f_equal. lia.
Qed.

Lemma filter_filter_andb {A : Type} (f g : A -> bool) (l : list A) :
  filter g (filter f l) = filter (fun x => f x && g x) l.
Proof.
  induction l as [|x l IH]; [reflexivity|]. simpl.
  destruct (f x); simpl; [destruct (g x)|]; now rewrite IH.
Qed.

End Flagging_facts.

(** X16.  The bookkeeping of [flag_skippable_lines]: one update is sent for
    each vocalization line that is not flagged yet, in the order of the
    lines, and none for any other line; the lines flagged and the lines
    left to learn add up to all lines; [newly_flagged] is the number of
    updates that succeeded and [errors] lists the ones that failed.  The
    keys [newly_flagged] and [errors] are missing exactly when no line is a
    vocalization; nothing is sent then. *)
Theorem flag_skippable_lines_accounting {U : Unicode}
    (update : str -> str + unit) (lines : list Vocalization.line) :
  let r := fst (Vocalization.flag_skippable_lines update lines) in
  let sent := snd (Vocalization.flag_skippable_lines update lines) in
  sent = map Vocalization.line_id
           (filter (fun l =>
                      Vocalization.is_vocalization_line
                        (Vocalization.line_text l)
                      && negb (Vocalization.is_skippable l)) lines)
  /\ (Vocalization.flagged r + Vocalization.learnable r
      = Z.of_nat (List.length lines))%Z
  /\ (0 <= Vocalization.learnable r)%Z
  /\ match Vocalization.newly_flagged r, Vocalization.errors r with
     | Some n, Some errs =>
         n = Z.of_nat (List.length (filter (Vocalization.updated update) sent))
         /\ errs = Vocalization.update_errors update sent
     | None, None => sent = [] /\ Vocalization.flagged r = 0%Z
     | _, _ => False
     end
  /\ (Vocalization.newly_flagged r = None
      <-> forall l, In l lines ->
            Vocalization.is_vocalization_line (Vocalization.line_text l)
            = false)
  /\ (Vocalization.errors r = None
      <-> forall l, In l lines ->
            Vocalization.is_vocalization_line (Vocalization.line_text l)
            = false).
Proof.
  cbv zeta. unfold Vocalization.flag_skippable_lines.
  rewrite <- filter_filter_andb.
  assert (Hle : (List.length
                   (filter (fun l => Vocalization.is_vocalization_line
                                       (Vocalization.line_text l)) lines)
                 <= List.length lines)%nat) by apply filter_length_le.
  assert (Hnone : filter (fun l => Vocalization.is_vocalization_line
                                     (Vocalization.line_text l)) lines = []
                  <-> forall l, In l lines ->
                        Vocalization.is_vocalization_line
                          (Vocalization.line_text l) = false).
  { split.
    - intros E l Hl.
      destruct (Vocalization.is_vocalization_line (Vocalization.line_text l))
        eqn:Ev; [|reflexivity].
      assert (H : In l (filter (fun l => Vocalization.is_vocalization_line
                                           (Vocalization.line_text l)) lines))
        by (apply filter_In; tauto).
      rewrite E in H. destruct H.
    - apply filter_none. }
  destruct (filter (fun l => Vocalization.is_vocalization_line
                               (Vocalization.line_text l)) lines)
    as [|l0 to_flag] eqn:Eflag.
  - cbn [fst snd Vocalization.flagged Vocalization.learnable
         Vocalization.newly_flagged Vocalization.errors filter map].
    repeat split; try lia; intros _; now apply Hnone.
  - rewrite update_lines_spec.
    cbn [fst snd Vocalization.flagged Vocalization.learnable
         Vocalization.newly_flagged Vocalization.errors app].
    fold (Vocalization.to_update (l0 :: to_flag)).
    repeat split; try lia; try discriminate;
      intros H; apply Hnone in H; discriminate.
Qed.

Lemma flag_skippable_lines_accounting_witness :
  Vocalization.newly_flagged
    (fst (@Vocalization.flag_skippable_lines latin1 (fun _ => inr tt)
            [{| Vocalization.line_id := lit "l1";
                Vocalization.line_text := Some Scenario.casa_line;
                Vocalization.is_skippable := false |}])) = None.
Proof.
  apply (@flag_skippable_lines_accounting latin1 (fun _ => inr tt)
           [{| Vocalization.line_id := lit "l1";
               Vocalization.line_text := Some Scenario.casa_line;
               Vocalization.is_skippable := false |}]).
  intros l [<-|[]]. vm_compute. reflexivity.
Defined.

(** * Titles *)

Lemma lookup_set_item {V : Type} (k k' : str) (v : V) (d : Dict.dict V) :
  Dict.lookup k (Dict.set_item k' v d)
  = if str_eqb k k' then Some v else Dict.lookup k d.
Proof.
  induction d as [|[k0 v0] rest IH]; [reflexivity|].
  cbn [Dict.set_item Dict.lookup].
  destruct (str_eqb k' k0) eqn:E0; cbn [Dict.lookup].
  - apply str_eqb_eq in E0. subst k0. now destruct (str_eqb k k').
  - rewrite IH. destruct (str_eqb k k0) eqn:E1; [|reflexivity].
    destruct (str_eqb k k') eqn:E2; [|reflexivity].
    apply str_eqb_eq in E1, E2. subst. now rewrite str_eqb_refl in E0.
Qed.

Lemma find_app {A : Type} (f : A -> bool) (l1 l2 : list A) :
  find f (l1 ++ l2)
  = match find f l1 with Some x => Some x | None => find f l2 end.
Proof.
  induction l1 as [|x l1 IH]; [reflexivity|]. simpl. now destruct (f x).
Qed.

(** The last element of a list that satisfies [f]. *)
Lemma find_rev_last {A : Type} (f : A -> bool) (l : list A) (x : A) :
  find f (rev l) = Some x ->
  exists pre post,
    l = pre ++ x :: post /\ f x = true
    /\ forall y, In y post -> f y = false.
Proof.
  induction l as [|y l IH] using rev_ind; [discriminate|].
  rewrite rev_app_distr. cbn [rev app find].
  destruct (f y) eqn:Ey.
  - intros H. injection H as <-. exists l, []. now repeat split.
  - intros H. destruct (IH H) as (pre & post & -> & Hx & Hpost).
    exists pre, (post ++ [y]). rewrite <- app_assoc. repeat split;
      [assumption|].
    intros z Hz. apply in_app_or in Hz as [Hz|[<-|[]]];
      [now apply Hpost | exact Ey].
Qed.

Lemma find_rev_none {A : Type} (f : A -> bool) (l : list A) :
  find f (rev l) = None <-> forall y, In y l -> f y = false.
Proof.
  split.
  - intros H y Hy. apply (find_none _ _ H). now apply in_rev in Hy.
  - intros H. destruct (find f (rev l)) as [x|] eqn:E; [|reflexivity].
    apply find_some in E as [Hx Hf]. apply in_rev in Hx.
    rewrite (H x Hx) in Hf. discriminate.
Qed.

Lemma number_sections_lines (sections : list (list str)) :
  forall i, map Titles.lines (Titles.number_sections i sections) = sections.
Proof.
  induction sections as [|l rest IH]; intros i; [reflexivity|].
  simpl. now rewrite IH.
Qed.

Lemma number_sections_order (sections : list (list str)) :
  forall i,
    map Titles.section_order (Titles.number_sections i sections)
    = seq (i + 1) (List.length sections).
Proof.
  induction sections as [|l rest IH]; intros i; [reflexivity|].
  simpl. f_equal. now rewrite IH.
Qed.

Lemma single_spaces_weaken (sp : char -> bool) (s : str) :
  Titles.single_spaces sp true s = true -> Titles.single_spaces sp false s = true.
Proof.
  destruct s as [|c r]; [reflexivity|]. simpl.
  destruct (sp c); [discriminate | trivial].
Qed.

Lemma sub_runs_single (sp : char -> bool) (s : str) :
  Titles.single_spaces sp true (Titles.sub_runs sp true s) = true
  /\ Titles.single_spaces sp false (Titles.sub_runs sp false s) = true.
Proof.
  induction s as [|c r [IHt IHf]]; [now split|].
  cbn [Titles.sub_runs]. destruct (sp c) eqn:Ec.
  - split; [exact IHt|]. cbn [Titles.single_spaces].
    destruct (sp Titles.SPACE); [exact IHt|].
    now apply single_spaces_weaken.
  - cbn [Titles.single_spaces]. rewrite Ec. now split.
Qed.

Lemma single_spaces_adjacent (sp : char -> bool) (pre post : str)
    (a b : char) :
  forall prev,
    Titles.single_spaces sp prev (pre ++ a :: b :: post) = true ->
    sp a = true -> sp b = false.
Proof.
  induction pre as [|c pre IH]; intros prev H Ha.
  - cbn [app Titles.single_spaces] in H. rewrite Ha in H.
    destruct (sp b); [|reflexivity].
    apply andb_true_iff in H as [_ H]. discriminate.
  - cbn [app Titles.single_spaces] in H. destruct (sp c).
    + apply andb_true_iff in H as [_ H]. exact (IH _ H Ha).
    + exact (IH _ H Ha).
Qed.

Lemma sub_runs_In (sp : char -> bool) (s : str) (c : char) :
  forall in_run,
    In c (Titles.sub_runs sp in_run s) ->
    c = Titles.SPACE \/ (In c s /\ sp c = false).
Proof.
  induction s as [|x r IH]; intros in_run; [intros []|].
  cbn [Titles.sub_runs]. destruct (sp x) eqn:Ex.
  - destruct in_run.
    + intros H. destruct (IH _ H) as [->|[Hc Hs]]; [now left|].
      right. split; [now right | exact Hs].
    + intros [<-|H]; [now left|].
      destruct (IH _ H) as [->|[Hc Hs]]; [now left|].
      right. split; [now right | exact Hs].
  - intros [<-|H]; [right; split; [now left | exact Ex]|].
    destruct (IH _ H) as [->|[Hc Hs]]; [now left|].
    right. split; [now right | exact Hs].
Qed.

Section Titles_facts.
Context {U : Unicode} {D : Titles.Unicode_data}.

Lemma load_songs_lookup (k : str) (songs : list Titles.db_song) :
  forall mappings,
    Dict.lookup k (Titles.load_songs songs mappings)
    = match find (fun s => str_eqb k (Titles.normalize_title (Titles.title s)))
              (rev songs) with
      | Some s => Some s
      | None => Dict.lookup k mappings
      end.
Proof.
  induction songs as [|s rest IH]; intros mappings; [reflexivity|].
  cbn [Titles.load_songs rev]. rewrite IH, find_app, lookup_set_item.
  cbn [find].
  destruct (find _ (rev rest)); [reflexivity|].
  now destruct (str_eqb k (Titles.normalize_title (Titles.title s))).
Qed.

Lemma load_song_mappings_lookup (songs : list Titles.db_song)
    (parsed_title : str) :
  Dict.lookup (Titles.normalize_title parsed_title)
    (Titles.load_song_mappings songs)
  = Titles.song_for songs parsed_title.
Proof.
  unfold Titles.load_song_mappings, Titles.song_for.
  rewrite load_songs_lookup. now destruct (find _ (rev songs)).
Qed.

(** What a parsed song adds to the two lists. *)
Lemma match_songs_spec (mappings : Titles.song_mappings)
    (parsed_songs : list Titles.parsed_song) :
  forall matched unmatched,
    Titles.match_songs parsed_songs mappings matched unmatched
    = (matched
       ++ flat_map
            (fun song =>
               match Dict.lookup
                       (Titles.normalize_title (Titles.parsed_title song))
                       mappings with
               | Some db_song =>
                   [{| Titles.m_title := Titles.title db_song;
                       Titles.m_song_id := Titles.song_id db_song;
                       Titles.m_parsed_title := Titles.parsed_title song;
                       Titles.m_sections :=
                         Titles.number_sections 0 (Titles.sections song);
                       Titles.m_total_sections := Titles.total_sections song;
                       Titles.m_total_lines := Titles.total_lines song |}]
               | None => []
               end) parsed_songs,
       unmatched
       ++ flat_map
            (fun song =>
               match Dict.lookup
                       (Titles.normalize_title (Titles.parsed_title song))
                       mappings with
               | Some _ => []
               | None => [Titles.parsed_title song]
               end) parsed_songs).
Proof.
  induction parsed_songs as [|song rest IH]; intros matched unmatched.
  - simpl. now rewrite !app_nil_r.
  - cbn [Titles.match_songs flat_map].
    destruct (Dict.lookup _ mappings); rewrite IH;
      now rewrite <- ?app_assoc.
Qed.

End Titles_facts.

(** X17.  The shape of a normalized title: each of its characters is a
    blank or a word character that is not white space, and white space
    never comes twice in a row. *)
Theorem normalize_title_shape {U : Unicode} {D : Titles.Unicode_data}
    (title : str) :
  (forall c, In c (Titles.normalize_title title) ->
     c = Titles.SPACE \/ (isword c = true /\ isspace c = false))
  /\ (forall pre a b post,
        Titles.normalize_title title = pre ++ a :: b :: post ->
        isspace a = true -> isspace b = false).
Proof.
  unfold Titles.normalize_title. split.
  - intros c Hc. apply sub_runs_In in Hc as [->|[Hc Hs]]; [now left|].
    right. split; [|exact Hs].
    unfold Vocalization.sub_class in Hc. apply filter_In in Hc as [_ Hc].
    rewrite negb_involutive, Hs, orb_false_r in Hc. exact Hc.
  - intros pre a b post E.
    apply (single_spaces_adjacent isspace pre post a b false).
    rewrite <- E. apply sub_runs_single.
Qed.

(** X18.  [match_songs_to_database] sorts every parsed song into exactly one
    of its two lists and keeps the order: the matched songs are the parsed
    songs whose normalized title is a key of the mappings, the unmatched
    titles are the others.  The sections of a matched song are those of the
    parsed song, numbered 1, 2, 3, ... *)
Theorem match_songs_partition {U : Unicode} {D : Titles.Unicode_data}
    (parsed_songs : list Titles.parsed_song)
    (mappings : Titles.song_mappings) :
  let known song :=
    match Dict.lookup (Titles.normalize_title (Titles.parsed_title song))
            mappings with
    | Some _ => true
    | None => false
    end in
  let matched := fst (Titles.match_songs_to_database parsed_songs mappings) in
  let unmatched :=
    snd (Titles.match_songs_to_database parsed_songs mappings) in
  map Titles.m_parsed_title matched
  = map Titles.parsed_title (filter known parsed_songs)
  /\ map (fun m => map Titles.lines (Titles.m_sections m)) matched
     = map Titles.sections (filter known parsed_songs)
  /\ unmatched
     = map Titles.parsed_title
         (filter (fun song => negb (known song)) parsed_songs)
  /\ (List.length matched + List.length unmatched
      = List.length parsed_songs)%nat
  /\ (forall m, In m matched ->
        map Titles.section_order (Titles.m_sections m)
        = seq 1 (List.length (Titles.m_sections m))).
Proof.
  cbv zeta. unfold Titles.match_songs_to_database.
  rewrite match_songs_spec. cbn [fst snd app].
  induction parsed_songs as [|song rest (IH1 & IH2 & IH3 & IH4 & IH5)].
  - simpl. repeat split. intros m [].
  - cbn [flat_map filter].
    destruct (Dict.lookup _ mappings) as [db_song|];
      cbn [negb app map Titles.m_sections Titles.m_parsed_title].
    + rewrite IH1, IH2, <- IH3, number_sections_lines.
      repeat split; [cbn [List.length]; lia|].
      intros m [<-|Hm]; [|now apply IH5].
      cbn [Titles.m_sections]. rewrite number_sections_order.
      f_equal. rewrite <- (number_sections_lines (Titles.sections song) 0)
        at 1. now rewrite length_map.
    + rewrite IH1, IH2, <- IH3.
      repeat split; [cbn [List.length]; lia | exact IH5].
Qed.

(** X19.  Loading the mappings, then matching: a parsed song is matched
    exactly when some song of the mapping file has the same normalized
    title, and it then takes the title and the identifier of the last such
    song of the file; a title is reported as unmatched exactly when no song
    of the file has its normalized title. *)
Theorem matched_song_is_last_with_title {U : Unicode}
    {D : Titles.Unicode_data} (songs : list Titles.db_song)
    (parsed_songs : list Titles.parsed_song) :
  let matched :=
    fst (Titles.match_songs_to_database parsed_songs
           (Titles.load_song_mappings songs)) in
  let unmatched :=
    snd (Titles.match_songs_to_database parsed_songs
           (Titles.load_song_mappings songs)) in
  (forall m, In m matched ->
     exists p pre s post,
       In p parsed_songs
       /\ Titles.m_parsed_title m = Titles.parsed_title p
       /\ songs = pre ++ s :: post
       /\ Titles.normalize_title (Titles.title s)
          = Titles.normalize_title (Titles.parsed_title p)
       /\ (forall s', In s' post ->
             Titles.normalize_title (Titles.title s')
             <> Titles.normalize_title (Titles.parsed_title p))
       /\ Titles.m_title m = Titles.title s
       /\ Titles.m_song_id m = Titles.song_id s)
  /\ (forall p, In p parsed_songs ->
        (exists s, In s songs
                   /\ Titles.normalize_title (Titles.title s)
                      = Titles.normalize_title (Titles.parsed_title p)) ->
        exists m, In m matched
                  /\ Titles.m_parsed_title m = Titles.parsed_title p)
  /\ (forall t, In t unmatched <->
        exists p, In p parsed_songs /\ Titles.parsed_title p = t
                  /\ forall s, In s songs ->
                       Titles.normalize_title (Titles.title s)
                       <> Titles.normalize_title t).
Proof.
  cbv zeta. unfold Titles.match_songs_to_database.
  rewrite match_songs_spec. cbn [fst snd app].
  assert (Hneq : forall (a b : str), str_eqb a b = false <-> b <> a).
  { intros a b. split.
    - intros E ->. now rewrite str_eqb_refl in E.
    - intros H. destruct (str_eqb a b) eqn:E; [|reflexivity].
      apply str_eqb_eq in E. congruence. }
  split; [|split].
  - intros m Hm. apply in_flat_map in Hm as (p & Hp & Hm).
    rewrite load_song_mappings_lookup in Hm. unfold Titles.song_for in Hm.
    destruct (find _ (rev songs)) as [s|] eqn:Efind; [|destruct Hm].
    destruct Hm as [<-|[]].
    apply find_rev_last in Efind as (pre & post & -> & Hs & Hpost).
    apply str_eqb_eq in Hs.
    exists p, pre, s, post.
    repeat split; try reflexivity; [exact Hp | congruence |].
    intros s' Hs'. apply Hneq. now apply Hpost.
  - intros p Hp (s & Hs & E).
    destruct (Titles.song_for songs (Titles.parsed_title p)) as [s0|] eqn:Efor.
    + eexists. split.
      * apply in_flat_map. exists p. split; [exact Hp|].
        rewrite load_song_mappings_lookup, Efor. now left.
      * reflexivity.
    + unfold Titles.song_for in Efor.
      rewrite find_rev_none in Efor. specialize (Efor s Hs).
      apply Hneq in Efor. congruence.
  - intros t. rewrite in_flat_map. split.
    + intros (p & Hp & Ht). rewrite load_song_mappings_lookup in Ht.
      unfold Titles.song_for in Ht.
      destruct (find _ (rev songs)) as [s|] eqn:Efind; [destruct Ht|].
      destruct Ht as [<-|[]]. exists p. repeat split; [exact Hp|].
      intros s Hs. apply Hneq.
      exact (proj1 (find_rev_none _ _) Efind s Hs).
    + intros (p & Hp & <- & Hno). exists p. split; [exact Hp|].
      rewrite load_song_mappings_lookup. unfold Titles.song_for.
      replace (find _ (rev songs)) with (@None Titles.db_song);
        [now left|].
      symmetry. apply find_rev_none. intros s Hs. apply Hneq.
      now apply Hno.
Qed.

(** * The learnable lines and their songs *)

Lemma load_sections_lookup (k : str) (rows : list Learnable.section_row) :
  forall d,
    Dict.lookup k (Learnable.load_sections rows d)
    = match find (fun s => str_eqb k (Learnable.section_id s)) (rev rows) with
      | Some s =>
          Some {| Learnable.info_song_id := Learnable.song_id s;
                  Learnable.info_title :=
                    match Learnable.songs s with
                    | Some t => t
                    | None => lit "Unknown"
                    end |}
      | None => Dict.lookup k d
      end.
Proof.
  induction rows as [|s rest IH]; intros d; [reflexivity|].
  cbn [Learnable.load_sections rev]. rewrite IH, find_app, lookup_set_item.
  cbn [find].
  destruct (find _ (rev rest)); [reflexivity|].
  now destruct (str_eqb k (Learnable.section_id s)).
Qed.

Lemma learnable_song_id (rows : list Learnable.section_row)
    (lines : list Song.song_line) :
  map Learnable.row (Learnable.get_learnable_lines_with_songs rows lines)
  = map (fun line => {| Driver.song_id := Learnable.song_of rows line;
                        Driver.line := line |}) lines.
Proof.
  unfold Learnable.get_learnable_lines_with_songs, Learnable.join.
  rewrite map_map. apply map_ext. intros line.
  rewrite load_sections_lookup. unfold Learnable.song_of.
  now destruct (find _ (rev rows)).
Qed.

Lemma filter_lines_of_map (p : option str -> bool)
    (f : Song.song_line -> option str) (lines : list Song.song_line) :
  map Driver.line
    (filter (fun x => p (Driver.song_id x))
       (map (fun line => {| Driver.song_id := f line; Driver.line := line |})
          lines))
  = filter (fun line => p (f line)) lines.
Proof.
  induction lines as [|l rest IH]; [reflexivity|]. simpl.
  destruct (p (f l)); simpl; now rewrite IH.
Qed.

(** X20.  The join of [get_learnable_lines_with_songs] followed by the
    grouping loop of [detect_occurrences], as pieces of code on any rows
    (in the source as it is the grouping is not reached, see X21): the lines
    grouped under a song are the lines whose section belongs to that song,
    in the order in which they were read, where the song of a section is
    that of its last row; a line whose section has no row, or no song, is
    grouped under no song. *)
Theorem learnable_lines_of_song (rows : list Learnable.section_row)
    (lines : list Song.song_line) (id : str) (l : Song.song_line) :
  let grouped :=
    Driver.group
      (map Learnable.row
         (Learnable.get_learnable_lines_with_songs rows lines)) [] in
  Driver.get (Some id) grouped
  = filter (fun line => Driver.key_eqb (Some id) (Learnable.song_of rows line))
      lines
  /\ (In l (Driver.get (Some id) grouped)
      <-> In l lines
          /\ exists pre s post,
               rows = pre ++ s :: post
               /\ Learnable.section_id s = Song.section_id l
               /\ Learnable.song_id s = Some id
               /\ forall s', In s' post ->
                    Learnable.section_id s' <> Song.section_id l).
Proof.
  cbv zeta.
  assert (Hget : Driver.get (Some id)
                   (Driver.group
                      (map Learnable.row
                         (Learnable.get_learnable_lines_with_songs rows lines))
                      [])
                 = filter (fun line => Driver.key_eqb (Some id)
                                         (Learnable.song_of rows line)) lines).
  { rewrite group_get, learnable_song_id. cbn [Driver.get app].
    apply (filter_lines_of_map (Driver.key_eqb (Some id))). }
  split; [exact Hget|]. rewrite Hget, filter_In.
  assert (Hneq : forall (a b : str), str_eqb a b = false <-> b <> a).
  { intros a b. split.
    - intros E ->. now rewrite str_eqb_refl in E.
    - intros H. destruct (str_eqb a b) eqn:E; [|reflexivity].
      apply str_eqb_eq in E. congruence. }
  split.
  - intros [Hl Hk]. split; [exact Hl|].
    apply key_eqb_eq in Hk. unfold Learnable.song_of in Hk.
    destruct (find _ (rev rows)) as [s|] eqn:Efind; [|discriminate].
    apply find_rev_last in Efind as (pre & post & -> & Hs & Hpost).
    apply str_eqb_eq in Hs. exists pre, s, post.
    repeat split; [congruence | congruence |].
    intros s' Hs'. apply Hneq. now apply Hpost.
  - intros [Hl (pre & s & post & -> & Hs & Hid & Hpost)].
    split; [exact Hl|]. apply key_eqb_eq. unfold Learnable.song_of.
    rewrite rev_app_distr. cbn [rev]. rewrite <- app_assoc, find_app.
    replace (find _ (rev post)) with (@None Learnable.section_row).
    + cbn [app find]. rewrite <- Hs, str_eqb_refl. now rewrite Hid.
    + symmetry. apply find_rev_none. intros s' Hs'. apply Hneq.
      now apply Hpost.
Qed.
